(** * The review-workflow engine of [scripts/review.js]

    A shallow embedding of the parts of [review.js] that decide the approval
    workflow: argument parsing, the similarity estimator, identifier
    assignment, schema validation, JSON extraction, and the three commands
    [init], [parse-round], [finalize] acting on the files of a workspace.

    Conventions of the model.
    - Text is a Rocq [string]; a character stands for one code unit below 256
      (ASCII and Latin-1), which fixes what [toLowerCase], [\w] and [\s] do.
    - A round is a binary64 number: [parseInt10] rounds the digits it reads
      to the nearest one and yields an infinity beyond the largest, and
      [JSON.stringify] writes an infinity as [null] ([stored]).  A record of a
      file holds a number as the file does: an integer, or [None] for [null].
    - The number of an issue id and a count are exact integers ([nat]); the
      script computes them in binary64, which agrees up to 2^53.  Properties
      stated for arbitrary ids are stated below that bound.
    - The similarity ratio is an exact fraction in [Q].  For sets of fewer
      than 2^26 words, comparing two such ratios, or a ratio with 0.6, gives
      the same answer on binary64 quotients.
    - [JSON.parse] is the runtime's: the development is parametric in it.
    - A command is a function from the file system before to the file system
      after and the way the process ended: files written before a [die] stay
      written.
    - A directory is the record of the workspace files in it, found under
      the path as the script spells it; [path.join] normalizes as in Node,
      and two spellings of one place ([ws] and [ws/]) are two keys: the
      model is exact for paths given in normal form.
    - The wording of diagnostics, time stamps in the change log and the text
      of [plan-final.md] are not modelled.
    - Objects are looked up by their own properties.  The option
      [--__proto__] assigns through the setter of [Object.prototype], which
      ignores a string and [true]: [parseArgs] skips it.  The map of
      prior-issue updates is looked up by own property as well, which is what
      the script does unless an update carries the id [__proto__] or an
      issue id names a member of [Object.prototype]; invariants of the
      ledger are stated for runs without such ids ([plainInvocation]). *)

From stdpp Require Import gmap strings list fin_maps fin_sets.
From Stdlib Require Import Ascii QArith Qround DecimalString DecimalNat.

Local Close Scope Q_scope.
Local Open Scope string_scope.
Local Open Scope list_scope.
Set Warnings "-register-all".

(** ** Characters and the regular-expression classes used by the script *)

Definition code (c : ascii) : N := Ascii.N_of_ascii c.

Definition between (lo hi : N) (c : ascii) : bool :=
  ((lo <=? code c) && (code c <=? hi))%N.

(** [\d] *)
Definition isDigit (c : ascii) : bool := between 48 57 c.

(** [\w], that is [[A-Za-z0-9_]] *)
Definition isWord (c : ascii) : bool :=
  between 65 90 c || between 97 122 c || isDigit c || (code c =? 95)%N.

(** [\s] (and what [trim] strips): TAB, LF, VT, FF, CR, SP and NBSP. *)
Definition isSpace (c : ascii) : bool :=
  between 9 13 c || (code c =? 32)%N || (code c =? 160)%N.

(** One character of [toLowerCase]: A-Z, and the Latin-1 capitals
    U+00C0..U+00DE without the multiplication sign U+00D7. *)
Definition lowerChar (c : ascii) : ascii :=
  if between 65 90 c || (between 192 222 c && negb (code c =? 215)%N)
  then Ascii.ascii_of_N (code c + 32)
  else c.

Fixpoint toLowerCase (s : string) : string :=
  match s with
  | EmptyString => EmptyString
  | String c r => String (lowerChar c) (toLowerCase r)
  end.

(** [s.replace(/[^\w\s]/g, ' ')] *)
Fixpoint blankPunctuation (s : string) : string :=
  match s with
  | EmptyString => EmptyString
  | String c r =>
      String (if isWord c || isSpace c then c else " "%char) (blankPunctuation r)
  end.

Fixpoint dropSpaces (s : string) : string :=
  match s with
  | String c r => if isSpace c then dropSpaces r else s
  | EmptyString => EmptyString
  end.

(** [s.replace(/\s+/g, ' ')]: every maximal run of white space becomes one
    space. *)
Fixpoint collapseSpaces (s : string) : string :=
  match s with
  | EmptyString => EmptyString
  | String c r =>
      if isSpace c
      then match r with
           | String d _ =>
               if isSpace d then collapseSpaces r
               else String " "%char (collapseSpaces r)
           | EmptyString => String " "%char EmptyString
           end
      else String c (collapseSpaces r)
  end.

Definition allSpaces (s : string) : bool :=
  match dropSpaces s with EmptyString => true | _ => false end.

Fixpoint trimEnd (s : string) : string :=
  match s with
  | EmptyString => EmptyString
  | String c r => if allSpaces s then EmptyString else String c (trimEnd r)
  end.

(** [s.trim()] *)
Definition trim (s : string) : string := trimEnd (dropSpaces s).

(** [s.split(' ')]: the pieces between single spaces, empty ones included. *)
Fixpoint splitSpace (s : string) : list string :=
  match s with
  | EmptyString => [EmptyString]
  | String c r =>
      if (code c =? 32)%N then EmptyString :: splitSpace r
      else match splitSpace r with
           | w :: ws => String c w :: ws
           | [] => [String c EmptyString]
           end
  end.

(** ** Jaccard similarity for dedup *)

Definition normalizeText (text : string) : string :=
  trim (collapseSpaces (blankPunctuation (toLowerCase text))).

(** [.filter(Boolean)] on strings keeps the non-empty ones. *)
Definition nonEmpty (w : string) : bool :=
  match w with EmptyString => false | _ => true end.

Definition tokenize (text : string) : gset string :=
  list_to_set (filter (λ w, nonEmpty w = true) (splitSpace (normalizeText text))).

(** The loop [for (const w of setA) if (setB.has(w)) intersection++]. *)
Definition countShared (setA setB : gset string) : nat :=
  size (filter (λ w, w ∈ setB) setA).

(** The body of [jaccardSimilarity] once both texts are tokenized. *)
Definition jaccardOfSets (setA setB : gset string) : Q :=
  if (size setA =? 0)%nat && (size setB =? 0)%nat then 1%Q
  else
    let intersection := countShared setA setB in
    let union := (size setA + size setB - intersection)%nat in
    if (union =? 0)%nat then 0%Q
    else (Z.of_nat intersection # Pos.of_nat union)%Q.

Definition jaccardSimilarity (a b : string) : Q :=
  jaccardOfSets (tokenize a) (tokenize b).

(** ** Values read from JSON text *)

(** [JObj] lists the own properties of an object, each key once. *)
Inductive json : Type :=
| JNull
| JBool (b : bool)
| JNum (q : Q)
| JStr (s : string)
| JArr (items : list json)
| JObj (fields : list (string * json)).

(** How a run of the script ends: [return code] from a command (then
    [process.exit(code || 0)]), [die(msg, code)], or an uncaught exception. *)
Inductive failure : Type :=
| OptionRequired (name : string)
| PlanNotFound
| SameProviderFamily (family : string)
| WorkspaceNotFound
| ResponseNotFound
| CannotReadFile
| ExtractionFailed
| SchemaInvalid (count : nat)
| NotAWorkspace
| BlockersOpen (ids : list string)
| ReasonTooShort
| ConfirmAborted
| CiForceRequired
| NoPlanVersions
| UnknownCommand.

Inductive ending : Type :=
| Exit (code : Z)
| Die (why : failure) (code : Z)
| Uncaught.

(** A computation that yields a value or ends the process. *)
Inductive res (A : Type) : Type :=
| Ok (a : A)
| Stop (e : ending).
Arguments Ok {A} a.
Arguments Stop {A} e.

#[global] Instance res_ret : MRet res := λ A a, Ok a.
#[global] Instance res_bind : MBind res := λ A B k m,
  match m with Ok a => k a | Stop e => Stop e end.

(** [die(msg)] exits with code 2 unless another code is given. *)
Definition die {A} (why : failure) : res A := Stop (Die why 2).

(** [v[key]] for a key that no prototype defines: [None] is [undefined];
    reading a property of [null] throws. *)
Fixpoint field (key : string) (fields : list (string * json)) : option json :=
  match fields with
  | [] => None
  | (k, v) :: rest => if String.eqb k key then Some v else field key rest
  end.

Definition prop (v : json) (key : string) : res (option json) :=
  match v with
  | JNull => Stop Uncaught
  | JObj fields => Ok (field key fields)
  | _ => Ok None
  end.

(** JavaScript truthiness of a JSON value ([None] is [undefined]). *)
Definition truthy (v : option json) : bool :=
  match v with
  | None | Some JNull => false
  | Some (JBool b) => b
  | Some (JNum q) => negb (Qeq_bool q 0)
  | Some (JStr s) => nonEmpty s
  | Some (JArr _) | Some (JObj _) => true
  end.

(** ** Argument parsing *)

(** A parsed option holds the next word, or [true]; [args._] holds the
    positional words. *)
Inductive argval : Type :=
| AStr (s : string)
| ATrue
| APos (words : list string).

Definition startsWithDashes (a : string) : bool := String.prefix "--" a.

(** [a.slice(2)] *)
Definition slice2 (a : string) : string :=
  match a with String _ (String _ r) => r | _ => EmptyString end.

(** [args[key] = value] on the object literal [{ _: [] }]: the key
    [__proto__] reaches the setter inherited from [Object.prototype], which
    does nothing for a value that is no object. *)
Definition setArg (key : string) (value : argval) (args : gmap string argval)
  : gmap string argval :=
  if String.eqb key "__proto__" then args else <[key := value]> args.

Fixpoint parseArgsFrom (argv : list string) (args : gmap string argval)
  : res (gmap string argval) :=
  match argv with
  | [] => Ok args
  | a :: rest =>
      if startsWithDashes a then
        let key := slice2 a in
        match rest with
        | next :: rest' =>
            if negb (startsWithDashes next)
            then parseArgsFrom rest' (setArg key (AStr next) args)
            else parseArgsFrom rest (setArg key ATrue args)
        | [] => parseArgsFrom rest (setArg key ATrue args)
        end
      else
        match args !! "_" with
        | Some (APos words) => parseArgsFrom rest (<["_" := APos (words ++ [a])]> args)
        | _ => Stop Uncaught
        end
  end.

Definition parseArgs (argv : list string) : res (gmap string argval) :=
  parseArgsFrom argv {[ "_" := APos [] ]}.

(** Truthiness of [args[key]]. *)
Definition given (v : option argval) : bool :=
  match v with
  | None => false
  | Some (AStr s) => nonEmpty s
  | Some ATrue | Some (APos _) => true
  end.

(** ** Issue ID generation *)

Fixpoint takeDigits (s : string) : string :=
  match s with
  | String c r => if isDigit c then String c (takeDigits r) else EmptyString
  | EmptyString => EmptyString
  end.

(** [id.match(/ISS-(\d+)/)]: the digits captured at the leftmost place where
    [ISS-] is followed by a digit. *)
Fixpoint matchIssueDigits (s : string) : option string :=
  match s with
  | EmptyString => None
  | String _ r =>
      match (if String.prefix "ISS-" s
             then takeDigits (String.substring 4 (String.length s - 4) s)
             else EmptyString) with
      | EmptyString => matchIssueDigits r
      | digits => Some digits
      end
  end.

(** [parseInt(digits, 10)] on a run of digits. *)
Definition digitValue (c : ascii) : nat := N.to_nat (code c) - 48.

Fixpoint parseDigitsFrom (acc : nat) (s : string) : nat :=
  match s with
  | EmptyString => acc
  | String c r => parseDigitsFrom (acc * 10 + digitValue c) r
  end.

Definition parseDigits (s : string) : nat := parseDigitsFrom 0 s.

Definition issueNumber (id : string) : nat :=
  match matchIssueDigits id with
  | Some digits => parseDigits digits
  | None => 0
  end.

(** [String(n)] *)
Definition decimal (n : nat) : string := NilEmpty.string_of_uint (Nat.to_uint n).

(** [s.padStart(3, '0')] *)
Definition padStart3 (s : string) : string :=
  match String.length s with
  | 0 => "000" +:+ s
  | 1 => "00" +:+ s
  | 2 => "0" +:+ s
  | _ => s
  end.

Definition issueId (n : nat) : string := "ISS-" +:+ padStart3 (decimal n).

(** [nums.length ? Math.max(...nums) : 0] *)
Definition maxOf (nums : list nat) : nat :=
  match nums with
  | [] => 0
  | n :: rest => fold_left Nat.max rest n
  end.

(** ** Round numbers

    [number] holds what [parseInt] can return besides [NaN]: an integer that
    binary64 represents, or an infinity. *)
Inductive number : Type :=
| Num (z : Z)
| Infinity (negative : bool).

#[global] Instance number_eq_dec : EqDecision number.
Proof. solve_decision. Defined.

#[global] Instance number_countable : Countable number.
Proof.
  refine (inj_countable'
            (λ n, match n with Num z => inl z | Infinity b => inr b end)
            (λ c, match c with inl z => Num z | inr b => Infinity b end) _).
  intros []; reflexivity.
Defined.

(** The binary64 number nearest to the integer [n], ties to the even
    significand: exact below 2^53, an infinity from 2^1024 - 2^970 on. *)
Definition toDouble (n : Z) : number :=
  let a := Z.abs n in
  if (a <? 2 ^ 53)%Z then Num n
  else
    let e := (Z.log2 a - 52)%Z in
    let q := Z.shiftr a e in
    let r := (a - Z.shiftl q e)%Z in
    let half := Z.shiftl 1 (e - 1) in
    let m := if (r <? half)%Z then q
             else if (half <? r)%Z then (q + 1)%Z
             else if Z.even q then q else (q + 1)%Z in
    let v := Z.shiftl m e in
    if (2 ^ 1024 <=? v)%Z then Infinity (n <? 0)%Z
    else Num (if (n <? 0)%Z then - v else v)%Z.

(** What [JSON.stringify] writes for a number and [JSON.parse] reads back:
    the number itself, or [null] for an infinity. *)
Definition stored (n : number) : option Z :=
  match n with
  | Num z => Some z
  | Infinity _ => None
  end.

(** ** The data model: issues, round verdicts, outputs

    A record of a file holds the values as [JSON.stringify] writes them. *)

Inductive Verdict : Type := PENDING | APPROVED | REVISE | FORCE_APPROVED.
Inductive Severity : Type := CRITICAL | HIGH | MEDIUM | LOW.
Inductive Status : Type :=
| st_open | st_resolved | st_still_open | st_regressed | st_not_applicable
| st_force_approved.

#[global] Instance Verdict_eq_dec : EqDecision Verdict.
Proof. solve_decision. Defined.
#[global] Instance Severity_eq_dec : EqDecision Severity.
Proof. solve_decision. Defined.
#[global] Instance Status_eq_dec : EqDecision Status.
Proof. solve_decision. Defined.

Definition verdictOfString (s : string) : option Verdict :=
  if String.eqb s "APPROVED" then Some APPROVED
  else if String.eqb s "REVISE" then Some REVISE
  else if String.eqb s "PENDING" then Some PENDING
  else if String.eqb s "FORCE_APPROVED" then Some FORCE_APPROVED
  else None.

Definition severityOfString (s : string) : option Severity :=
  if String.eqb s "CRITICAL" then Some CRITICAL
  else if String.eqb s "HIGH" then Some HIGH
  else if String.eqb s "MEDIUM" then Some MEDIUM
  else if String.eqb s "LOW" then Some LOW
  else None.

Definition statusOfString (s : string) : option Status :=
  if String.eqb s "open" then Some st_open
  else if String.eqb s "resolved" then Some st_resolved
  else if String.eqb s "still-open" then Some st_still_open
  else if String.eqb s "regressed" then Some st_regressed
  else if String.eqb s "not-applicable" then Some st_not_applicable
  else if String.eqb s "force-approved" then Some st_force_approved
  else None.

(** One entry of [issues.json]. *)
Record Issue : Type := {
  id : string;
  severity : Severity;
  location : json;
  problem : json;
  fix_ : json;
  status : Status;
  round_found : option Z;
  round_resolved : option Z;
  last_evidence : json;
}.

(** One element of [prior_issues] and of [new_issues] of a response that
    passed validation. *)
Record PriorUpdate : Type := {
  pu_id : string;
  pu_status : Status;
  pu_evidence : option json;
}.

Record NewIssue : Type := {
  ni_severity : Severity;
  ni_location : json;
  ni_problem : json;
  ni_fix : json;
}.

Record RoundVerdict : Type := {
  rv_verdict : Verdict;
  rv_prior_issues : list PriorUpdate;
  rv_new_issues : list NewIssue;
  rv_summary : string;
}.

Record DedupWarning : Type := {
  new_issue_index : nat;
  possible_duplicate_of : option string;
  similarity : Q;
}.

(** [round-N-output.json] *)
Record RoundOutput : Type := {
  ro_round : option Z;
  ro_verdict : Verdict;
  ro_reviewVerdict : Verdict;
  ro_summary : string;
  ro_newIssues : list string;
  ro_dedupWarnings : list DedupWarning;
  ro_blockers : list string;
}.

(** ** Review schema validation *)

Definition VALID_VERDICTS : list string := ["APPROVED"; "REVISE"].
Definition VALID_SEVERITIES : list string := ["CRITICAL"; "HIGH"; "MEDIUM"; "LOW"].
Definition VALID_STATUSES : list string :=
  ["resolved"; "still-open"; "regressed"; "not-applicable"].

(** [SET.has(v)]: only a string can be a member of a set of strings. *)
Definition has (set : list string) (v : option json) : bool :=
  match v with
  | Some (JStr s) => existsb (String.eqb s) set
  | _ => false
  end.

Definition isString (v : option json) : bool :=
  match v with Some (JStr _) => true | _ => false end.

Inductive schemaError : Type :=
| VerdictInvalid
| PriorIssuesNotArray
| PriorIdMissing (i : nat)
| PriorStatusInvalid (i : nat)
| NewIssuesNotArray
| NewSeverityInvalid (i : nat)
| NewLocationMissing (i : nat)
| NewProblemMissing (i : nat)
| NewFixMissing (i : nat)
| SummaryNotString.

Definition unless (ok : bool) (e : schemaError) : list schemaError :=
  if ok then [] else [e].

(** [items.forEach((x, i) => ...)] where the callback pushes errors. *)
Fixpoint forEachFrom (check : nat → json → res (list schemaError))
    (i : nat) (items : list json) : res (list schemaError) :=
  match items with
  | [] => Ok []
  | x :: rest =>
      here ← check i x;
      later ← forEachFrom check (S i) rest;
      Ok (here ++ later)
  end.

(** [String(v)] returns, for a value read from JSON, unless it reaches an
    object with an own property [toString]: that property is not callable,
    and the inherited [valueOf] returns the object.  An array is converted
    through its elements. *)
Fixpoint printable (v : json) : bool :=
  match v with
  | JObj fields => negb (existsb (λ kv, String.eqb (fst kv) "toString") fields)
  | JArr items => forallb printable items
  | _ => true
  end.

Definition shown (v : option json) : bool :=
  match v with Some x => printable x | None => true end.

(** [if (!ok) errors.push(`... ${v}`)]: building the message converts [v]
    to a string, which can throw. *)
Definition complain (ok : bool) (v : option json) (e : schemaError)
  : res (list schemaError) :=
  if ok then Ok [] else if shown v then Ok [e] else Stop Uncaught.

Definition checkPriorIssue (i : nat) (pi : json) : res (list schemaError) :=
  pid ← prop pi "id";
  pstatus ← prop pi "status";
  statusErrors ← complain (has VALID_STATUSES pstatus) pstatus (PriorStatusInvalid i);
  Ok (unless (truthy pid && isString pid) (PriorIdMissing i) ++ statusErrors).

Definition checkNewIssue (i : nat) (ni : json) : res (list schemaError) :=
  sev ← prop ni "severity";
  sevErrors ← complain (has VALID_SEVERITIES sev) sev (NewSeverityInvalid i);
  loc ← prop ni "location";
  prob ← prop ni "problem";
  fx ← prop ni "fix";
  Ok (sevErrors
      ++ unless (truthy loc) (NewLocationMissing i)
      ++ unless (truthy prob) (NewProblemMissing i)
      ++ unless (truthy fx) (NewFixMissing i)).

Definition validateReviewResponse (obj : json) : res (list schemaError) :=
  verdict ← prop obj "verdict";
  verdictErrors ← complain (has VALID_VERDICTS verdict) verdict VerdictInvalid;
  prior ← prop obj "prior_issues";
  priorErrors ← match prior with
                 | Some (JArr items) => forEachFrom checkPriorIssue 0 items
                 | _ => Ok [PriorIssuesNotArray]
                 end;
  new ← prop obj "new_issues";
  newErrors ← match new with
               | Some (JArr items) => forEachFrom checkNewIssue 0 items
               | _ => Ok [NewIssuesNotArray]
               end;
  summary ← prop obj "summary";
  Ok (verdictErrors ++ priorErrors ++ newErrors
      ++ unless (isString summary) SummaryNotString).

(** The typed reading of a response, as the code after validation uses it:
    [pu.id], [update.status], [update.evidence], [ni.severity], ... *)
Definition asString (v : option json) : option string :=
  match v with Some (JStr s) => Some s | _ => None end.

Definition fieldOf (v : json) (key : string) : option json :=
  match v with JObj fields => field key fields | _ => None end.

Definition readPriorUpdate (pi : json) : option PriorUpdate :=
  i ← asString (fieldOf pi "id");
  st ← asString (fieldOf pi "status") ≫= statusOfString;
  Some {| pu_id := i; pu_status := st; pu_evidence := fieldOf pi "evidence" |}.

Definition readNewIssue (ni : json) : option NewIssue :=
  sev ← asString (fieldOf ni "severity") ≫= severityOfString;
  loc ← fieldOf ni "location";
  prob ← fieldOf ni "problem";
  fx ← fieldOf ni "fix";
  Some {| ni_severity := sev; ni_location := loc; ni_problem := prob; ni_fix := fx |}.

Definition asArray (v : option json) : option (list json) :=
  match v with Some (JArr items) => Some items | _ => None end.

Definition readRoundVerdict (parsed : json) : option RoundVerdict :=
  v ← asString (fieldOf parsed "verdict") ≫= verdictOfString;
  prior ← asArray (fieldOf parsed "prior_issues") ≫= mapM readPriorUpdate;
  new ← asArray (fieldOf parsed "new_issues") ≫= mapM readNewIssue;
  summary ← asString (fieldOf parsed "summary");
  Some {| rv_verdict := v; rv_prior_issues := prior; rv_new_issues := new;
          rv_summary := summary |}.

(** ** Files of a review run *)

(** [meta.json] *)
Record Meta : Type := {
  created : string;
  reviewerModel : string;
  plannerModel : string;
  reviewerFamily : string;
  plannerFamily : string;
  maxRounds : Z;
  currentRound : option Z;
  verdict : Verdict;
  completedAt : option string;
  wsDir : string;
}.

(** [force_approve_log] of [summary.json]; [fa_reason] is the value of
    [--override-reason] as parsed. *)
Record ForceApproveLog : Type := {
  fa_actor : string;
  fa_reason : argval;
  fa_timestamp : string;
  fa_unresolved_issues : list string;
  fa_tty_confirmed : bool;
  fa_ci_force : bool;
}.

Record SeverityCounts : Type := {
  critical : nat; high : nat; medium : nat; low : nat;
}.

(** [summary.json] *)
Record Summary : Type := {
  sm_rounds : option Z;
  sm_plannerModel : string;
  sm_reviewerModel : string;
  totalIssuesFound : nat;
  issuesBySeverity : SeverityCounts;
  issuesResolved : nat;
  issuesUnresolved : nat;
  finalVerdict : Verdict;
  sm_completedAt : string;
  force_approve_log : option ForceApproveLog;
}.

(** What an entry of [changelog.md] is computed from. *)
Inductive LogEntry : Type :=
| LogStarted (started reviewer planner : string)
| LogRound (round : number) (v : Verdict) (summary : string)
    (newIssues : list (string * Severity)) (dedupWarnings blockers : nat)
    (openCount resolvedCount : nat)
| LogFinal (v : Verdict) (rounds : option Z) (found resolved unresolved : nat)
    (forcedBy : option (string * argval)).

(** A directory: the files of a workspace that are present in it.
    [d_plans] lists the [N] of the files [plan-vN.md]; [d_planFinal] is the
    version [plan-final.md] was made from; [d_rounds] holds the files
    [round-N-output.json] by the number that [N] prints. *)
Record Dir : Type := {
  d_meta : option Meta;
  d_issues : option (list Issue);
  d_plans : list nat;
  d_rounds : gmap number RoundOutput;
  d_summary : option Summary;
  d_changelog : list LogEntry;
  d_planFinal : option nat;
}.

Definition emptyDir : Dir :=
  {| d_meta := None; d_issues := None; d_plans := []; d_rounds := ∅;
     d_summary := None; d_changelog := []; d_planFinal := None |}.

(** The file system: directories by path, and regular files elsewhere (plan
    and response files) by path. *)
Record FS : Type := {
  dirs : gmap string Dir;
  files : gmap string string;
}.

(** What the process reads from its surroundings. *)
Record Env : Type := {
  now : string;            (* new Date().toISOString() *)
  random : string;         (* Math.random().toString(36).slice(2, 10) *)
  cwd : string;
  isTTY : bool;            (* process.stdin.isTTY && process.stdout.isTTY *)
  ttyLine : option string; (* the line read from the terminal, if reading worked *)
  envUSER : option string;
  envCI_ACTOR : option string;
}.

Definition existsSync (fs : FS) (p : option argval) : bool :=
  match p with
  | Some (AStr p) => bool_decide (is_Some (dirs fs !! p)) || bool_decide (is_Some (files fs !! p))
  | _ => false
  end.

Definition pathOf (p : option argval) : string :=
  match p with Some (AStr p) => p | _ => EmptyString end.

Definition readFile (fs : FS) (p : string) : res string :=
  match files fs !! p with
  | Some text => Ok text
  | None => die CannotReadFile
  end.

(** Writing a file of directory [ws]; it throws when [ws] is no directory. *)
Definition writeIn (fs : FS) (ws : string) (change : Dir → Dir) : res FS :=
  match dirs fs !! ws with
  | Some d => Ok {| dirs := <[ws := change d]> (dirs fs); files := files fs |}
  | None => Stop Uncaught
  end.

Definition getWorkspaceMeta (fs : FS) (ws : string) : res Meta :=
  match dirs fs !! ws ≫= d_meta with
  | Some m => Ok m
  | None => die NotAWorkspace
  end.

Definition getIssues (fs : FS) (ws : string) : list Issue :=
  default [] (dirs fs !! ws ≫= d_issues).

Definition setIssues (issues : list Issue) (d : Dir) : Dir :=
  {| d_meta := d_meta d; d_issues := Some issues; d_plans := d_plans d;
     d_rounds := d_rounds d; d_summary := d_summary d;
     d_changelog := d_changelog d; d_planFinal := d_planFinal d |}.

Definition setMeta (m : Meta) (d : Dir) : Dir :=
  {| d_meta := Some m; d_issues := d_issues d; d_plans := d_plans d;
     d_rounds := d_rounds d; d_summary := d_summary d;
     d_changelog := d_changelog d; d_planFinal := d_planFinal d |}.

Definition setRound (round : number) (out : RoundOutput) (d : Dir) : Dir :=
  {| d_meta := d_meta d; d_issues := d_issues d; d_plans := d_plans d;
     d_rounds := <[round := out]> (d_rounds d); d_summary := d_summary d;
     d_changelog := d_changelog d; d_planFinal := d_planFinal d |}.

Definition appendLog (entry : LogEntry) (d : Dir) : Dir :=
  {| d_meta := d_meta d; d_issues := d_issues d; d_plans := d_plans d;
     d_rounds := d_rounds d; d_summary := d_summary d;
     d_changelog := d_changelog d ++ [entry]; d_planFinal := d_planFinal d |}.

Definition setSummary (s : Summary) (d : Dir) : Dir :=
  {| d_meta := d_meta d; d_issues := d_issues d; d_plans := d_plans d;
     d_rounds := d_rounds d; d_summary := Some s;
     d_changelog := d_changelog d; d_planFinal := d_planFinal d |}.

Definition setPlanFinal (v : nat) (d : Dir) : Dir :=
  {| d_meta := d_meta d; d_issues := d_issues d; d_plans := d_plans d;
     d_rounds := d_rounds d; d_summary := d_summary d;
     d_changelog := d_changelog d; d_planFinal := Some v |}.

Definition saveIssues (fs : FS) (ws : string) (issues : list Issue) : res FS :=
  writeIn fs ws (setIssues issues).

Definition isBlockingSeverity (s : Severity) : bool :=
  match s with CRITICAL | HIGH => true | _ => false end.

(** [status === 'open' || status === 'still-open' || status === 'regressed'] *)
Definition isOpen (st : Status) : bool :=
  match st with st_open | st_still_open | st_regressed => true | _ => false end.

Definition getOpenBlockers (issues : list Issue) : list Issue :=
  filter (λ iss, isBlockingSeverity (severity iss) && isOpen (status iss) = true) issues.

Definition nextIssueId (issues : list Issue) : string :=
  let nums := map (λ iss, issueNumber (id iss)) issues in
  issueId (maxOf nums + 1).

(** ** Commands as state transformers

    A command runs on the file system, may change it, and either yields a
    value or ends the process; what was written before the end stays. *)

Definition M (A : Type) : Type := FS → FS * res A.

#[global] Instance M_ret : MRet M := λ A a fs, (fs, Ok a).
#[global] Instance M_bind : MBind M := λ A B k m fs,
  match m fs with
  | (fs', Ok a) => k a fs'
  | (fs', Stop e) => (fs', Stop e)
  end.

Definition lift {A} (r : res A) : M A := λ fs, (fs, r).
Definition reading {A} (f : FS → A) : M A := λ fs, (fs, Ok (f fs)).
Definition attempt {A} (f : FS → res A) : M A := λ fs, (fs, f fs).
Definition writing (f : FS → res FS) : M unit := λ fs,
  match f fs with
  | Ok fs' => (fs', Ok tt)
  | Stop e => (fs, Stop e)
  end.
Definition dieUnless (ok : bool) (why : failure) : M unit :=
  lift (if ok then Ok tt else die why).

(** [process.exit(exitCode || 0)] after the command returned, or the way it
    ended before. *)
Definition run (cmd : M Z) (fs : FS) : FS * ending :=
  match cmd fs with
  | (fs', Ok c) => (fs', Exit c)
  | (fs', Stop e) => (fs', e)
  end.

(** ** Reading the round number *)

(** The integer that a run of digits denotes. *)
Fixpoint digitsValueFrom (acc : Z) (s : string) : Z :=
  match s with
  | EmptyString => acc
  | String c r => digitsValueFrom (acc * 10 + Z.of_N (code c - 48)) r
  end.

Definition digitsValue (s : string) : Z := digitsValueFrom 0 s.

(** [parseInt(s, 10)]; [None] is [NaN]. *)
Definition parseInt10 (s : string) : option number :=
  let t := dropSpaces s in
  let '(negative, u) :=
    match t with
    | String "-"%char r => (true, r)
    | String "+"%char r => (false, r)
    | _ => (false, t)
    end in
  match takeDigits u with
  | EmptyString => None
  | digits => Some (toDouble (if negative : bool then - digitsValue digits
                              else digitsValue digits)%Z)
  end.

(** [String(v)] of an option value, as [parseInt] sees it. *)
Definition argText (v : option argval) : string :=
  match v with
  | None => "undefined"
  | Some (AStr s) => s
  | Some ATrue => "true"
  | Some (APos words) => String.concat "," words
  end.

(** ** Applying the prior-issue updates of a round *)

Definition buildPriorUpdateMap (updates : list PriorUpdate) : gmap string PriorUpdate :=
  fold_left (λ m pu, <[pu_id pu := pu]> m) updates ∅.

(** [update.evidence || null] *)
Definition evidenceOrNull (e : option json) : json :=
  match e with
  | Some v => if truthy e then v else JNull
  | None => JNull
  end.

Definition applyUpdate (round : number) (update : PriorUpdate) (iss : Issue) : Issue :=
  {| id := id iss;
     severity := severity iss;
     location := location iss;
     problem := problem iss;
     fix_ := fix_ iss;
     status := pu_status update;
     round_found := round_found iss;
     round_resolved :=
       match pu_status update with
       | st_resolved | st_not_applicable => stored round
       | _ => round_resolved iss
       end;
     last_evidence := evidenceOrNull (pu_evidence update) |}.

Definition applyPriorUpdates (round : number) (priorUpdateMap : gmap string PriorUpdate)
    (issues : list Issue) : list Issue :=
  map (λ iss, match priorUpdateMap !! id iss with
              | Some update => applyUpdate round update iss
              | None => iss
              end) issues.

(** ** Dedup check and registration of new issues *)

(** [jaccardSimilarity(a, b)] on values that need not be strings:
    [text.toLowerCase] of anything else throws. *)
Definition jaccardSimilarityOf (a b : json) : res Q :=
  match a, b with
  | JStr x, JStr y => Ok (jaccardSimilarity x y)
  | _, _ => Stop Uncaught
  end.

Definition Qlt_bool (x y : Q) : bool := negb (Qle_bool y x).

(** The inner loop over [openIssues]: the first issue reaching the largest
    similarity above 0. *)
Fixpoint scanOpenIssues (text : json) (openIssues : list Issue)
    (maxSim : Q) (dupOf : option string) : res (Q * option string) :=
  match openIssues with
  | [] => Ok (maxSim, dupOf)
  | o :: rest =>
      sim ← jaccardSimilarityOf text (problem o);
      if Qlt_bool maxSim sim
      then scanOpenIssues text rest sim (Some (id o))
      else scanOpenIssues text rest maxSim dupOf
  end.

(** [Math.round(maxSim * 100) / 100], in exact arithmetic. *)
Definition roundHundredths (q : Q) : Q :=
  (Qfloor (q * 100 + (1 # 2)) # 100)%Q.

Definition makeIssue (newId : string) (ni : NewIssue) (round : number) : Issue :=
  {| id := newId;
     severity := ni_severity ni;
     location := ni_location ni;
     problem := ni_problem ni;
     fix_ := ni_fix ni;
     status := st_open;
     round_found := stored round;
     round_resolved := None;
     last_evidence := JNull |}.

(** The state of the loop over [parsed.new_issues]. *)
Record Registration : Type := {
  rg_issues : list Issue;
  rg_assigned : list Issue;
  rg_warnings : list DedupWarning;
}.

Fixpoint registerFrom (round : number) (openIssues : list Issue) (idx : nat)
    (new : list NewIssue) (st : Registration) : res Registration :=
  match new with
  | [] => Ok st
  | ni :: rest =>
      '(maxSim, dupOf) ← scanOpenIssues (ni_problem ni) openIssues 0%Q None;
      let warnings :=
        if Qle_bool (6 # 10) maxSim
        then rg_warnings st ++
             [{| new_issue_index := idx; possible_duplicate_of := dupOf;
                 similarity := roundHundredths maxSim |}]
        else rg_warnings st in
      let newId := nextIssueId (rg_issues st ++ rg_assigned st) in
      let newIssue := makeIssue newId ni round in
      registerFrom round openIssues (S idx) rest
        {| rg_issues := rg_issues st ++ [newIssue];
           rg_assigned := rg_assigned st ++ [newIssue];
           rg_warnings := warnings |}
  end.

(** The dedup block of [cmdParseRound].  [openIssues] is filtered once,
    before the loop: the issues pushed during the loop are not in it. *)
Definition registerNewIssues (round : number) (new : list NewIssue)
    (issues : list Issue) : res Registration :=
  let openIssues := filter (λ i, isOpen (status i) = true) issues in
  registerFrom round openIssues 0 new
    {| rg_issues := issues; rg_assigned := []; rg_warnings := [] |}.

(** The two ledger blocks of [cmdParseRound]: prior updates, then new
    issues compared with the issues open after the updates. *)
Definition processRound (round : number) (parsed : RoundVerdict)
    (issues : list Issue) : res Registration :=
  let priorUpdateMap := buildPriorUpdateMap (rv_prior_issues parsed) in
  registerNewIssues round (rv_new_issues parsed)
    (applyPriorUpdates round priorUpdateMap issues).

(** The approval gate. *)
Definition gate (submitted : Verdict) (blockers : list Issue) : Verdict :=
  if bool_decide (submitted = APPROVED) && (0 <? length blockers)%nat
  then REVISE else submitted.

(** ** Model family detection *)

Definition PROVIDER_FAMILIES : list (string * list string) :=
  [ ("anthropic", ["claude"; "anthropic"; "sonnet"; "haiku"; "opus"]);
    ("openai", ["gpt"; "openai"; "codex"; "o1"; "o3"; "davinci"]);
    ("google", ["gemini"; "google"; "bard"; "palm"]);
    ("mistral", ["mistral"; "mixtral"]);
    ("meta", ["llama"; "meta"]);
    ("cohere", ["command"; "cohere"]) ].

(** [s.includes(kw)] *)
Fixpoint includes (kw s : string) : bool :=
  String.prefix kw s ||
  match s with
  | EmptyString => false
  | String _ r => includes kw r
  end.

(** [s.split('/')[0]] *)
Fixpoint beforeSlash (s : string) : string :=
  match s with
  | EmptyString => EmptyString
  | String c r => if (code c =? 47)%N then EmptyString else String c (beforeSlash r)
  end.

Definition detectFamily (modelId : string) : string :=
  let lower := toLowerCase modelId in
  match find (λ fam, existsb (λ kw, includes kw lower) (snd fam)) PROVIDER_FAMILIES with
  | Some fam => fst fam
  | None => if nonEmpty (beforeSlash lower) then beforeSlash lower else "unknown"
  end.

(** [detectFamily] called on an option value: [true.toLowerCase] throws. *)
Definition detectFamilyOf (v : option argval) : res string :=
  match v with
  | Some (AStr s) => Ok (detectFamily s)
  | _ => Stop Uncaught
  end.

(** ** JSON extraction *)

(** The text after the first [```]. *)
Fixpoint afterFence (s : string) : option string :=
  if String.prefix "```" s then Some (String.substring 3 (String.length s - 3) s)
  else match s with
       | EmptyString => None
       | String _ r => afterFence r
       end.

(** The text before the first [```] of [s], when there is one. *)
Fixpoint beforeFence (s : string) : option string :=
  if String.prefix "```" s then Some EmptyString
  else match s with
       | EmptyString => None
       | String c r => String c <$> beforeFence r
       end.

(** The group captured by [/```(?:json)?\s*([\s\S]*?)```/]. *)
Definition fenceMatch (raw : string) : option string :=
  after ← afterFence raw;
  let body := if String.prefix "json" after
              then String.substring 4 (String.length after - 4) after
              else after in
  beforeFence (dropSpaces body).

(** From the first [{]. *)
Fixpoint fromOpenBrace (s : string) : option string :=
  match s with
  | EmptyString => None
  | String c r => if (code c =? 123)%N then Some s else fromOpenBrace r
  end.

(** Up to and including the last [}]. *)
Fixpoint uptoCloseBrace (s : string) : option string :=
  match s with
  | EmptyString => None
  | String c r =>
      match uptoCloseBrace r with
      | Some t => Some (String c t)
      | None => if (code c =? 125)%N then Some (String c EmptyString) else None
      end
  end.

(** [raw.slice(start, end + 1)] when [start !== -1 && end !== -1 && end > start] *)
Definition braceBlock (raw : string) : option string :=
  fromOpenBrace raw ≫= uptoCloseBrace.

Section Commands.

(** [JSON.parse]: [None] when it throws. *)
Variable JSON_parse : string → option json.

(** [first || second], where a failed attempt falls through to the next. *)
Definition orElse {A} (first second : option A) : option A :=
  match first with Some v => Some v | None => second end.

(** [None] is the final [throw]. *)
Definition extractJson (raw : string) : option json :=
  orElse (JSON_parse (trim raw))
    (orElse (fenceMatch raw ≫= λ inner, JSON_parse (trim inner))
       (braceBlock raw ≫= JSON_parse)).

(** ** COMMAND: init *)

(** The pieces of a path between slashes, empty ones included. *)
Fixpoint splitSlash (s : string) : list string :=
  match s with
  | EmptyString => [EmptyString]
  | String c r =>
      if (code c =? 47)%N then EmptyString :: splitSlash r
      else match splitSlash r with
           | w :: ws => String c w :: ws
           | [] => [String c EmptyString]
           end
  end.

(** One step of [normalizeString]: [kept] holds the segments kept so far,
    the last one first. *)
Definition normalizeSegment (allowAboveRoot : bool) (kept : list string)
    (segment : string) : list string :=
  if String.eqb segment "" || String.eqb segment "." then kept
  else if String.eqb segment ".." then
    match kept with
    | top :: below =>
        if String.eqb top ".."
        then (if allowAboveRoot then ".." :: kept else kept)
        else below
    | [] => if allowAboveRoot then [".."] else []
    end
  else segment :: kept.

Fixpoint endsWithSlash (s : string) : bool :=
  match s with
  | EmptyString => false
  | String c EmptyString => (code c =? 47)%N
  | String _ r => endsWithSlash r
  end.

(** [path.posix.normalize] *)
Definition normalize (path : string) : string :=
  match path with
  | EmptyString => "."
  | String c _ =>
      let isAbsolute := (code c =? 47)%N in
      let trailingSeparator := endsWithSlash path in
      let body :=
        String.concat "/"
          (rev (fold_left (normalizeSegment (negb isAbsolute)) (splitSlash path) [])) in
      match body with
      | EmptyString => if isAbsolute then "/" else if trailingSeparator then "./" else "."
      | _ => (if isAbsolute then "/" else "") +:+ body
             +:+ (if trailingSeparator then "/" else "")
      end
  end.

(** [path.join(a, b)]: the non-empty arguments joined by a slash, then
    normalized. *)
Definition pathJoin (a b : string) : string :=
  match a, b with
  | EmptyString, EmptyString => "."
  | EmptyString, _ => normalize b
  | _, EmptyString => normalize a
  | _, _ => normalize (a +:+ "/" +:+ b)
  end.

(** [fs.mkdirSync(dir, { recursive: true })] *)
Definition ensureDir (p : option argval) (fs : FS) : res FS :=
  match p with
  | Some (AStr p) =>
      match dirs fs !! p, files fs !! p with
      | Some _, _ => Ok fs
      | None, Some _ => Stop Uncaught
      | None, None => Ok {| dirs := <[p := emptyDir]> (dirs fs); files := files fs |}
      end
  | _ => Stop Uncaught
  end.

(** [s.replace(/[:.]/g, '-')] *)
Fixpoint dashed (s : string) : string :=
  match s with
  | EmptyString => EmptyString
  | String c r =>
      String (if (code c =? 58)%N || (code c =? 46)%N then "-"%char else c) (dashed r)
  end.

Definition addPlan (v : nat) (d : Dir) : Dir :=
  {| d_meta := d_meta d; d_issues := d_issues d;
     d_plans := if bool_decide (v ∈ d_plans d) then d_plans d else d_plans d ++ [v];
     d_rounds := d_rounds d; d_summary := d_summary d;
     d_changelog := d_changelog d; d_planFinal := d_planFinal d |}.

Definition startLog (entry : LogEntry) (d : Dir) : Dir :=
  {| d_meta := d_meta d; d_issues := d_issues d; d_plans := d_plans d;
     d_rounds := d_rounds d; d_summary := d_summary d;
     d_changelog := [entry]; d_planFinal := d_planFinal d |}.

Definition cmdInit (env : Env) (args : gmap string argval) : M Z :=
  let planPath := args !! "plan" in
  let reviewerModel := args !! "reviewer-model" in
  let plannerModel := args !! "planner-model" in
  let outBase := if given (args !! "out") then args !! "out"
                 else Some (AStr (pathJoin (cwd env) "tasks/reviews")) in
  dieUnless (given planPath) (OptionRequired "plan");;
  dieUnless (given reviewerModel) (OptionRequired "reviewer-model");;
  dieUnless (given plannerModel) (OptionRequired "planner-model");;
  found ← reading (λ fs, existsSync fs planPath);
  dieUnless found PlanNotFound;;
  rFamily ← lift (detectFamilyOf reviewerModel);
  pFamily ← lift (detectFamilyOf plannerModel);
  dieUnless (negb (String.eqb rFamily pFamily && negb (String.eqb rFamily "unknown")))
    (SameProviderFamily rFamily);;
  writing (ensureDir outBase);;
  let timestamp := String.substring 0 19 (dashed (now env)) in
  let ws := pathJoin (pathOf outBase) (timestamp +:+ "-" +:+ random env) in
  writing (ensureDir (Some (AStr ws)));;
  _ ← attempt (λ fs, readFile fs (pathOf planPath));
  writing (λ fs, writeIn fs ws (addPlan 1));;
  let meta :=
    {| created := now env;
       reviewerModel := pathOf reviewerModel;
       plannerModel := pathOf plannerModel;
       reviewerFamily := rFamily;
       plannerFamily := pFamily;
       maxRounds := 5;
       currentRound := Some 0%Z;
       verdict := PENDING;
       completedAt := None;
       wsDir := ws |} in
  writing (λ fs, writeIn fs ws (setMeta meta));;
  writing (λ fs, writeIn fs ws (setIssues []));;
  writing (λ fs, writeIn fs ws
     (startLog (LogStarted (created meta) (pathOf reviewerModel) (pathOf plannerModel))));;
  mret 0%Z.

(** ** COMMAND: parse-round *)

Definition withRound (round : number) (v : Verdict) (m : Meta) : Meta :=
  {| created := created m; reviewerModel := reviewerModel m;
     plannerModel := plannerModel m; reviewerFamily := reviewerFamily m;
     plannerFamily := plannerFamily m; maxRounds := maxRounds m;
     currentRound := stored round; verdict := v;
     completedAt := completedAt m; wsDir := wsDir m |}.

Definition countStatus (keep : Status → bool) (issues : list Issue) : nat :=
  length (filter (λ i, keep (status i) = true) issues).

(** The approval gate and the record saved as [round-N-output.json]. *)
Definition roundOutputOf (round : number) (parsed : RoundVerdict) (reg : Registration)
  : RoundOutput :=
  let issues := rg_issues reg in
  let assignedNewIssues := rg_assigned reg in
  let blockers := getOpenBlockers issues in
  let finalVerdict := gate (rv_verdict parsed) blockers in
  {| ro_round := stored round;
     ro_verdict := finalVerdict;
     ro_reviewVerdict := rv_verdict parsed;
     ro_summary := rv_summary parsed;
     ro_newIssues := map id assignedNewIssues;
     ro_dedupWarnings := rg_warnings reg;
     ro_blockers := map id blockers |}.

(** The entry appended to [changelog.md]. *)
Definition roundLogOf (round : number) (parsed : RoundVerdict) (reg : Registration)
  : LogEntry :=
  let issues := rg_issues reg in
  let assignedNewIssues := rg_assigned reg in
  let blockers := getOpenBlockers issues in
  let finalVerdict := gate (rv_verdict parsed) blockers in
  let openCount :=
    countStatus (λ s, bool_decide (s = st_open) || bool_decide (s = st_still_open)) issues in
  let resolvedCount := countStatus (λ s, bool_decide (s = st_resolved)) issues in
  LogRound round finalVerdict (rv_summary parsed)
    (map (λ i, (id i, severity i)) assignedNewIssues)
    (length (rg_warnings reg)) (length blockers) openCount resolvedCount.

Definition cmdParseRound (args : gmap string argval) : M Z :=
  let wsDir := args !! "workspace" in
  let round := parseInt10 (argText (args !! "round")) in
  let respPath := args !! "response" in
  dieUnless (given wsDir) (OptionRequired "workspace");;
  round ← lift (match round with
                 | Some (Num 0) => die (OptionRequired "round")
                 | Some r => Ok r
                 | None => die (OptionRequired "round")
                 end);
  dieUnless (given respPath) (OptionRequired "response");;
  wsFound ← reading (λ fs, existsSync fs wsDir);
  dieUnless wsFound WorkspaceNotFound;;
  respFound ← reading (λ fs, existsSync fs respPath);
  dieUnless respFound ResponseNotFound;;
  let ws := pathOf wsDir in
  raw ← attempt (λ fs, readFile fs (pathOf respPath));
  parsed ← lift (match extractJson raw with
                  | Some v => Ok v
                  | None => die ExtractionFailed
                  end);
  schemaErrors ← lift (validateReviewResponse parsed);
  dieUnless (length schemaErrors =? 0)%nat (SchemaInvalid (length schemaErrors));;
  (* from here on [parsed] is read through its typed view, which exists for
     every validated response (lemma [validated_reads]) *)
  parsed ← lift (match readRoundVerdict parsed with
                  | Some rv => Ok rv
                  | None => Stop Uncaught
                  end);
  issues ← reading (λ fs, getIssues fs ws);
  reg ← lift (processRound round parsed issues);
  let issues := rg_issues reg in
  writing (λ fs, saveIssues fs ws issues);;
  let finalVerdict := ro_verdict (roundOutputOf round parsed reg) in
  writing (λ fs, writeIn fs ws (setRound round (roundOutputOf round parsed reg)));;
  meta ← attempt (λ fs, getWorkspaceMeta fs ws);
  writing (λ fs, writeIn fs ws (setMeta (withRound round finalVerdict meta)));;
  writing (λ fs, writeIn fs ws (appendLog (roundLogOf round parsed reg)));;
  mret (if bool_decide (finalVerdict = APPROVED) then 0 else 1)%Z.

End Commands.

(** ** COMMAND: finalize *)

(** [overrideReason.length < 10]; [true.length] is [undefined], and
    [undefined < 10] is false. *)
Definition shorterThan10 (v : option argval) : bool :=
  match v with
  | Some (AStr s) => (String.length s <? 10)%nat
  | Some (APos words) => (length words <? 10)%nat
  | _ => false
  end.

(** [process.env.USER || process.env.CI_ACTOR || 'unknown'] *)
Definition actorOf (env : Env) : string :=
  match envUSER env with
  | Some (String c r) => String c r
  | _ => match envCI_ACTOR env with
         | Some (String c r) => String c r
         | _ => "unknown"
         end
  end.

(** The line typed at the prompt, trimmed; [""] when reading failed. *)
Definition confirmation (line : option string) : string :=
  match line with Some l => trim l | None => EmptyString end.

Definition forceApprove (round : option Z) (iss : Issue) : Issue :=
  {| id := id iss; severity := severity iss; location := location iss;
     problem := problem iss; fix_ := fix_ iss;
     status := st_force_approved;
     round_found := round_found iss;
     round_resolved := round;
     last_evidence := last_evidence iss |}.

(** [for (const iss of issues) if (blockers.find(b => b.id === iss.id)) ...].
    The blockers are entries of [issues] themselves; the loop reads their
    ids only, which it does not change. *)
Definition markForceApproved (round : option Z) (blockers issues : list Issue) : list Issue :=
  map (λ iss, if existsb (λ b, String.eqb (id b) (id iss)) blockers
              then forceApprove round iss else iss) issues.

Definition isResolved (st : Status) : bool :=
  match st with
  | st_resolved | st_not_applicable | st_force_approved => true
  | _ => false
  end.

Definition countSeverity (s : Severity) (issues : list Issue) : nat :=
  length (filter (λ i, severity i = s) issues).

Definition withFinal (v : Verdict) (at_ : string) (m : Meta) : Meta :=
  {| created := created m; reviewerModel := reviewerModel m;
     plannerModel := plannerModel m; reviewerFamily := reviewerFamily m;
     plannerFamily := plannerFamily m; maxRounds := maxRounds m;
     currentRound := currentRound m; verdict := v;
     completedAt := Some at_; wsDir := wsDir m |}.

(** The override block: what guards it, and the log it builds. *)
Definition overrideCheck (env : Env) (overrideReason : option argval)
    (ciForce : bool) (blockers : list Issue) : res ForceApproveLog :=
  if negb (given overrideReason) then die (BlockersOpen (map id blockers))
  else if shorterThan10 overrideReason then die ReasonTooShort
  else
    _ ← (if isTTY env && negb ciForce then
           if String.eqb (confirmation (ttyLine env)) "CONFIRM" then Ok tt
           else Stop (Die ConfirmAborted 1)
         else if negb (isTTY env) || ciForce then
           if negb ciForce then die CiForceRequired else Ok tt
         else Ok tt);
    Ok {| fa_actor := actorOf env;
          fa_reason := default ATrue overrideReason;
          fa_timestamp := now env;
          fa_unresolved_issues := map id blockers;
          fa_tty_confirmed := isTTY env && negb ciForce;
          fa_ci_force := ciForce |}.

(** The record saved as [summary.json]; [issues] is the ledger after the
    override, [blockers] the blockers found before it. *)
Definition summaryOf (env : Env) (meta : Meta) (blockers : list Issue)
    (forceApproveLog : option ForceApproveLog) (issues : list Issue) : Summary :=
  let totalFound := length issues in
  let totalResolved := countStatus isResolved issues in
  let bySeverity :=
    {| critical := countSeverity CRITICAL issues;
       high := countSeverity HIGH issues;
       medium := countSeverity MEDIUM issues;
       low := countSeverity LOW issues |} in
  {| sm_rounds := currentRound meta;
     sm_plannerModel := plannerModel meta;
     sm_reviewerModel := reviewerModel meta;
     totalIssuesFound := totalFound;
     issuesBySeverity := bySeverity;
     issuesResolved := totalResolved;
     issuesUnresolved := totalFound - totalResolved;
     finalVerdict :=
       if (0 <? length blockers)%nat && bool_decide (is_Some forceApproveLog)
       then FORCE_APPROVED else APPROVED;
     sm_completedAt := now env;
     force_approve_log := forceApproveLog |}.

(** The final entry of [changelog.md]. *)
Definition finalLogOf (summary : Summary) : LogEntry :=
  LogFinal (finalVerdict summary) (sm_rounds summary) (totalIssuesFound summary)
    (issuesResolved summary) (issuesUnresolved summary)
    ((λ log, (fa_actor log, fa_reason log)) <$> force_approve_log summary).

Definition cmdFinalize (env : Env) (args : gmap string argval) : M Z :=
  let wsDir := args !! "workspace" in
  let overrideReason := args !! "override-reason" in
  let ciForce := given (args !! "ci-force") in
  dieUnless (given wsDir) (OptionRequired "workspace");;
  wsFound ← reading (λ fs, existsSync fs wsDir);
  dieUnless wsFound WorkspaceNotFound;;
  let ws := pathOf wsDir in
  meta ← attempt (λ fs, getWorkspaceMeta fs ws);
  issues ← reading (λ fs, getIssues fs ws);
  let blockers := getOpenBlockers issues in
  '(forceApproveLog, issues) ←
    (if (0 <? length blockers)%nat then
       log ← lift (overrideCheck env overrideReason ciForce blockers);
       let issues := markForceApproved (currentRound meta) blockers issues in
       writing (λ fs, saveIssues fs ws issues);;
       mret (Some log, issues)
     else mret (None, issues));
  planVersions ← reading (λ fs, default [] (d_plans <$> dirs fs !! ws));
  dieUnless (negb (length planVersions =? 0)%nat) NoPlanVersions;;
  writing (λ fs, writeIn fs ws (setPlanFinal (maxOf planVersions)));;
  let summary := summaryOf env meta blockers forceApproveLog issues in
  writing (λ fs, writeIn fs ws (setSummary summary));;
  writing (λ fs, writeIn fs ws (appendLog (finalLogOf summary)));;
  writing (λ fs, writeIn fs ws
     (setMeta (withFinal (finalVerdict summary) (sm_completedAt summary) meta)));;
  mret 0%Z.

(** ** COMMAND: status

    The listing of all issues evaluates
    [i.problem.slice(0, 80) + (i.problem.length > 80 ? '...' : '')], which
    throws for a problem that is neither a string nor an array, and for an
    array whose first 80 elements cannot be converted to a string. *)

Definition sliceable (v : json) : bool :=
  match v with
  | JStr _ => true
  | JArr items => forallb printable (firstn 80 items)
  | _ => false
  end.

Definition cmdStatus (args : gmap string argval) : M Z :=
  let wsDir := args !! "workspace" in
  dieUnless (given wsDir) (OptionRequired "workspace");;
  wsFound ← reading (λ fs, existsSync fs wsDir);
  dieUnless wsFound WorkspaceNotFound;;
  meta ← attempt (λ fs, getWorkspaceMeta fs (pathOf wsDir));
  issues ← reading (λ fs, getIssues fs (pathOf wsDir));
  lift (if forallb (λ i, sliceable (problem i)) issues then Ok tt else Stop Uncaught);;
  mret (if bool_decide (verdict meta = APPROVED) || bool_decide (verdict meta = FORCE_APPROVED)
        then 0 else 1)%Z.

(** ** Main *)

Section Main.

Variable JSON_parse : string → option json.

(** [args._[0]] *)
Definition commandWord (args : gmap string argval) : option string :=
  match args !! "_" with
  | Some (APos words) => head words
  | Some (AStr (String c _)) => Some (String c EmptyString)
  | _ => None
  end.

Definition main (env : Env) (argv : list string) (fs : FS) : FS * ending :=
  match parseArgs argv with
  | Stop e => (fs, e)
  | Ok args =>
      match commandWord args with
      | None | Some EmptyString => (fs, Exit 0)
      | Some cmd =>
          if given (args !! "help") then (fs, Exit 0)
          else if String.eqb cmd "init" then run (cmdInit env args) fs
          else if String.eqb cmd "parse-round" then run (cmdParseRound JSON_parse args) fs
          else if String.eqb cmd "finalize" then run (cmdFinalize env args) fs
          else if String.eqb cmd "status" then run (cmdStatus args) fs
          else (fs, Die UnknownCommand 2)
      end
  end.

End Main.

(** ** Sample runs *)

(** A stand-in for [JSON.parse] on finitely many texts. *)
Definition parseTable (table : list (string * json)) (text : string) : option json :=
  snd <$> find (λ entry, String.eqb (fst entry) text) table.

Definition newIssueJ (sev loc prob fx : string) : json :=
  JObj [("severity", JStr sev); ("location", JStr loc);
        ("problem", JStr prob); ("fix", JStr fx)].

Definition priorJ (i st ev : string) : json :=
  JObj [("id", JStr i); ("status", JStr st); ("evidence", JStr ev)].

Definition responseJ (v : string) (prior new : list json) (summary : string) : json :=
  JObj [("verdict", JStr v); ("prior_issues", JArr prior);
        ("new_issues", JArr new); ("summary", JStr summary)].

Definition sampleEnv : Env :=
  {| now := "2026-02-21T10:00:00.000Z"; random := "k3x9q2ab"; cwd := "/work";
     isTTY := false; ttyLine := None; envUSER := Some "dev"; envCI_ACTOR := None |}.

Definition sampleWs : string := "reviews/2026-02-21T10-00-00-k3x9q2ab".

Definition sampleTexts : list (string * json) :=
  [ ("round-1", responseJ "REVISE" []
       [newIssueJ "CRITICAL" "Auth" "No rate limiting on login" "Add rate limiter"]
       "1 critical issue");
    ("round-2", responseJ "APPROVED" [priorJ "ISS-001" "resolved" "Rate limiter added"] []
       "All issues resolved");
    ("round-3", responseJ "REVISE" [priorJ "ISS-001" "regressed" "Limiter removed again"] []
       "Regression");
    ("approve-anyway", responseJ "APPROVED" [priorJ "ISS-001" "still-open" "nope"] []
       "Approving anyway");
    ("twins", responseJ "REVISE" []
       [newIssueJ "HIGH" "Auth" "No rate limiting on login endpoint" "Add rate limiter";
        newIssueJ "HIGH" "Auth" "No rate limiting on login page" "Add a limiter"]
       "2 issues");
    ("bad", JObj [("verdict", JStr "MAYBE"); ("prior_issues", JStr "nope");
                  ("new_issues", JArr []); ("summary", JNum 123)]) ].

Definition sampleParse : string → option json := parseTable sampleTexts.

Definition sampleFiles : FS :=
  {| dirs := ∅;
     files := list_to_map
       (("plan.md", "# Test Plan") :: map (λ e, (fst e +:+ ".json", fst e)) sampleTexts) |}.

Definition initArgv : list string :=
  ["init"; "--plan"; "plan.md"; "--reviewer-model"; "openai/codex";
   "--planner-model"; "anthropic/sonnet"; "--out"; "reviews"].

Definition roundArgv (round response : string) : list string :=
  ["parse-round"; "--workspace"; sampleWs; "--round"; round; "--response"; response].

(** Running several invocations one after the other. *)
Fixpoint session (parse : string → option json) (env : Env)
    (argvs : list (list string)) (fs : FS) : FS * list ending :=
  match argvs with
  | [] => (fs, [])
  | argv :: rest =>
      let '(fs1, e) := main parse env argv fs in
      let '(fs2, es) := session parse env rest fs1 in
      (fs2, e :: es)
  end.

Definition ledgerOf (fs : FS) (ws : string) : list Issue := getIssues fs ws.

(** The options of an invocation, once parsed. *)
Definition argsOf (argv : list string) : gmap string argval :=
  match parseArgs argv with Ok args => args | Stop _ => ∅ end.

(** The sample workspace after [init] and a first round with one CRITICAL
    issue, and after a second round that resolves it. *)
Definition afterRound1 : FS :=
  (session sampleParse sampleEnv [initArgv; roundArgv "1" "round-1.json"] sampleFiles).1.

Definition afterRound2 : FS :=
  (session sampleParse sampleEnv [roundArgv "2" "round-2.json"] afterRound1).1.

Definition afterRound3 : FS :=
  (session sampleParse sampleEnv [roundArgv "3" "round-3.json"] afterRound2).1.

(** A round number of 311 digits, which [parseInt] reads as [Infinity]. *)
Definition hugeRound : string := "1" +:+ String.concat "" (repeat "0000000000" 31).

Definition overrideArgv : list string :=
  ["finalize"; "--workspace"; sampleWs; "--override-reason";
   "Deadline constraint, will fix post-launch"; "--ci-force"].

(** The sample workspace after [init] and a first round numbered
    [hugeRound]. *)
Definition afterHugeRound : FS :=
  (session sampleParse sampleEnv [initArgv; roundArgv hugeRound "round-1.json"]
     sampleFiles).1.

(** A first-round response whose one issue states its problem as a number,
    which the validator accepts. *)
Definition oddParse : string → option json :=
  parseTable
    [("odd", responseJ "REVISE" []
        [JObj [("severity", JStr "LOW"); ("location", JStr "Docs");
               ("problem", JNum 5); ("fix", JStr "Explain")]]
        "1 issue")].

Definition oddFiles : FS :=
  {| dirs := ∅;
     files := list_to_map [("plan.md", "# Test Plan"); ("odd.json", "odd")] |}.

(** The registration a processed round yields. *)
Definition registered (r : res Registration) : Registration :=
  match r with
  | Ok reg => reg
  | Stop _ => {| rg_issues := []; rg_assigned := []; rg_warnings := [] |}
  end.

(** A second-round response that repeats the open ISS-001 in other words. *)
Definition sampleDuplicate : RoundVerdict :=
  {| rv_verdict := REVISE;
     rv_prior_issues :=
       [{| pu_id := "ISS-001"; pu_status := st_still_open;
           pu_evidence := Some (JStr "not fixed") |}];
     rv_new_issues :=
       [{| ni_severity := HIGH; ni_location := JStr "Authentication";
           ni_problem := JStr "No rate limiting on the login";
           ni_fix := JStr "Implement rate limiting" |}];
     rv_summary := "1 new issue (likely dup)" |}.

(** *** The runs of the repository's test suite *)

Definition testTexts : list (string * json) :=
  [ ("response", responseJ "REVISE" []
       [newIssueJ "CRITICAL" "Auth" "No rate limiting on login" "Add rate limiter";
        newIssueJ "HIGH" "DB" "No input validation on queries" "Add parameterized queries";
        newIssueJ "LOW" "Logging" "Verbose debug logs in prod" "Set log level via env var"]
       "3 issues found, 1 critical");
    ("response2", responseJ "APPROVED"
       [priorJ "ISS-001" "resolved" "Rate limiter added";
        priorJ "ISS-002" "resolved" "Parameterized queries implemented";
        priorJ "ISS-003" "resolved" "Log level configurable"] []
       "All issues resolved");
    ("dedup-resp1", responseJ "REVISE" []
       [newIssueJ "HIGH" "Auth"
          "No rate limiting on login endpoint allows brute force attacks" "Add rate limiter"]
       "1 issue");
    ("dedup-resp2", responseJ "REVISE" [priorJ "ISS-001" "still-open" "not fixed"]
       [newIssueJ "HIGH" "Authentication"
          "No rate limiting on login endpoint allows brute force attacks to succeed"
          "Implement rate limiting"]
       "1 new issue (likely dup)");
    ("bad-resp", JObj [("verdict", JStr "MAYBE"); ("prior_issues", JStr "nope");
                       ("new_issues", JArr []); ("summary", JNum 123)]) ].

Definition testParse : string → option json := parseTable testTexts.

Definition testFiles : FS :=
  {| dirs := ∅;
     files := list_to_map
       (("plan.md", "# Test Plan") :: map (λ e, (fst e +:+ ".json", fst e)) testTexts) |}.

(** ** Notions used to state the properties *)

Fixpoint allDigits (s : string) : bool :=
  match s with
  | EmptyString => true
  | String c r => isDigit c && allDigits r
  end.

(** The ledger holds the identifiers [ISS-001], [ISS-002], ... in order. *)
Definition sequential (issues : list Issue) : Prop :=
  map id issues = map issueId (seq 1 (length issues)).

(** A typed response that is the reading of a validated one. *)
Definition validated (parsed : RoundVerdict) : Prop :=
  ∃ response, validateReviewResponse response = Ok []
              ∧ readRoundVerdict response = Some parsed.

(** How [parse-round] and [finalize] may change a ledger. *)
Inductive ledgerStep : list Issue → list Issue → Prop :=
| step_same issues : ledgerStep issues issues
| step_round round parsed issues reg :
    validated parsed →
    processRound round parsed issues = Ok reg →
    ledgerStep issues (rg_issues reg)
| step_force round issues :
    ledgerStep issues (markForceApproved round (getOpenBlockers issues) issues).

(** A blocker, in the words of the gating rule: severity CRITICAL or HIGH
    and status open, still-open or regressed. *)
Definition isBlocker (iss : Issue) : Prop :=
  (severity iss = CRITICAL ∨ severity iss = HIGH)
  ∧ (status iss = st_open ∨ status iss = st_still_open ∨ status iss = st_regressed).

(** The process ended by [die] or by an uncaught exception. *)
Definition isFailure (e : ending) : Prop :=
  match e with Exit _ => False | _ => True end.

(** The file systems that arise from running the script any number of times
    on a disk without workspaces, while plan and response files, and further
    plan versions, are written from outside. *)
Inductive reachable (parse : string → option json) : FS → Prop :=
| reach_start files0 :
    reachable parse {| dirs := ∅; files := files0 |}
| reach_main env argv fs :
    reachable parse fs → reachable parse (main parse env argv fs).1
| reach_file p text fs :
    reachable parse fs →
    reachable parse {| dirs := dirs fs; files := <[p := text]> (files fs) |}
| reach_plan ws v d fs :
    reachable parse fs → dirs fs !! ws = Some d →
    reachable parse {| dirs := <[ws := addPlan v d]> (dirs fs); files := files fs |}.

(** An invocation that stays where the model is exact about rounds and
    about the map of prior-issue updates: the round it reads, if any, is no
    infinity, and the response it reads, if any, has no prior-issue update
    with the id [__proto__]. *)
Definition plainInvocation (parse : string → option json)
    (argv : list string) (fs : FS) : Prop :=
  ∀ args, parseArgs argv = Ok args →
    (∀ negative, parseInt10 (argText (args !! "round")) ≠ Some (Infinity negative))
    ∧ (∀ raw response items pi,
         files fs !! pathOf (args !! "response") = Some raw →
         extractJson parse raw = Some response →
         fieldOf response "prior_issues" = Some (JArr items) →
         In pi items → fieldOf pi "id" ≠ Some (JStr "__proto__")).

(** The same, decided for a given invocation. *)
Definition plainCheck (parse : string → option json)
    (argv : list string) (fs : FS) : bool :=
  match parseArgs argv with
  | Stop _ => true
  | Ok args =>
      match parseInt10 (argText (args !! "round")) with
      | Some (Infinity _) => false
      | _ => true
      end
      && match files fs !! pathOf (args !! "response") ≫= extractJson parse with
         | Some response =>
             match fieldOf response "prior_issues" with
             | Some (JArr items) =>
                 forallb (λ pi, match fieldOf pi "id" with
                                | Some (JStr s) => negb (String.eqb s "__proto__")
                                | _ => true
                                end) items
             | _ => true
             end
         | None => true
         end
  end.

Fixpoint plainSession (parse : string → option json) (env : Env)
    (argvs : list (list string)) (fs : FS) : bool :=
  match argvs with
  | [] => true
  | argv :: rest =>
      plainCheck parse argv fs && plainSession parse env rest (main parse env argv fs).1
  end.

(** The file systems that arise as for [reachable], by plain invocations. *)
Inductive reachablePlainly (parse : string → option json) : FS → Prop :=
| plainly_start files0 :
    reachablePlainly parse {| dirs := ∅; files := files0 |}
| plainly_main env argv fs :
    reachablePlainly parse fs → plainInvocation parse argv fs →
    reachablePlainly parse (main parse env argv fs).1
| plainly_file p text fs :
    reachablePlainly parse fs →
    reachablePlainly parse {| dirs := dirs fs; files := <[p := text]> (files fs) |}
| plainly_plan ws v d fs :
    reachablePlainly parse fs → dirs fs !! ws = Some d →
    reachablePlainly parse {| dirs := <[ws := addPlan v d]> (dirs fs); files := files fs |}.

(** The two array checks of [validateReviewResponse]. *)
Definition priorErrorsOf (parsed : json) : res (list schemaError) :=
  match fieldOf parsed "prior_issues" with
  | Some (JArr items) => forEachFrom checkPriorIssue 0 items
  | _ => Ok [PriorIssuesNotArray]
  end.

Definition newErrorsOf (parsed : json) : res (list schemaError) :=
  match fieldOf parsed "new_issues" with
  | Some (JArr items) => forEachFrom checkNewIssue 0 items
  | _ => Ok [NewIssuesNotArray]
  end.

(** The statuses a prior-issue update may carry. *)
Definition acceptedStatus (v : option json) : Prop :=
  ∃ st, v = Some (JStr st)
        ∧ In st ["resolved"; "still-open"; "regressed"; "not-applicable"].

Definition acceptedId (v : option json) : Prop :=
  ∃ s, v = Some (JStr s) ∧ s ≠ "".

(** A command keeps a relation between the file system before and after,
    however it ends. *)
Definition keeps (R : FS → FS → Prop) {A} (m : M A) : Prop :=
  ∀ fs fs' r, m fs = (fs', r) → R fs fs'.

(** Every ledger is as it was, or empty. *)
Definition ledgersKeptOrEmptied (fs fs' : FS) : Prop :=
  ∀ p, getIssues fs' p = getIssues fs p ∨ getIssues fs' p = [].

(** The resolution stamp of an issue agrees with its status as far as the
    script maintains it. *)
Definition stamped (iss : Issue) : Prop :=
  (isResolved (status iss) = true → is_Some (round_resolved iss))
  ∧ (status iss = st_open → round_resolved iss = None).

(** A directory whose ledger is stamped and whose metadata, if any, holds a
    number as current round. *)
Definition stampedDir (d : Dir) : Prop :=
  Forall stamped (default [] (d_issues d))
  ∧ ∀ meta, d_meta d = Some meta → is_Some (currentRound meta).

Definition stampedFS (fs : FS) : Prop :=
  ∀ ws d, dirs fs !! ws = Some d → stampedDir d.

Definition stampedKept (fs fs' : FS) : Prop := stampedFS fs → stampedFS fs'.

(** The statuses a validated update carries. *)
Definition updateStatus (st : Status) : Prop :=
  st = st_resolved ∨ st = st_still_open ∨ st = st_regressed ∨ st = st_not_applicable.

(** ** Notions used for the further properties *)

(** The output directory, the workspace path and the files of a fresh
    workspace, as [cmdInit] computes them. *)
Definition initOutBase (env : Env) (args : gmap string argval) : option argval :=
  if given (args !! "out") then args !! "out"
  else Some (AStr (pathJoin (cwd env) "tasks/reviews")).

Definition initWorkspace (env : Env) (args : gmap string argval) : string :=
  pathJoin (pathOf (initOutBase env args))
    (String.substring 0 19 (dashed (now env)) +:+ "-" +:+ random env).

Definition initMeta (env : Env) (args : gmap string argval) (rFamily pFamily : string)
  : Meta :=
  {| created := now env;
     reviewerModel := pathOf (args !! "reviewer-model");
     plannerModel := pathOf (args !! "planner-model");
     reviewerFamily := rFamily;
     plannerFamily := pFamily;
     maxRounds := 5;
     currentRound := Some 0%Z;
     verdict := PENDING;
     completedAt := None;
     wsDir := initWorkspace env args |}.

Definition initDir (env : Env) (args : gmap string argval) (rFamily pFamily : string)
    (d : Dir) : Dir :=
  startLog (LogStarted (now env) (pathOf (args !! "reviewer-model"))
              (pathOf (args !! "planner-model")))
    (setIssues [] (setMeta (initMeta env args rFamily pFamily) (addPlan 1 d))).

(** Reviewer and planner may be of one family only when it is [unknown]. *)
Definition crossProvider (rFamily pFamily : string) : Prop :=
  rFamily ≠ pFamily ∨ rFamily = "unknown".

(** What every workspace that has a [meta.json] satisfies. *)
Definition wellFormedDir (d : Dir) : Prop :=
  ∀ meta, d_meta d = Some meta →
    crossProvider (reviewerFamily meta) (plannerFamily meta) ∧ d_plans d ≠ [].

Definition wellFormed (fs : FS) : Prop :=
  ∀ ws d, dirs fs !! ws = Some d → wellFormedDir d.

(** What [validateReviewResponse] asks of an element of [prior_issues], of an
    element of [new_issues], and of a response. *)
Definition acceptedPrior (pi : json) : Prop :=
  pi ≠ JNull ∧ acceptedId (fieldOf pi "id") ∧ acceptedStatus (fieldOf pi "status").

Definition acceptedNew (ni : json) : Prop :=
  ni ≠ JNull
  ∧ (∃ s, fieldOf ni "severity" = Some (JStr s) ∧ In s ["CRITICAL"; "HIGH"; "MEDIUM"; "LOW"])
  ∧ truthy (fieldOf ni "location") = true
  ∧ truthy (fieldOf ni "problem") = true
  ∧ truthy (fieldOf ni "fix") = true.

Definition acceptedResponse (parsed : json) : Prop :=
  parsed ≠ JNull
  ∧ (fieldOf parsed "verdict" = Some (JStr "APPROVED")
     ∨ fieldOf parsed "verdict" = Some (JStr "REVISE"))
  ∧ (∃ items, fieldOf parsed "prior_issues" = Some (JArr items) ∧ Forall acceptedPrior items)
  ∧ (∃ items, fieldOf parsed "new_issues" = Some (JArr items) ∧ Forall acceptedNew items)
  ∧ (∃ s, fieldOf parsed "summary" = Some (JStr s)).

(** The response holds [null] where the validator reads a property. *)
Definition holdsNull (parsed : json) : Prop :=
  parsed = JNull
  ∨ (∃ items, fieldOf parsed "prior_issues" = Some (JArr items) ∧ In JNull items)
  ∨ (∃ items, fieldOf parsed "new_issues" = Some (JArr items) ∧ In JNull items).

(** The response holds, as verdict, as status of an update or as severity
    of a new issue, a value that cannot be converted to a string for the
    error message. *)
Definition holdsUnshowable (parsed : json) : Prop :=
  shown (fieldOf parsed "verdict") = false
  ∨ (∃ items pi, fieldOf parsed "prior_issues" = Some (JArr items) ∧ In pi items
                 ∧ shown (fieldOf pi "status") = false)
  ∨ (∃ items ni, fieldOf parsed "new_issues" = Some (JArr items) ∧ In ni items
                 ∧ shown (fieldOf ni "severity") = false).

(** The elements on which a check of the validator throws. *)
Definition throwsOn (key : string) (x : json) : bool :=
  match x with
  | JNull => true
  | _ => negb (shown (fieldOf x key))
  end.

(** Every character of [s] passes the test [p]. *)
Fixpoint allChars (p : ascii → bool) (s : string) : bool :=
  match s with
  | EmptyString => true
  | String c r => p c && allChars p r
  end.

(** [[a-z0-9_]] *)
Definition isTokenChar (c : ascii) : bool :=
  between 97 122 c || isDigit c || (code c =? 95)%N.

(** No character of [s] has the code [n]. *)
Definition lacks (n : N) (s : string) : bool :=
  allChars (λ c, negb (code c =? n)%N) s.

(** A JSON value that is a string. *)
Definition textual (v : json) : Prop := ∃ s, v = JStr s.

(** Every way a computation can stop satisfies [P]. *)
Definition ends (P : ending → Prop) {A} (m : M A) : Prop :=
  ∀ fs fs' e, m fs = (fs', Stop e) → P e.

(** The ways the commands stop early: an uncaught exception, an error
    reported by [die] with its default code, or the refused confirmation. *)
Definition reported (e : ending) : Prop :=
  e = Uncaught ∨ (∃ why, e = Die why 2) ∨ e = Die ConfirmAborted 1.

(** The exit code of the process, when it ends by [process.exit]. *)
Definition exitCode (e : ending) : option Z :=
  match e with
  | Exit c => Some c
  | Die _ c => Some c
  | Uncaught => None
  end.

(** * Properties *)

(** ** The similarity estimator *)

Section Similarity.

Implicit Types A B : gset string.

Lemma countShared_inter A B : countShared A B = size (A ∩ B).
Proof.
  unfold countShared. f_equal. apply set_eq. intros w.
  rewrite elem_of_filter, elem_of_intersection. tauto.
Qed.

Lemma countShared_comm A B : countShared A B = countShared B A.
Proof. rewrite !countShared_inter. f_equal. apply (comm_L (∩)). Qed.

Lemma countShared_le_l A B : (countShared A B <= size A)%nat.
Proof. rewrite countShared_inter. apply subseteq_size, intersection_subseteq_l. Qed.

Lemma countShared_le_r A B : (countShared A B <= size B)%nat.
Proof. rewrite countShared_comm. apply countShared_le_l. Qed.

Lemma countShared_same A : countShared A A = size A.
Proof. rewrite countShared_inter. f_equal. apply (idemp_L (∩)). Qed.

Lemma pos_of_nat_Z (n : nat) : n ≠ 0 → Z.pos (Pos.of_nat n) = Z.of_nat n.
Proof. intros Hn. rewrite <- positive_nat_Z, Nat2Pos.id; auto. Qed.

Lemma jaccardOfSets_comm A B : jaccardOfSets A B = jaccardOfSets B A.
Proof.
  unfold jaccardOfSets.
  rewrite (andb_comm (size A =? 0)%nat), (countShared_comm A B), (Nat.add_comm (size A)).
  reflexivity.
Qed.

Lemma jaccardOfSets_bounds A B : (0 <= jaccardOfSets A B <= 1)%Q.
Proof.
  unfold jaccardOfSets.
  destruct (_ && _)%bool; [split; discriminate |].
  pose proof (countShared_le_l A B). pose proof (countShared_le_r A B).
  destruct (Nat.eqb_spec (size A + size B - countShared A B) 0) as [|Hu];
    [split; discriminate |].
  unfold Qle; cbn [Qnum Qden]. rewrite pos_of_nat_Z by assumption. lia.
Qed.

Lemma jaccardOfSets_same A : (jaccardOfSets A A == 1)%Q.
Proof.
  unfold jaccardOfSets. rewrite countShared_same.
  destruct (Nat.eqb_spec (size A) 0) as [|Hn]; [reflexivity |]. cbn [andb].
  replace (size A + size A - size A) with (size A) by lia.
  destruct (Nat.eqb_spec (size A) 0); [contradiction |].
  unfold Qeq; cbn [Qnum Qden]. rewrite pos_of_nat_Z by assumption. lia.
Qed.

Lemma jaccardOfSets_empty : jaccardOfSets ∅ ∅ = 1%Q.
Proof. reflexivity. Qed.

Lemma jaccardOfSets_empty_l B : B ≠ ∅ → (jaccardOfSets ∅ B == 0)%Q.
Proof.
  intros HB. unfold jaccardOfSets.
  assert (size B ≠ 0) as Hn by (rewrite size_empty_iff; set_solver).
  pose proof (countShared_le_l ∅ B) as Hle. rewrite size_empty in *.
  destruct (Nat.eqb_spec (size B) 0); [contradiction |]. cbn [andb Nat.eqb].
  replace (countShared ∅ B) with 0%nat by lia.
  destruct (_ =? _)%nat; reflexivity.
Qed.

End Similarity.

(** C4. The similarity estimator is symmetric and its result lies in [0,1];
    it is 1 on identical strings (empty or not), 1 when both strings
    tokenize to the empty word set, and 0 when exactly one of them does. *)
Theorem jaccardSimilarity_symmetric_bounded (a b : string) :
  jaccardSimilarity a b = jaccardSimilarity b a
  ∧ (0 <= jaccardSimilarity a b <= 1)%Q
  ∧ (jaccardSimilarity a a == 1)%Q
  ∧ (tokenize a = ∅ → tokenize b = ∅ → jaccardSimilarity a b = 1%Q)
  ∧ (tokenize a = ∅ → tokenize b ≠ ∅ →
       (jaccardSimilarity a b == 0)%Q ∧ (jaccardSimilarity b a == 0)%Q).
Proof.
  unfold jaccardSimilarity. repeat split.
  - apply jaccardOfSets_comm.
  - apply jaccardOfSets_bounds.
  - apply jaccardOfSets_bounds.
  - apply jaccardOfSets_same.
  - intros -> ->. apply jaccardOfSets_empty.
  - rewrite H. now apply jaccardOfSets_empty_l.
  - rewrite jaccardOfSets_comm, H. now apply jaccardOfSets_empty_l.
Qed.

Lemma jaccardSimilarity_symmetric_bounded_witness :
  jaccardSimilarity "?!" "..." = 1%Q
  ∧ (jaccardSimilarity "?!" "Login page" == 0)%Q
  ∧ (jaccardSimilarity "Login page" "?!" == 0)%Q.
Proof.
  destruct (jaccardSimilarity_symmetric_bounded "?!" "...") as (_ & _ & _ & Hboth & _).
  destruct (jaccardSimilarity_symmetric_bounded "?!" "Login page") as (_ & _ & _ & _ & Hone).
  split; [apply Hboth; reflexivity |].
  apply Hone; [reflexivity |].
  intros Hempty. apply (f_equal size) in Hempty. vm_compute in Hempty. discriminate.
Defined.

(** ** Identifier rendering and parsing *)

Section Identifiers.

Lemma string_of_uint_allDigits d : allDigits (NilEmpty.string_of_uint d) = true.
Proof. induction d; simpl; auto. Qed.

Lemma parseDigitsFrom_uint d acc :
  parseDigitsFrom acc (NilEmpty.string_of_uint d) = Nat.of_uint_acc d acc.
Proof.
  revert acc. induction d; intros acc; simpl; try reflexivity;
    rewrite IHd; f_equal; rewrite Nat.tail_mul_spec;
    unfold digitValue; simpl; lia.
Qed.

Lemma parseDigits_decimal n : parseDigits (decimal n) = n.
Proof.
  unfold parseDigits, decimal. rewrite parseDigitsFrom_uint.
  apply DecimalNat.Unsigned.of_to.
Qed.

Lemma parseDigits_padStart3 s : parseDigits (padStart3 s) = parseDigits s.
Proof.
  unfold padStart3.
  destruct (String.length s) as [|[|[|?]]]; reflexivity.
Qed.

Lemma allDigits_padStart3 s : allDigits s = true → allDigits (padStart3 s) = true.
Proof.
  unfold padStart3. intros H.
  destruct (String.length s) as [|[|[|?]]]; simpl; assumption.
Qed.

Lemma padStart3_nonEmpty s : nonEmpty (padStart3 s) = true.
Proof.
  unfold padStart3.
  destruct (String.length s) as [|[|[|?]]] eqn:E; try reflexivity.
  destruct s; [discriminate | reflexivity].
Qed.

Lemma takeDigits_all s : allDigits s = true → takeDigits s = s.
Proof.
  induction s as [|c r IH]; simpl; [reflexivity |].
  intros [Hc Hr]%andb_prop. rewrite Hc, IH; auto.
Qed.

Lemma substring_whole s : String.substring 0 (String.length s) s = s.
Proof. induction s; simpl; congruence. Qed.

Lemma matchIssueDigits_render t :
  allDigits t = true → nonEmpty t = true →
  matchIssueDigits ("ISS-" +:+ t) = Some t.
Proof.
  intros Hd Hne.
  change ("ISS-" +:+ t) with (String "I" (String "S" (String "S" (String "-" t)))).
  cbn. replace (String.prefix "" t) with true by (now destruct t).
  rewrite Nat.sub_0_r, substring_whole, takeDigits_all by assumption.
  destruct t; [discriminate | reflexivity].
Qed.

Lemma issueNumber_issueId n : issueNumber (issueId n) = n.
Proof.
  unfold issueNumber, issueId.
  rewrite matchIssueDigits_render.
  - rewrite parseDigits_padStart3. apply parseDigits_decimal.
  - apply allDigits_padStart3, string_of_uint_allDigits.
  - apply padStart3_nonEmpty.
Qed.

Lemma issueId_inj n m : issueId n = issueId m → n = m.
Proof.
  intros H. rewrite <- (issueNumber_issueId n), <- (issueNumber_issueId m).
  now rewrite H.
Qed.

Lemma maxOf_snoc l x : maxOf (l ++ [x]) = Nat.max (maxOf l) x.
Proof.
  destruct l as [|n rest]; [reflexivity |].
  simpl. now rewrite fold_left_app.
Qed.

Lemma maxOf_app l1 l2 : maxOf (l1 ++ l2) = Nat.max (maxOf l1) (maxOf l2).
Proof.
  induction l2 as [|x l2 IH] using rev_ind.
  - rewrite app_nil_r. simpl. lia.
  - rewrite app_assoc, !maxOf_snoc, IH. lia.
Qed.

Lemma maxOf_ge l x : In x l → x <= maxOf l.
Proof.
  induction l as [|y l IH] using rev_ind; [contradiction |].
  rewrite maxOf_snoc, in_app_iff. simpl. intros [H | [-> | []]]; [apply IH in H |]; lia.
Qed.

Lemma maxOf_seq n : maxOf (seq 1 n) = n.
Proof.
  induction n as [|n IH]; [reflexivity |].
  rewrite seq_S, maxOf_snoc, IH. simpl. lia.
Qed.

Lemma sequential_numbers issues :
  sequential issues →
  map (λ iss, issueNumber (id iss)) issues = seq 1 (length issues).
Proof.
  unfold sequential. intros H.
  rewrite <- (map_map id issueNumber), H, map_map.
  rewrite (map_ext _ (λ n, n)) by apply issueNumber_issueId.
  apply map_id.
Qed.

Lemma sequential_next issues :
  sequential issues → nextIssueId issues = issueId (S (length issues)).
Proof.
  intros H. unfold nextIssueId.
  rewrite (sequential_numbers _ H), maxOf_seq. f_equal. lia.
Qed.

Lemma sequential_NoDup issues : sequential issues → NoDup (map id issues).
Proof.
  unfold sequential. intros ->.
  apply NoDup_fmap_2; [intros ??; apply issueId_inj | apply NoDup_seq].
Qed.

Lemma sequential_snoc issues iss :
  sequential issues → id iss = issueId (S (length issues)) →
  sequential (issues ++ [iss]).
Proof.
  unfold sequential. intros H Hid.
  rewrite map_app, length_app, H. simpl.
  rewrite Nat.add_1_r, seq_S, map_app, Hid. reflexivity.
Qed.

End Identifiers.

(** ** Schema validation *)

Section Validation.

Lemma unless_nil ok e : unless ok e = [] ↔ ok = true.
Proof. destruct ok; simpl; split; congruence. Qed.

Lemma unless_elem ok e e' : In e' (unless ok e) ↔ ok = false ∧ e' = e.
Proof. destruct ok; simpl; intuition congruence. Qed.

Lemma has_spec set v :
  has set v = true ↔ ∃ s, v = Some (JStr s) ∧ In s set.
Proof.
  unfold has. split.
  - destruct v as [[]|]; try discriminate.
    intros (x & Hx & ->%String.eqb_eq)%existsb_exists. eauto.
  - intros (s & -> & Hs). apply existsb_exists. exists s. split; [assumption |].
    apply String.eqb_refl.
Qed.

Lemma null_or_not (v : json) : v = JNull ∨ v ≠ JNull.
Proof. destruct v; auto; right; discriminate. Qed.

Lemma prop_fieldOf v key : v ≠ JNull → prop v key = Ok (fieldOf v key).
Proof. destruct v; simpl; congruence. Qed.

Lemma idOk_spec v :
  truthy v && isString v = true ↔ ∃ s, v = Some (JStr s) ∧ s ≠ "".
Proof.
  split.
  - destruct v as [[| | |s| |]|]; simpl; rewrite ?andb_false_r; try discriminate.
    rewrite andb_true_r. destruct s; [discriminate |]. eauto.
  - intros (s & -> & Hs). destruct s; [contradiction | reflexivity].
Qed.

Lemma complain_Ok ok v e es : complain ok v e = Ok es → es = unless ok e.
Proof.
  unfold complain. destruct ok; [now intros [= <-] |].
  destruct (shown v); [now intros [= <-] | discriminate].
Qed.

Lemma complain_accepts ok v e : ok = true → complain ok v e = Ok [].
Proof. now intros ->. Qed.

Lemma checkPriorIssue_unfold i pi :
  pi ≠ JNull →
  checkPriorIssue i pi =
    (statusErrors ← complain (has VALID_STATUSES (fieldOf pi "status"))
                     (fieldOf pi "status") (PriorStatusInvalid i);
     Ok (unless (truthy (fieldOf pi "id") && isString (fieldOf pi "id")) (PriorIdMissing i)
         ++ statusErrors)).
Proof. intros H. unfold checkPriorIssue. now rewrite !prop_fieldOf by assumption. Qed.

Lemma checkNewIssue_unfold i ni :
  ni ≠ JNull →
  checkNewIssue i ni =
    (sevErrors ← complain (has VALID_SEVERITIES (fieldOf ni "severity"))
                  (fieldOf ni "severity") (NewSeverityInvalid i);
     Ok (sevErrors
         ++ unless (truthy (fieldOf ni "location")) (NewLocationMissing i)
         ++ unless (truthy (fieldOf ni "problem")) (NewProblemMissing i)
         ++ unless (truthy (fieldOf ni "fix")) (NewFixMissing i))).
Proof. intros H. unfold checkNewIssue. now rewrite !prop_fieldOf by assumption. Qed.

(** What a check returns, when it returns. *)
Lemma checkPriorIssue_Ok i pi es :
  checkPriorIssue i pi = Ok es →
  pi ≠ JNull
  ∧ es = unless (truthy (fieldOf pi "id") && isString (fieldOf pi "id")) (PriorIdMissing i)
         ++ unless (has VALID_STATUSES (fieldOf pi "status")) (PriorStatusInvalid i).
Proof.
  destruct (null_or_not pi) as [-> | Hnn]; [discriminate |].
  rewrite checkPriorIssue_unfold by assumption.
  destruct (complain _ _ _) as [se|] eqn:Hse; [| discriminate].
  apply complain_Ok in Hse as ->. now intros [= <-].
Qed.

Lemma checkNewIssue_Ok i ni es :
  checkNewIssue i ni = Ok es →
  ni ≠ JNull
  ∧ es = unless (has VALID_SEVERITIES (fieldOf ni "severity")) (NewSeverityInvalid i)
         ++ unless (truthy (fieldOf ni "location")) (NewLocationMissing i)
         ++ unless (truthy (fieldOf ni "problem")) (NewProblemMissing i)
         ++ unless (truthy (fieldOf ni "fix")) (NewFixMissing i).
Proof.
  destruct (null_or_not ni) as [-> | Hnn]; [discriminate |].
  rewrite checkNewIssue_unfold by assumption.
  destruct (complain _ _ _) as [se|] eqn:Hse; [| discriminate].
  apply complain_Ok in Hse as ->. now intros [= <-].
Qed.

Lemma checkPriorIssue_null i : checkPriorIssue i JNull = Stop Uncaught.
Proof. reflexivity. Qed.

Lemma statusOfString_valid s : In s VALID_STATUSES → is_Some (statusOfString s).
Proof. simpl. intros [<- | [<- | [<- | [<- | []]]]]; eexists; reflexivity. Qed.

Lemma severityOfString_valid s : In s VALID_SEVERITIES → is_Some (severityOfString s).
Proof. simpl. intros [<- | [<- | [<- | [<- | []]]]]; eexists; reflexivity. Qed.

Lemma verdictOfString_valid s :
  In s VALID_VERDICTS → verdictOfString s = Some APPROVED ∨ verdictOfString s = Some REVISE.
Proof. simpl. intros [<- | [<- | []]]; auto. Qed.

Lemma truthy_Some v : truthy v = true → is_Some v.
Proof. destruct v; [eauto | discriminate]. Qed.

Lemma checkPriorIssue_reads i pi :
  checkPriorIssue i pi = Ok [] → is_Some (readPriorUpdate pi).
Proof.
  intros [Hnn Hnil]%checkPriorIssue_Ok. symmetry in Hnil.
  apply app_eq_nil in Hnil as [Hid Hst].
  apply unless_nil, idOk_spec in Hid as (s & Hs & _).
  apply unless_nil, has_spec in Hst as (st & Hst & Hin).
  destruct (statusOfString_valid _ Hin) as [x Hx].
  unfold readPriorUpdate. rewrite Hs, Hst. simpl. rewrite Hx. simpl. eauto.
Qed.

Lemma checkNewIssue_reads i ni :
  checkNewIssue i ni = Ok [] → is_Some (readNewIssue ni).
Proof.
  intros [Hnn Hnil]%checkNewIssue_Ok. symmetry in Hnil.
  apply app_eq_nil in Hnil as [Hsev [Hloc [Hprob Hfix]%app_eq_nil]%app_eq_nil].
  apply unless_nil, has_spec in Hsev as (s & Hs & Hin).
  apply unless_nil, truthy_Some in Hloc as [l Hl].
  apply unless_nil, truthy_Some in Hprob as [p Hp].
  apply unless_nil, truthy_Some in Hfix as [f Hf].
  destruct (severityOfString_valid _ Hin) as [x Hx].
  unfold readNewIssue. rewrite Hs, Hl, Hp, Hf. simpl. rewrite Hx. simpl. eauto.
Qed.

Lemma forEachFrom_reads {A} check (read : json → option A) :
  (∀ i x, check i x = Ok [] → is_Some (read x)) →
  ∀ items i, forEachFrom check i items = Ok [] → is_Some (mapM read items).
Proof.
  intros Hcheck. induction items as [|x items IH]; intros i; simpl.
  - eauto.
  - destruct (check i x) as [here|] eqn:Hx; simpl; [|discriminate].
    destruct (forEachFrom check (S i) items) as [later|] eqn:Hl; simpl; [|discriminate].
    intros [= [-> ->]%app_eq_nil].
    destruct (Hcheck _ _ Hx) as [y ->]. destruct (IH _ Hl) as [ys ->]. simpl. eauto.
Qed.

Lemma validateReviewResponse_inv parsed errors :
  validateReviewResponse parsed = Ok errors →
  parsed ≠ JNull ∧ ∃ pe ne,
    priorErrorsOf parsed = Ok pe ∧ newErrorsOf parsed = Ok ne ∧
    errors = unless (has VALID_VERDICTS (fieldOf parsed "verdict")) VerdictInvalid
             ++ pe ++ ne
             ++ unless (isString (fieldOf parsed "summary")) SummaryNotString.
Proof.
  destruct (null_or_not parsed) as [-> | Hnn]; [discriminate |].
  unfold validateReviewResponse. rewrite !prop_fieldOf by assumption.
  cbn [mbind res_bind].
  destruct (complain _ _ _) as [ve|] eqn:Hve; [| discriminate].
  apply complain_Ok in Hve as ->.
  fold (priorErrorsOf parsed). fold (newErrorsOf parsed).
  destruct (priorErrorsOf parsed) as [pe|]; simpl; [|discriminate].
  destruct (newErrorsOf parsed) as [ne|]; simpl; [|discriminate].
  intros [= <-]. eauto 6.
Qed.

Lemma priorErrorsOf_nil parsed :
  priorErrorsOf parsed = Ok [] →
  ∃ items, fieldOf parsed "prior_issues" = Some (JArr items)
           ∧ forEachFrom checkPriorIssue 0 items = Ok [].
Proof.
  unfold priorErrorsOf.
  destruct (fieldOf parsed "prior_issues") as [[]|]; try discriminate. eauto.
Qed.

Lemma newErrorsOf_nil parsed :
  newErrorsOf parsed = Ok [] →
  ∃ items, fieldOf parsed "new_issues" = Some (JArr items)
           ∧ forEachFrom checkNewIssue 0 items = Ok [].
Proof.
  unfold newErrorsOf.
  destruct (fieldOf parsed "new_issues") as [[]|]; try discriminate. eauto.
Qed.

(** Every response that passes validation has the typed reading used by the
    rest of [cmdParseRound]. *)
Lemma validated_reads parsed :
  validateReviewResponse parsed = Ok [] → is_Some (readRoundVerdict parsed).
Proof.
  intros (Hnn & pe & ne & Hpe & Hne & Herr)%validateReviewResponse_inv.
  symmetry in Herr.
  apply app_eq_nil in Herr as [Hv [-> [-> Hs]%app_eq_nil]%app_eq_nil].
  apply priorErrorsOf_nil in Hpe as (prior & Hprior & Hpe).
  apply newErrorsOf_nil in Hne as (new & Hnew & Hne).
  apply unless_nil, has_spec in Hv as (v & Hv & Hin).
  apply unless_nil in Hs.
  destruct (fieldOf parsed "summary") as [[| | |summary| |]|] eqn:Hsum; try discriminate.
  destruct (forEachFrom_reads _ _ checkPriorIssue_reads _ _ Hpe) as [ps Hps].
  destruct (forEachFrom_reads _ _ checkNewIssue_reads _ _ Hne) as [ns Hns].
  unfold readRoundVerdict. rewrite Hv, Hprior, Hnew, Hsum. simpl.
  rewrite Hps, Hns. simpl.
  destruct (verdictOfString_valid _ Hin) as [-> | ->]; simpl; eauto.
Qed.

(** A validated response carries one of the two verdicts. *)
Lemma validated_verdict parsed rv :
  validateReviewResponse parsed = Ok [] → readRoundVerdict parsed = Some rv →
  rv_verdict rv = APPROVED ∨ rv_verdict rv = REVISE.
Proof.
  intros (Hnn & pe & ne & Hpe & Hne & Herr)%validateReviewResponse_inv.
  symmetry in Herr. apply app_eq_nil in Herr as [Hv _].
  apply unless_nil, has_spec in Hv as (v & Hv & Hin).
  unfold readRoundVerdict. rewrite Hv. simpl.
  destruct (verdictOfString_valid _ Hin) as [-> | ->]; simpl;
    destruct (_ ≫= mapM readPriorUpdate); simpl; try discriminate;
    destruct (_ ≫= mapM readNewIssue); simpl; try discriminate;
    destruct (asString _); simpl; try discriminate; intros [= <-]; auto.
Qed.

End Validation.

Section ValidatorElements.

Lemma forEachFrom_elem check k items errors e :
  forEachFrom check k items = Ok errors →
  In e errors ↔ ∃ j x es, items !! j = Some x ∧ check (k + j) x = Ok es ∧ In e es.
Proof.
  revert k errors. induction items as [|y items IH]; intros k errors; simpl.
  - intros [= <-]. split; [contradiction |]. intros (j & x & es & [=] & _).
  - destruct (check k y) as [here|] eqn:Hy; simpl; [|discriminate].
    destruct (forEachFrom check (S k) items) as [later|] eqn:Hl; simpl; [|discriminate].
    intros [= <-]. rewrite in_app_iff, (IH _ _ Hl). split.
    + intros [Hin | (j & x & es & Hj & Hx & Hin)].
      * exists 0, y, here. rewrite Nat.add_0_r. auto.
      * exists (S j), x, es. rewrite Nat.add_succ_r. auto.
    + intros ([|j] & x & es & Hj & Hx & Hin).
      * rewrite Nat.add_0_r in Hx. simpl in Hj. left. congruence.
      * right. exists j, x, es. rewrite Nat.add_succ_r in Hx. auto.
Qed.

Lemma forEachFrom_each check k items errors j x :
  forEachFrom check k items = Ok errors → items !! j = Some x →
  ∃ es, check (k + j) x = Ok es.
Proof.
  revert k errors j. induction items as [|y items IH]; intros k errors j; simpl.
  - intros _ [=].
  - destruct (check k y) as [here|] eqn:Hy; simpl; [|discriminate].
    destruct (forEachFrom check (S k) items) as [later|] eqn:Hl; simpl; [|discriminate].
    intros _. destruct j as [|j]; simpl.
    + intros [= <-]. rewrite Nat.add_0_r. eauto.
    + intros Hj. rewrite Nat.add_succ_r. eapply (IH (S k)); eassumption.
Qed.

Lemma checkNewIssue_errors j x es e :
  checkNewIssue j x = Ok es → In e es →
  e = NewSeverityInvalid j ∨ e = NewLocationMissing j
  ∨ e = NewProblemMissing j ∨ e = NewFixMissing j.
Proof.
  intros [_ ->]%checkNewIssue_Ok.
  rewrite !in_app_iff, !unless_elem. tauto.
Qed.

Lemma newErrorsOf_kind parsed ne e :
  newErrorsOf parsed = Ok ne → In e ne →
  e = NewIssuesNotArray ∨ ∃ j, e = NewSeverityInvalid j ∨ e = NewLocationMissing j
                              ∨ e = NewProblemMissing j ∨ e = NewFixMissing j.
Proof.
  unfold newErrorsOf. intros Hne Hin.
  assert (ne = [NewIssuesNotArray] ∨
          ∃ items, forEachFrom checkNewIssue 0 items = Ok ne) as [-> | [items Hitems]].
  { destruct (fieldOf parsed "new_issues") as [[]|]; try (left; congruence). eauto. }
  - left. destruct Hin as [<- | []]. reflexivity.
  - right. destruct (proj1 (forEachFrom_elem _ _ _ _ e Hitems) Hin) as (j & x & es & _ & Hx & Hes).
    exists (0 + j)%nat. eapply checkNewIssue_errors; eassumption.
Qed.

Lemma priorErrors_elem items pe i pi e :
  forEachFrom checkPriorIssue 0 items = Ok pe → items !! i = Some pi →
  e = PriorIdMissing i ∨ e = PriorStatusInvalid i →
  In e pe ↔ In e (unless (truthy (fieldOf pi "id") && isString (fieldOf pi "id"))
                     (PriorIdMissing i)
                  ++ unless (has VALID_STATUSES (fieldOf pi "status"))
                       (PriorStatusInvalid i)).
Proof.
  intros Hpe Hi He. rewrite (forEachFrom_elem _ _ _ _ e Hpe). simpl. split.
  - intros (j & x & es & Hj & Hx & Hin).
    apply checkPriorIssue_Ok in Hx as [Hnn ->].
    assert (j = i) as ->.
    { rewrite in_app_iff, !unless_elem in Hin.
      destruct He as [-> | ->], Hin as [[_ [=]] | [_ [=]]]; congruence. }
    congruence.
  - intros Hin.
    destruct (forEachFrom_each _ _ _ _ _ _ Hpe Hi) as [es Hes].
    exists i, pi, es. split; [assumption |]. split; [exact Hes |].
    apply checkPriorIssue_Ok in Hes as [_ ->]. exact Hin.
Qed.

End ValidatorElements.

Lemma has_VALID_STATUSES_spec v :
  has VALID_STATUSES v = false ↔ ¬ acceptedStatus v.
Proof.
  unfold acceptedStatus. rewrite <- (has_spec VALID_STATUSES).
  destruct (has VALID_STATUSES v); split; intros; try congruence; tauto.
Qed.

Lemma idOk_false_spec v :
  truthy v && isString v = false ↔ ¬ acceptedId v.
Proof.
  unfold acceptedId. rewrite <- idOk_spec.
  destruct (truthy v && isString v); split; intros; try congruence; tauto.
Qed.

(** C6, as the code has it.  For the element at index [i] of [prior_issues],
    the validator reports a missing id exactly when the element carries no
    non-empty string id, and an invalid status exactly when its status is
    not one of the four members of [VALID_STATUSES]: resolved, still-open,
    regressed, not-applicable.  Both [open] and [force-approved] are
    rejected. *)
Theorem validator_prior_update parsed errors items i pi :
  validateReviewResponse parsed = Ok errors →
  fieldOf parsed "prior_issues" = Some (JArr items) →
  items !! i = Some pi →
  (In (PriorIdMissing i) errors ↔ ¬ acceptedId (fieldOf pi "id"))
  ∧ (In (PriorStatusInvalid i) errors ↔ ¬ acceptedStatus (fieldOf pi "status")).
Proof.
  intros (Hnn & pe & ne & Hpe & Hne & ->)%validateReviewResponse_inv Hitems Hi.
  unfold priorErrorsOf in Hpe. rewrite Hitems in Hpe.
  assert (∀ e, e = PriorIdMissing i ∨ e = PriorStatusInvalid i →
            In e (unless (has VALID_VERDICTS (fieldOf parsed "verdict")) VerdictInvalid
                  ++ pe ++ ne
                  ++ unless (isString (fieldOf parsed "summary")) SummaryNotString)
            ↔ In e pe) as Honly.
  { intros e He. rewrite !in_app_iff, !unless_elem. split; [| tauto].
    intros [[_ ->] | [Hin | [Hin | [_ ->]]]]; try assumption;
      try (destruct He; discriminate).
    destruct (newErrorsOf_kind _ _ _ Hne Hin) as [-> | [j [-> | [-> | [-> | ->]]]]];
      destruct He; discriminate. }
  split.
  - rewrite Honly by auto.
    rewrite (priorErrors_elem _ _ _ _ _ Hpe Hi) by auto.
    rewrite in_app_iff, !unless_elem, <- idOk_false_spec.
    split; [intros [[H _] | [_ [=]]]; exact H | auto].
  - rewrite Honly by auto.
    rewrite (priorErrors_elem _ _ _ _ _ Hpe Hi) by auto.
    rewrite in_app_iff, !unless_elem, <- has_VALID_STATUSES_spec.
    split; [intros [[_ [=]] | [H _]]; exact H | auto].
Qed.

Lemma validator_prior_update_witness :
  ∃ errors,
    validateReviewResponse
      (responseJ "REVISE"
         [priorJ "ISS-001" "still-open" "not fixed"; priorJ "" "open" "again"] []
         "two updates") = Ok errors
    ∧ (In (PriorIdMissing 1) errors ↔ ¬ acceptedId (Some (JStr "")))
    ∧ (In (PriorStatusInvalid 1) errors ↔ ¬ acceptedStatus (Some (JStr "open"))).
Proof.
  eexists. split; [reflexivity |].
  apply (validator_prior_update
           (responseJ "REVISE"
              [priorJ "ISS-001" "still-open" "not fixed"; priorJ "" "open" "again"] []
              "two updates") _
           [priorJ "ISS-001" "still-open" "not fixed"; priorJ "" "open" "again"] 1
           (priorJ "" "open" "again")); reflexivity.
Defined.

(** C6, as stated, fails: a prior-issue update with a non-empty id and the
    status [force-approved], a member of the five-member set of the claim,
    is reported as invalid. *)
Lemma validator_rejects_force_approved :
  let update := priorJ "ISS-001" "force-approved" "signed off" in
  acceptedId (fieldOf update "id")
  ∧ fieldOf update "status" = Some (JStr "force-approved")
  ∧ validateReviewResponse (responseJ "REVISE" [update] [] "override")
    = Ok [PriorStatusInvalid 0]
  ∧ validateReviewResponse (responseJ "REVISE" [update] [] "override") ≠ Ok [].
Proof.
  intros update. split; [exists "ISS-001"; split; [reflexivity | discriminate] |].
  split; [reflexivity |]. split; [reflexivity | discriminate].
Qed.

(** ** Stepping through a command *)

Section Stepping.

Context {A B : Type}.

Lemma bind_dieUnless ok why (k : unit → M B) fs :
  (dieUnless ok why ≫= k) fs = if ok then k tt fs else (fs, Stop (Die why 2)).
Proof. destruct ok; reflexivity. Qed.

Lemma bind_lift (r : res A) (k : A → M B) fs :
  (lift r ≫= k) fs = match r with Ok a => k a fs | Stop e => (fs, Stop e) end.
Proof. destruct r; reflexivity. Qed.

Lemma bind_reading (f : FS → A) (k : A → M B) fs :
  (reading f ≫= k) fs = k (f fs) fs.
Proof. reflexivity. Qed.

Lemma bind_attempt (f : FS → res A) (k : A → M B) fs :
  (attempt f ≫= k) fs = match f fs with Ok a => k a fs | Stop e => (fs, Stop e) end.
Proof. unfold mbind, M_bind, attempt. destruct (f fs); reflexivity. Qed.

Lemma bind_writing (f : FS → res FS) (k : unit → M B) fs :
  (writing f ≫= k) fs = match f fs with Ok fs' => k tt fs' | Stop e => (fs, Stop e) end.
Proof. unfold mbind, M_bind, writing. destruct (f fs); reflexivity. Qed.

End Stepping.

Lemma writeIn_present fs ws d change :
  dirs fs !! ws = Some d →
  writeIn fs ws change = Ok {| dirs := <[ws := change d]> (dirs fs); files := files fs |}.
Proof. unfold writeIn. now intros ->. Qed.

Lemma writeIn_again ds fl ws d change :
  writeIn {| dirs := <[ws := d]> ds; files := fl |} ws change
  = Ok {| dirs := <[ws := change d]> ds; files := fl |}.
Proof.
  unfold writeIn. simpl. rewrite lookup_insert_eq. now rewrite insert_insert_eq.
Qed.

Lemma existsSync_path fs p :
  existsSync fs p = true →
  ∃ s, p = Some (AStr s) ∧ (is_Some (dirs fs !! s) ∨ is_Some (files fs !! s)).
Proof.
  unfold existsSync. destruct p as [[s| |]|]; try discriminate.
  intros [H | H]%orb_prop; apply bool_decide_eq_true in H; eauto.
Qed.

(** Computations that can only end by an uncaught exception. *)
Lemma prop_stop v key e : prop v key = Stop e → e = Uncaught.
Proof. destruct v; simpl; congruence. Qed.

Lemma complain_stop ok v e e' : complain ok v e = Stop e' → e' = Uncaught.
Proof.
  unfold complain. destruct ok; [discriminate |].
  destruct (shown v); [discriminate | congruence].
Qed.

Lemma checkPriorIssue_stop i x e : checkPriorIssue i x = Stop e → e = Uncaught.
Proof.
  destruct (null_or_not x) as [-> | Hnn].
  - change (@Stop (list schemaError) Uncaught = Stop e → e = Uncaught). congruence.
  - rewrite checkPriorIssue_unfold by assumption.
    destruct (complain _ _ _) as [se|e1] eqn:Hse; [discriminate |].
    intros [= <-]. exact (complain_stop _ _ _ _ Hse).
Qed.

Lemma checkNewIssue_stop i x e : checkNewIssue i x = Stop e → e = Uncaught.
Proof.
  destruct (null_or_not x) as [-> | Hnn].
  - change (@Stop (list schemaError) Uncaught = Stop e → e = Uncaught). congruence.
  - rewrite checkNewIssue_unfold by assumption.
    destruct (complain _ _ _) as [se|e1] eqn:Hse; [discriminate |].
    intros [= <-]. exact (complain_stop _ _ _ _ Hse).
Qed.

Lemma forEachFrom_stop check :
  (∀ i x e, check i x = Stop e → e = Uncaught) →
  ∀ items k e, forEachFrom check k items = Stop e → e = Uncaught.
Proof.
  intros Hcheck. induction items as [|x items IH]; intros k e; simpl; [discriminate |].
  destruct (check k x) as [here|e1] eqn:Hx; simpl.
  - destruct (forEachFrom check (S k) items) as [later|e2] eqn:Hl; simpl; [discriminate |].
    intros [= <-]. eauto.
  - intros [= <-]. eauto.
Qed.

Lemma validateReviewResponse_stop parsed e :
  validateReviewResponse parsed = Stop e → e = Uncaught.
Proof.
  destruct (null_or_not parsed) as [-> | Hnn].
  { change (@Stop (list schemaError) Uncaught = Stop e → e = Uncaught). congruence. }
  unfold validateReviewResponse. rewrite !prop_fieldOf by assumption.
  cbn [mbind res_bind].
  destruct (complain _ _ _) as [ve|e0] eqn:Hve;
    [| intros [= <-]; exact (complain_stop _ _ _ _ Hve)].
  fold (priorErrorsOf parsed). fold (newErrorsOf parsed).
  destruct (priorErrorsOf parsed) as [pe|e1] eqn:Hpe; simpl.
  - destruct (newErrorsOf parsed) as [ne|e2] eqn:Hne; simpl; [discriminate |].
    intros [= <-]. unfold newErrorsOf in Hne.
    destruct (fieldOf parsed "new_issues") as [[]|]; try discriminate.
    eapply forEachFrom_stop; [apply checkNewIssue_stop | eassumption].
  - intros [= <-]. unfold priorErrorsOf in Hpe.
    destruct (fieldOf parsed "prior_issues") as [[]|]; try discriminate.
    eapply forEachFrom_stop; [apply checkPriorIssue_stop | eassumption].
Qed.

Lemma scanOpenIssues_stop text opens : ∀ maxSim dupOf e,
  scanOpenIssues text opens maxSim dupOf = Stop e → e = Uncaught.
Proof.
  induction opens as [|o opens IH]; intros maxSim dupOf e; simpl; [discriminate |].
  destruct (jaccardSimilarityOf text (problem o)) as [sim|e1] eqn:Hsim; simpl.
  - destruct (Qlt_bool maxSim sim); apply IH.
  - intros [= <-]. unfold jaccardSimilarityOf in Hsim.
    destruct text, (problem o); congruence.
Qed.

Lemma registerFrom_stop round opens new : ∀ idx st e,
  registerFrom round opens idx new st = Stop e → e = Uncaught.
Proof.
  induction new as [|ni new IH]; intros idx st e; simpl; [discriminate |].
  destruct (scanOpenIssues (ni_problem ni) opens 0%Q None) as [[maxSim dupOf]|e1] eqn:Hscan;
    simpl.
  - apply IH.
  - intros [= <-]. eapply scanOpenIssues_stop; eassumption.
Qed.

Lemma processRound_stop round parsed issues e :
  processRound round parsed issues = Stop e → e = Uncaught.
Proof. apply registerFrom_stop. Qed.

(** Closes the branches in which a command ends before it writes. *)
Ltac fails :=
  left; split; [reflexivity |]; eexists; split; [reflexivity |];
  first [ exact I
        | match goal with
          | H : validateReviewResponse _ = Stop _ |- _ =>
              rewrite (validateReviewResponse_stop _ _ H); exact I
          | H : processRound _ _ _ = Stop _ |- _ =>
              rewrite (processRound_stop _ _ _ _ H); exact I
          end ].

(** ** What [parse-round] does *)

Section ParseRound.

Variable JSON_parse : string → option json.

(** Either the command ends before it writes anything, or the response was
    extracted, validated and processed and the files of the workspace are
    written from it. *)
Lemma cmdParseRound_inv args fs fs' r :
  cmdParseRound JSON_parse args fs = (fs', r) →
  (fs' = fs ∧ ∃ e, r = Stop e ∧ isFailure e)
  ∨ ∃ ws round raw parsed rv reg d,
      args !! "workspace" = Some (AStr ws)
      ∧ parseInt10 (argText (args !! "round")) = Some round ∧ round ≠ Num 0
      ∧ dirs fs !! ws = Some d
      ∧ files fs !! pathOf (args !! "response") = Some raw
      ∧ extractJson JSON_parse raw = Some parsed
      ∧ validateReviewResponse parsed = Ok []
      ∧ readRoundVerdict parsed = Some rv
      ∧ processRound round rv (getIssues fs ws) = Ok reg
      ∧ let out := roundOutputOf round rv reg in
        let d1 := setRound round out (setIssues (rg_issues reg) d) in
        match d_meta d with
        | None =>
            fs' = {| dirs := <[ws := d1]> (dirs fs); files := files fs |}
            ∧ r = Stop (Die NotAWorkspace 2)
        | Some meta =>
            fs' = {| dirs := <[ws := appendLog (roundLogOf round rv reg)
                                      (setMeta (withRound round (ro_verdict out) meta) d1)]>
                               (dirs fs);
                     files := files fs |}
            ∧ r = Ok (if bool_decide (ro_verdict out = APPROVED) then 0 else 1)%Z
        end.
Proof.
  unfold cmdParseRound. cbv zeta.
  rewrite bind_dieUnless. destruct (given (args !! "workspace")) eqn:Hgiven;
    [| intros [= <- <-]; fails].
  rewrite bind_lift.
  destruct (parseInt10 (argText (args !! "round"))) as [round|] eqn:Hround;
    [| intros [= <- <-]; fails].
  destruct (decide (round = Num 0)) as [-> | Hnz]; [intros [= <- <-]; fails |].
  replace (match round with Num 0 => die (OptionRequired "round") | _ => Ok round end)
    with (@Ok number round) by (destruct round as [[| |] |]; congruence).
  rewrite bind_dieUnless. destruct (given (args !! "response")) eqn:Hresp;
    [| intros [= <- <-]; fails].
  rewrite bind_reading, bind_dieUnless.
  destruct (existsSync fs (args !! "workspace")) eqn:Hws; [| intros [= <- <-]; fails].
  rewrite bind_reading, bind_dieUnless.
  destruct (existsSync fs (args !! "response")) eqn:Hrp; [| intros [= <- <-]; fails].
  rewrite bind_attempt. unfold readFile at 1.
  destruct (files fs !! pathOf (args !! "response")) as [raw|] eqn:Hraw;
    [| intros [= <- <-]; fails].
  rewrite bind_lift.
  destruct (extractJson JSON_parse raw) as [parsed|] eqn:Hparsed;
    [| intros [= <- <-]; fails].
  rewrite bind_lift.
  destruct (validateReviewResponse parsed) as [errors|] eqn:Hvalid;
    [| intros [= <- <-]; fails].
  rewrite bind_dieUnless.
  destruct errors as [|e errors]; [| intros [= <- <-]; fails]. cbn [length Nat.eqb].
  rewrite bind_lift.
  destruct (readRoundVerdict parsed) as [rv|] eqn:Hrv; [| intros [= <- <-]; fails].
  rewrite bind_reading, bind_lift.
  apply existsSync_path in Hws as (ws & Hwsarg & _). rewrite Hwsarg. cbn [pathOf].
  destruct (processRound round rv (getIssues fs ws)) as [reg|] eqn:Hreg;
    [| intros [= <- <-]; fails].
  rewrite bind_writing. unfold saveIssues, writeIn at 1.
  destruct (dirs fs !! ws) as [d|] eqn:Hd; [| intros [= <- <-]; fails].
  rewrite bind_writing, writeIn_again.
  rewrite bind_attempt. unfold getWorkspaceMeta at 1. cbn [dirs].
  rewrite lookup_insert_eq. cbn [mbind option_bind setRound setIssues d_meta].
  intros Hrun. right. exists ws, round, raw, parsed, rv, reg, d.
  do 9 (split; [assumption || reflexivity |]).
  cbv zeta. destruct (d_meta d) as [meta|].
  - rewrite bind_writing, writeIn_again, bind_writing, writeIn_again in Hrun.
    injection Hrun as <- <-. split; reflexivity.
  - injection Hrun as <- <-. split; reflexivity.
Qed.

End ParseRound.

(** ** What [finalize] does *)

Lemma fs_eta fs : {| dirs := dirs fs; files := files fs |} = fs.
Proof. now destruct fs. Qed.

Lemma overrideCheck_stop env reason ciForce blockers e :
  overrideCheck env reason ciForce blockers = Stop e → isFailure e.
Proof.
  unfold overrideCheck.
  destruct (negb (given reason)); [intros [= <-]; exact I |].
  destruct (shorterThan10 reason); [intros [= <-]; exact I |].
  destruct (isTTY env && negb ciForce)%bool.
  - destruct (String.eqb _ _); [discriminate | intros [= <-]; exact I].
  - destruct (negb (isTTY env) || ciForce)%bool; [| discriminate].
    destruct (negb ciForce); [intros [= <-]; exact I | discriminate].
Qed.

Ltac failsFinal :=
  left; split; [reflexivity |]; eexists; split; [reflexivity |];
  first [ exact I
        | match goal with
          | H : overrideCheck _ _ _ _ = Stop _ |- _ => exact (overrideCheck_stop _ _ _ _ _ H)
          end ].

Lemma cmdFinalize_inv env args fs fs' r :
  cmdFinalize env args fs = (fs', r) →
  (fs' = fs ∧ ∃ e, r = Stop e ∧ isFailure e)
  ∨ ∃ ws d meta,
      args !! "workspace" = Some (AStr ws)
      ∧ dirs fs !! ws = Some d ∧ d_meta d = Some meta
      ∧ let issues := getIssues fs ws in
        let blockers := getOpenBlockers issues in
        ∃ log issues' d0,
          ((blockers = [] ∧ log = None ∧ issues' = issues ∧ d0 = d)
           ∨ (blockers ≠ []
              ∧ (∃ l, overrideCheck env (args !! "override-reason")
                        (given (args !! "ci-force")) blockers = Ok l ∧ log = Some l)
              ∧ issues' = markForceApproved (currentRound meta) blockers issues
              ∧ d0 = setIssues issues' d))
          ∧ match d_plans d with
            | [] =>
                fs' = {| dirs := <[ws := d0]> (dirs fs); files := files fs |}
                ∧ r = Stop (Die NoPlanVersions 2)
            | _ :: _ =>
                let summary := summaryOf env meta blockers log issues' in
                fs' = {| dirs :=
                           <[ws := setMeta (withFinal (finalVerdict summary)
                                              (sm_completedAt summary) meta)
                                     (appendLog (finalLogOf summary)
                                        (setSummary summary
                                           (setPlanFinal (maxOf (d_plans d)) d0)))]>
                             (dirs fs);
                         files := files fs |}
                ∧ r = Ok 0%Z
            end.
Proof.
  unfold cmdFinalize. cbv zeta.
  rewrite bind_dieUnless. destruct (given (args !! "workspace")) eqn:Hgiven;
    [| intros [= <- <-]; failsFinal].
  rewrite bind_reading, bind_dieUnless.
  destruct (existsSync fs (args !! "workspace")) eqn:Hws; [| intros [= <- <-]; failsFinal].
  apply existsSync_path in Hws as (ws & Hwsarg & _). rewrite Hwsarg. cbn [pathOf].
  rewrite bind_attempt. unfold getWorkspaceMeta at 1.
  destruct (dirs fs !! ws) as [d|] eqn:Hd; [| intros [= <- <-]; failsFinal].
  cbn [mbind option_bind].
  destruct (d_meta d) as [meta|] eqn:Hmeta; [| intros [= <- <-]; failsFinal].
  rewrite bind_reading.
  set (issues := getIssues fs ws).
  destruct (getOpenBlockers issues) as [|b bs] eqn:Hblockers.
  - (* nothing blocks *)
    cbn [length Nat.ltb Nat.leb].
    change ((mret (None, issues) : M _) ≫= ?k) with (k (None, issues)). cbv beta iota.
    rewrite bind_reading, Hd. cbn [fmap option_fmap option_map default].
    rewrite bind_dieUnless.
    intros Hrun. right. exists ws, d, meta. do 3 (split; [assumption || reflexivity |]).
    cbv zeta. fold issues. rewrite Hblockers.
    exists None, issues, d. split; [left; auto |].
    unfold Datatypes.id in Hrun.
    destruct (d_plans d) as [|v vs] eqn:Hplans.
    + cbn in Hrun. injection Hrun as <- <-.
      rewrite insert_id by assumption. rewrite fs_eta. auto.
    + cbn [length Nat.eqb negb] in Hrun.
      rewrite bind_writing, (writeIn_present _ _ _ _ Hd) in Hrun.
      repeat (rewrite bind_writing, writeIn_again in Hrun).
      injection Hrun as <- <-. auto.
  - (* blockers: the override protocol *)
    set (blockers := b :: bs) in *.
    replace (0 <? length blockers)%nat with true by reflexivity.
    unfold mbind at 1, M_bind at 1. rewrite bind_lift.
    destruct (overrideCheck env (args !! "override-reason")
                (given (args !! "ci-force")) blockers) as [l|] eqn:Hcheck;
      [| intros [= <- <-]; failsFinal].
    rewrite bind_writing. unfold saveIssues. rewrite (writeIn_present _ _ _ _ Hd).
    unfold mret at 1, M_ret at 1. cbv beta iota.
    rewrite bind_reading. cbn [dirs]. rewrite lookup_insert_eq.
    cbn [fmap option_fmap option_map default setIssues d_plans].
    rewrite bind_dieUnless.
    intros Hrun. right. exists ws, d, meta. do 3 (split; [assumption || reflexivity |]).
    cbv zeta. fold issues. rewrite Hblockers. fold blockers.
    exists (Some l), (markForceApproved (currentRound meta) blockers issues),
      (setIssues (markForceApproved (currentRound meta) blockers issues) d).
    split.
    { right. split; [discriminate |]. eauto. }
    unfold Datatypes.id in Hrun.
    destruct (d_plans d) as [|v vs] eqn:Hplans.
    + cbn in Hrun. apply pair_equal_spec in Hrun as [<- <-]. auto.
    + cbn [length Nat.eqb negb] in Hrun.
      repeat (rewrite bind_writing, writeIn_again in Hrun).
      apply pair_equal_spec in Hrun as [<- <-]. auto.
Qed.

(** ** Relations kept by commands *)

Section Keeping.

Variable R : FS → FS → Prop.
Context `{!PreOrder R}.

Lemma keeps_bind {A B} (m : M A) (k : A → M B) :
  keeps R m → (∀ a, keeps R (k a)) → keeps R (m ≫= k).
Proof.
  intros Hm Hk fs fs' r. unfold mbind, M_bind.
  destruct (m fs) as [fs1 [a|e]] eqn:Hrun.
  - intros Hrest. transitivity fs1; [eapply Hm | eapply Hk]; eassumption.
  - intros [= <- <-]. eapply Hm; eassumption.
Qed.

Lemma keeps_ret {A} (a : A) : keeps R (mret a).
Proof. intros fs fs' r [= <- <-]. reflexivity. Qed.

Lemma keeps_lift {A} (r : res A) : keeps R (lift r).
Proof. intros fs fs' r' [= <- <-]. reflexivity. Qed.

Lemma keeps_reading {A} (f : FS → A) : keeps R (reading f).
Proof. intros fs fs' r' [= <- <-]. reflexivity. Qed.

Lemma keeps_attempt {A} (f : FS → res A) : keeps R (attempt f).
Proof. intros fs fs' r' [= <- <-]. reflexivity. Qed.

Lemma keeps_dieUnless ok why : keeps R (dieUnless ok why).
Proof. apply keeps_lift. Qed.

Lemma keeps_writing (f : FS → res FS) :
  (∀ fs fs', f fs = Ok fs' → R fs fs') → keeps R (writing f).
Proof.
  intros Hf fs fs' r. unfold writing. destruct (f fs) as [fs1|e] eqn:Hw.
  - intros [= <- <-]. auto.
  - intros [= <- <-]. reflexivity.
Qed.

End Keeping.

(** Decomposes a command into its primitive steps. *)
Ltac keeping R :=
  repeat first
    [ apply (keeps_ret R)
    | apply (keeps_dieUnless R)
    | apply (keeps_lift R)
    | apply (keeps_reading R)
    | apply (keeps_attempt R)
    | apply (keeps_writing R); intros ? ?
    | apply (keeps_bind R); [| intros ?] ].

#[local] Instance ledgersKeptOrEmptied_preorder : PreOrder ledgersKeptOrEmptied.
Proof.
  split.
  - intros fs p. auto.
  - intros fs1 fs2 fs3 H12 H23 p.
    destruct (H23 p) as [-> | ->]; auto.
Qed.

Lemma getIssues_insert ds fl ws d p :
  getIssues {| dirs := <[ws := d]> ds; files := fl |} p
  = if decide (ws = p) then default [] (d_issues d)
    else getIssues {| dirs := ds; files := fl |} p.
Proof.
  unfold getIssues. cbn [dirs]. rewrite lookup_insert.
  destruct (decide (ws = p)); reflexivity.
Qed.

Lemma getIssues_dirs fs fs' p : dirs fs' = dirs fs → getIssues fs' p = getIssues fs p.
Proof. unfold getIssues. now intros ->. Qed.

Lemma getIssues_present fs ws d :
  dirs fs !! ws = Some d → getIssues fs ws = default [] (d_issues d).
Proof. unfold getIssues. now intros ->. Qed.

Lemma getIssues_absent fs ws : dirs fs !! ws = None → getIssues fs ws = [].
Proof. unfold getIssues. now intros ->. Qed.

Lemma writeIn_ledgers fs fs' ws change :
  (∀ d, d_issues (change d) = d_issues d ∨ d_issues (change d) = Some []) →
  writeIn fs ws change = Ok fs' → ledgersKeptOrEmptied fs fs'.
Proof.
  intros Hchange. unfold writeIn.
  destruct (dirs fs !! ws) as [d|] eqn:Hd; [| discriminate].
  intros [= <-] p. rewrite getIssues_insert.
  destruct (decide (ws = p)) as [<- |].
  - rewrite (getIssues_present _ _ _ Hd).
    destruct (Hchange d) as [-> | ->]; auto.
  - left. now apply getIssues_dirs.
Qed.

Lemma ensureDir_ledgers p fs fs' :
  ensureDir p fs = Ok fs' → ledgersKeptOrEmptied fs fs'.
Proof.
  unfold ensureDir. destruct p as [[p| |]|]; try discriminate.
  destruct (dirs fs !! p) as [d|] eqn:Hd.
  - intros [= <-]. reflexivity.
  - destruct (files fs !! p); [discriminate |].
    intros [= <-] q. rewrite getIssues_insert.
    destruct (decide (p = q)) as [<- |]; [right; reflexivity |].
    left. now apply getIssues_dirs.
Qed.

Lemma cmdInit_ledgers env args : keeps ledgersKeptOrEmptied (cmdInit env args).
Proof.
  unfold cmdInit. cbv zeta. keeping ledgersKeptOrEmptied.
  - apply ensureDir_ledgers.
  - apply ensureDir_ledgers.
  - apply writeIn_ledgers. intros d. left. reflexivity.
  - apply writeIn_ledgers. intros d. left. reflexivity.
  - apply writeIn_ledgers. intros d. right. reflexivity.
  - apply writeIn_ledgers. intros d. left. reflexivity.
Qed.

Lemma cmdStatus_same args : keeps eq (cmdStatus args).
Proof.
  unfold cmdStatus. cbv zeta. keeping (@eq FS).
Qed.

(** ** Every invocation changes a ledger by one [ledgerStep] *)

Section LedgerSteps.

Variable JSON_parse : string → option json.

Lemma run_fst (cmd : M Z) fs : (run cmd fs).1 = (cmd fs).1.
Proof. unfold run. now destruct (cmd fs) as [fs' [c|e]]. Qed.

Lemma cmdParseRound_ledger args fs p :
  ledgerStep (getIssues fs p) (getIssues (cmdParseRound JSON_parse args fs).1 p).
Proof.
  destruct (cmdParseRound JSON_parse args fs) as [fs' r] eqn:Hrun. cbn [fst].
  apply cmdParseRound_inv in Hrun
    as [[-> _] | (ws & round & raw & parsed & rv & reg & d & _ & _ & _ & Hd & _ & _ & Hvalid & Hrv & Hreg & Hfs)];
    [constructor |].
  cbv zeta in Hfs.
  assert (∃ d', fs' = {| dirs := <[ws := d']> (dirs fs); files := files fs |}
                ∧ d_issues d' = Some (rg_issues reg)) as (d' & -> & Hd').
  { destruct (d_meta d); destruct Hfs as [-> _]; eexists; split; reflexivity. }
  rewrite getIssues_insert. destruct (decide (ws = p)) as [<- |].
  - rewrite Hd'. cbn [default]. eapply step_round; [exists parsed; split |]; eassumption.
  - rewrite fs_eta. constructor.
Qed.

Lemma cmdFinalize_ledger env args fs p :
  ledgerStep (getIssues fs p) (getIssues (cmdFinalize env args fs).1 p).
Proof.
  destruct (cmdFinalize env args fs) as [fs' r] eqn:Hrun. cbn [fst].
  apply cmdFinalize_inv in Hrun
    as [[-> _] | (ws & d & meta & _ & Hd & _ & log & issues' & d0 & Hover & Hfs)];
    [constructor |].
  assert (∃ d', fs' = {| dirs := <[ws := d']> (dirs fs); files := files fs |}
                ∧ d_issues d' = d_issues d0) as (d' & -> & Hd').
  { destruct (d_plans d); destruct Hfs as [-> _]; eexists; split; reflexivity. }
  rewrite getIssues_insert. destruct (decide (ws = p)) as [<- |].
  - rewrite Hd'. destruct Hover as [(_ & _ & _ & ->) | (_ & _ & -> & ->)].
    + rewrite <- (getIssues_present _ _ _ Hd). constructor.
    + cbn [setIssues d_issues default]. constructor.
  - rewrite fs_eta. constructor.
Qed.

Lemma cmdInit_ledger env args fs p :
  getIssues (cmdInit env args fs).1 p = getIssues fs p
  ∨ getIssues (cmdInit env args fs).1 p = [].
Proof.
  destruct (cmdInit env args fs) as [fs' r] eqn:Hrun. cbn [fst].
  exact (cmdInit_ledgers env args _ _ _ Hrun p).
Qed.

Lemma cmdStatus_ledger args fs p :
  ledgerStep (getIssues fs p) (getIssues (cmdStatus args fs).1 p).
Proof.
  destruct (cmdStatus args fs) as [fs' r] eqn:Hrun. cbn [fst].
  rewrite <- (cmdStatus_same args _ _ _ Hrun). constructor.
Qed.

(** Only [init] can empty a ledger, by starting the workspace anew. *)
Lemma main_ledger env argv fs p :
  ledgerStep (getIssues fs p) (getIssues (main JSON_parse env argv fs).1 p)
  ∨ (∃ args, parseArgs argv = Ok args ∧ commandWord args = Some "init")
    ∧ getIssues (main JSON_parse env argv fs).1 p = [].
Proof.
  unfold main. destruct (parseArgs argv) as [args|e]; [| left; constructor].
  destruct (commandWord args) as [[|c cmd]|] eqn:Hword; try (left; constructor).
  destruct (given (args !! "help")); [left; constructor |].
  destruct (String.eqb_spec (String c cmd) "init") as [Hinit |].
  { rewrite Hinit in Hword. rewrite run_fst.
    destruct (cmdInit_ledger env args fs p) as [-> | ->];
      [left; constructor | right; eauto]. }
  left. repeat (destruct (String.eqb _ _); [rewrite run_fst | ]);
    auto using cmdParseRound_ledger, cmdFinalize_ledger, cmdStatus_ledger, step_same.
Qed.

(** An invariant of ledgers that every step keeps holds in every reachable
    file system. *)
Lemma reachable_ledgers (P : list Issue → Prop) :
  P [] →
  (∀ issues issues', ledgerStep issues issues' → P issues → P issues') →
  ∀ fs, reachable JSON_parse fs → ∀ p, P (getIssues fs p).
Proof.
  intros Hnil Hstep fs Hreach. induction Hreach as [fl | env argv fs _ IH | q text fs _ IH | ws v d fs _ IH Hd]; intros p.
  - exact Hnil.
  - destruct (main_ledger env argv fs p) as [Hs | [_ ->]]; [| exact Hnil].
    eapply Hstep; [exact Hs | apply IH].
  - rewrite (getIssues_dirs fs) by reflexivity. apply IH.
  - rewrite getIssues_insert. destruct (decide (ws = p)) as [<- |].
    + cbn [addPlan d_issues]. rewrite <- (getIssues_present _ _ _ Hd). apply IH.
    + rewrite fs_eta. apply IH.
Qed.

End LedgerSteps.

(** ** Prior updates and registration *)

Section Registration.

Lemma In_filter {A} (P : A → Prop) `{!∀ x, Decision (P x)} (l : list A) x :
  In x (filter P l) ↔ P x ∧ In x l.
Proof. rewrite <- !list_elem_of_In. apply list_elem_of_filter. Qed.

Lemma getOpenBlockers_In issues x :
  In x (getOpenBlockers issues)
  ↔ isBlockingSeverity (severity x) && isOpen (status x) = true ∧ In x issues.
Proof. unfold getOpenBlockers. exact (In_filter _ issues x). Qed.

Lemma isBlocker_spec iss :
  isBlockingSeverity (severity iss) && isOpen (status iss) = true ↔ isBlocker iss.
Proof.
  unfold isBlocker. rewrite andb_true_iff.
  destruct (severity iss), (status iss); cbn; intuition congruence.
Qed.

Lemma getOpenBlockers_isBlocker issues x :
  In x (getOpenBlockers issues) ↔ In x issues ∧ isBlocker x.
Proof. rewrite getOpenBlockers_In, isBlocker_spec. tauto. Qed.

Lemma applyUpdate_id round u iss : id (applyUpdate round u iss) = id iss.
Proof. reflexivity. Qed.

Lemma applyPriorUpdates_ids round m issues :
  map id (applyPriorUpdates round m issues) = map id issues.
Proof.
  unfold applyPriorUpdates. rewrite map_map. apply map_ext.
  intros iss. now destruct (m !! id iss).
Qed.

Lemma applyPriorUpdates_length round m issues :
  length (applyPriorUpdates round m issues) = length issues.
Proof. apply length_map. Qed.

Lemma markForceApproved_ids round blockers issues :
  map id (markForceApproved round blockers issues) = map id issues.
Proof.
  unfold markForceApproved. rewrite map_map. apply map_ext.
  intros iss. now destruct (existsb _ _).
Qed.

Lemma markForceApproved_length round blockers issues :
  length (markForceApproved round blockers issues) = length issues.
Proof. apply length_map. Qed.

(** The inner loop returns what it was given, or the id and the similarity of
    an open issue that is more similar. *)
Lemma scanOpenIssues_result text opens maxSim dupOf m d :
  scanOpenIssues text opens maxSim dupOf = Ok (m, d) →
  (m = maxSim ∧ d = dupOf)
  ∨ ∃ o, In o opens ∧ d = Some (id o)
         ∧ jaccardSimilarityOf text (problem o) = Ok m ∧ Qlt_bool maxSim m = true.
Proof.
  revert maxSim dupOf. induction opens as [|o opens IH]; intros maxSim dupOf; simpl.
  - intros [= <- <-]. auto.
  - destruct (jaccardSimilarityOf text (problem o)) as [sim|] eqn:Hsim; simpl;
      [| discriminate].
    destruct (Qlt_bool maxSim sim) eqn:Hlt; intros Hrest; apply IH in Hrest.
    + destruct Hrest as [[-> ->] | (o' & Hin & -> & Hsim' & Hlt')].
      * right. exists o. auto.
      * right. exists o'. repeat split; auto.
        unfold Qlt_bool in *. apply negb_true_iff in Hlt, Hlt'. apply negb_true_iff.
        destruct (Qle_bool m maxSim) eqn:Hle; [| reflexivity].
        apply Qle_bool_iff in Hle.
        assert (¬ (sim <= maxSim)%Q) as Hn1 by (rewrite <- Qle_bool_iff; congruence).
        assert (¬ (m <= sim)%Q) as Hn2 by (rewrite <- Qle_bool_iff; congruence).
        apply Qnot_le_lt in Hn1, Hn2.
        exfalso. apply (Qlt_irrefl m).
        eapply Qle_lt_trans; [exact Hle |]. eapply Qlt_trans; eassumption.
    + destruct Hrest as [[-> ->] | (o' & Hin & -> & Hsim' & Hlt')]; [auto |].
      right. exists o'. auto.
Qed.

Lemma Qlt_bool_false x y : Qlt_bool x y = false → (y <= x)%Q.
Proof. unfold Qlt_bool. intros H%negb_false_iff. now apply Qle_bool_iff. Qed.

Lemma Qlt_bool_true x y : Qlt_bool x y = true → (x < y)%Q.
Proof.
  unfold Qlt_bool. intros H%negb_true_iff. apply Qnot_le_lt.
  rewrite <- Qle_bool_iff. congruence.
Qed.

(** The inner loop returns the largest similarity to an open issue. *)
Lemma scanOpenIssues_max text opens : ∀ maxSim dupOf m d,
  scanOpenIssues text opens maxSim dupOf = Ok (m, d) →
  (maxSim <= m)%Q
  ∧ ∀ o s, In o opens → jaccardSimilarityOf text (problem o) = Ok s → (s <= m)%Q.
Proof.
  induction opens as [|o opens IH]; intros maxSim dupOf m d; simpl.
  - intros [= <- <-]. split; [apply Qle_refl | intros o s []].
  - destruct (jaccardSimilarityOf text (problem o)) as [sim|] eqn:Hsim; simpl;
      [| discriminate].
    destruct (Qlt_bool maxSim sim) eqn:Hlt; intros Hrest;
      apply IH in Hrest as [Hle Hall]; split.
    + apply Qlt_bool_true, Qlt_le_weak in Hlt. eapply Qle_trans; eassumption.
    + intros o' s [<- | Hin] Hs; [| eauto]. congruence.
    + assumption.
    + intros o' s [<- | Hin] Hs; [| eauto].
      rewrite Hsim in Hs. injection Hs as <-.
      apply Qlt_bool_false in Hlt. eapply Qle_trans; eassumption.
Qed.

(** What the registration loop adds: one open issue per new issue, in
    order, and warnings that name issues of [openIssues] only. *)
Lemma registerFrom_result round opens new : ∀ idx st st',
  registerFrom round opens idx new st = Ok st' →
  ∃ added warned,
    rg_issues st' = rg_issues st ++ added
    ∧ rg_assigned st' = rg_assigned st ++ added
    ∧ rg_warnings st' = rg_warnings st ++ warned
    ∧ Forall2 (λ a ni, a = makeIssue (id a) ni round) added new
    ∧ ∀ w, In w warned →
        ∃ o ni sim, In o opens
          ∧ possible_duplicate_of w = Some (id o)
          ∧ new !! (new_issue_index w - idx)%nat = Some ni
          ∧ (idx <= new_issue_index w)%nat
          ∧ jaccardSimilarityOf (ni_problem ni) (problem o) = Ok sim
          ∧ Qle_bool (6 # 10) sim = true
          ∧ similarity w = roundHundredths sim
          ∧ ∀ o' sim', In o' opens →
              jaccardSimilarityOf (ni_problem ni) (problem o') = Ok sim' →
              (sim' <= sim)%Q.
Proof.
  induction new as [|ni new IH]; intros idx st st'; simpl.
  - intros [= <-]. exists [], []. rewrite !app_nil_r. repeat split; auto.
    intros w [].
  - destruct (scanOpenIssues (ni_problem ni) opens 0%Q None) as [[maxSim dupOf]|] eqn:Hscan;
      simpl; [| discriminate].
    intros Hrest. apply IH in Hrest as (added & warned & Hi & Ha & Hw & Hadded & Hwarned).
    cbn [rg_issues rg_assigned rg_warnings] in *.
    set (newIssue := makeIssue (nextIssueId (rg_issues st ++ rg_assigned st)) ni round) in *.
    assert (∀ w, In w warned →
              ∃ o ni0 sim, In o opens ∧ possible_duplicate_of w = Some (id o)
                ∧ (ni :: new) !! (new_issue_index w - idx)%nat = Some ni0
                ∧ (idx <= new_issue_index w)%nat
                ∧ jaccardSimilarityOf (ni_problem ni0) (problem o) = Ok sim
                ∧ Qle_bool (6 # 10) sim = true
                ∧ similarity w = roundHundredths sim
                ∧ ∀ o' sim', In o' opens →
                    jaccardSimilarityOf (ni_problem ni0) (problem o') = Ok sim' →
                    (sim' <= sim)%Q) as Hlater.
    { intros w Hin. destruct (Hwarned w Hin) as (o & ni0 & sim & ? & ? & Hlook & Hle & ?).
      exists o, ni0, sim. repeat split; try tauto; [| lia].
      replace (new_issue_index w - idx)%nat with (S (new_issue_index w - S idx)) by lia.
      exact Hlook. }
    destruct (Qle_bool (6 # 10) maxSim) eqn:Hhigh.
    + exists (newIssue :: added),
        ({| new_issue_index := idx; possible_duplicate_of := dupOf;
            similarity := roundHundredths maxSim |} :: warned).
      rewrite Hi, Ha, Hw, <- !app_assoc. repeat split; auto.
      intros w [<- | Hin]; [| auto]. cbn [new_issue_index possible_duplicate_of similarity].
      pose proof (scanOpenIssues_max _ _ _ _ _ _ Hscan) as [_ Hmax].
      apply scanOpenIssues_result in Hscan as [[-> ->] | (o & Hin & -> & Hsim & _)];
        [discriminate |].
      exists o, ni, maxSim. rewrite Nat.sub_diag. repeat split; auto.
    + exists (newIssue :: added), warned.
      rewrite Hi, Ha, Hw, <- !app_assoc. repeat split; auto.
Qed.

Lemma maxOf_le_bound l b : (∀ x, In x l → x <= b) → maxOf l <= b.
Proof.
  induction l as [|x l IH] using rev_ind; intros H; [simpl; lia |].
  rewrite maxOf_snoc. apply Nat.max_lub.
  - apply IH. intros y Hy. apply H, in_or_app. auto.
  - apply H, in_or_app. right. left. reflexivity.
Qed.

Lemma nextIssueId_repeated issues assigned :
  (∀ x, In x assigned → In x issues) →
  nextIssueId (issues ++ assigned) = nextIssueId issues.
Proof.
  intros Hsub. unfold nextIssueId. rewrite map_app, maxOf_app.
  f_equal. f_equal. apply Nat.max_l, maxOf_le_bound.
  intros n (x & <- & Hx)%in_map_iff.
  apply maxOf_ge, (in_map (λ iss, issueNumber (id iss))), Hsub, Hx.
Qed.

(** The loop continues the sequence of identifiers. *)
Lemma registerFrom_sequential round opens new : ∀ idx st st',
  registerFrom round opens idx new st = Ok st' →
  sequential (rg_issues st) →
  (∀ x, In x (rg_assigned st) → In x (rg_issues st)) →
  sequential (rg_issues st')
  ∧ map id (rg_assigned st')
    = map id (rg_assigned st)
      ++ map issueId (seq (S (length (rg_issues st))) (length new)).
Proof.
  induction new as [|ni new IH]; intros idx st st'; simpl.
  - intros [= <-]. rewrite app_nil_r. auto.
  - destruct (scanOpenIssues (ni_problem ni) opens 0%Q None) as [[maxSim dupOf]|];
      simpl; [| discriminate].
    intros Hrest Hseq Hsub.
    rewrite (nextIssueId_repeated _ _ Hsub), (sequential_next _ Hseq) in Hrest.
    apply IH in Hrest as [Hseq' Hids]; cbn [rg_issues rg_assigned] in *.
    + split; [assumption |].
      rewrite Hids, map_app, length_app, <- app_assoc. cbn [length map app makeIssue id].
      rewrite Nat.add_1_r. reflexivity.
    + apply sequential_snoc; [assumption | reflexivity].
    + intros x [Hx | Hx]%in_app_or; apply in_or_app; [left; auto | right; exact Hx].
Qed.

Lemma processRound_sequential round parsed issues reg :
  processRound round parsed issues = Ok reg →
  sequential issues → sequential (rg_issues reg).
Proof.
  unfold processRound, registerNewIssues. intros Hreg Hseq.
  apply registerFrom_sequential in Hreg as [H _]; [assumption | | intros x []].
  cbn [rg_issues]. unfold sequential.
  now rewrite applyPriorUpdates_ids, applyPriorUpdates_length.
Qed.

Lemma ledgerStep_sequential issues issues' :
  ledgerStep issues issues' → sequential issues → sequential issues'.
Proof.
  intros [l | round parsed l reg _ Hreg | round l] Hseq.
  - assumption.
  - eapply processRound_sequential; eassumption.
  - unfold sequential. now rewrite markForceApproved_ids, markForceApproved_length.
Qed.

(** A round or a finalization removes no issue: the identifiers before are
    the first identifiers after. *)
Lemma processRound_ids round parsed issues reg :
  processRound round parsed issues = Ok reg →
  ∃ added, map id (rg_issues reg) = map id issues ++ map id added
           ∧ rg_assigned reg = added.
Proof.
  unfold processRound, registerNewIssues. intros Hreg.
  apply registerFrom_result in Hreg as (added & warned & Hi & Ha & _).
  cbn [rg_issues rg_assigned] in *. exists added.
  rewrite Hi, map_app, applyPriorUpdates_ids. auto.
Qed.

End Registration.

(** * The approval workflow *)

Section RoundClaims.

Variable JSON_parse : string → option json.

Lemma gate_blocked submitted blockers :
  submitted = APPROVED ∨ submitted = REVISE → blockers ≠ [] →
  gate submitted blockers = REVISE.
Proof.
  intros [-> | ->] Hb; unfold gate; destruct blockers; try contradiction; reflexivity.
Qed.

Lemma gate_free submitted : gate submitted [] = submitted.
Proof. unfold gate. cbn [length Nat.ltb Nat.leb]. now rewrite andb_false_r. Qed.

(** C1. Whenever [parse-round] gets as far as writing, the verdict recorded
    in the round output is REVISE if the ledger it saved holds an issue of
    severity CRITICAL or HIGH with status open, still-open or regressed,
    whatever verdict was submitted; with no such issue it is the submitted
    verdict; so APPROVED is recorded only when no such issue is left.  The
    blockers listed in the round output are the ids of exactly those issues.
    Otherwise the command failed and wrote nothing. *)
Theorem gating_rule args fs fs' e :
  run (cmdParseRound JSON_parse args) fs = (fs', e) →
  (fs' = fs ∧ isFailure e)
  ∨ ∃ ws round raw response parsed d' out,
      args !! "workspace" = Some (AStr ws)
      ∧ parseInt10 (argText (args !! "round")) = Some round
      ∧ files fs !! pathOf (args !! "response") = Some raw
      ∧ extractJson JSON_parse raw = Some response
      ∧ readRoundVerdict response = Some parsed
      ∧ dirs fs' !! ws = Some d'
      ∧ d_rounds d' !! round = Some out
      ∧ ro_reviewVerdict out = rv_verdict parsed
      ∧ (∀ i, In i (ro_blockers out)
              ↔ ∃ iss, In iss (getIssues fs' ws) ∧ isBlocker iss ∧ id iss = i)
      ∧ ((∃ iss, In iss (getIssues fs' ws) ∧ isBlocker iss) → ro_verdict out = REVISE)
      ∧ ((∀ iss, In iss (getIssues fs' ws) → ¬ isBlocker iss) →
         ro_verdict out = rv_verdict parsed)
      ∧ (ro_verdict out = APPROVED →
         ∀ iss, In iss (getIssues fs' ws) → ¬ isBlocker iss).
Proof.
  unfold run. destruct (cmdParseRound JSON_parse args fs) as [fs1 r] eqn:Hrun.
  apply cmdParseRound_inv in Hrun
    as [(-> & e1 & -> & Hfail)
       | (ws & round & raw & response & parsed & reg & d & Hws & Hround & _ & Hd & Hraw
          & Hresp & Hvalid & Hread & Hreg & Hfs)].
  { intros [= <- <-]. auto. }
  intros Hend. right.
  set (out := roundOutputOf round parsed reg) in *.
  assert (∃ d', fs1 = {| dirs := <[ws := d']> (dirs fs); files := files fs |}
                ∧ d_issues d' = Some (rg_issues reg)
                ∧ d_rounds d' = <[round := out]> (d_rounds d)) as (d' & -> & Hissues & Hrounds).
  { cbv zeta in Hfs. destruct (d_meta d); destruct Hfs as [-> _];
      eexists; repeat split; reflexivity. }
  assert (fs' = {| dirs := <[ws := d']> (dirs fs); files := files fs |}) as ->.
  { destruct r; congruence. }
  assert (getIssues {| dirs := <[ws := d']> (dirs fs); files := files fs |} ws
          = rg_issues reg) as Hledger.
  { rewrite getIssues_insert, decide_True by reflexivity. now rewrite Hissues. }
  exists ws, round, raw, response, parsed, d', out. rewrite Hledger.
  cbn [dirs]. rewrite lookup_insert_eq, Hrounds, lookup_insert_eq.
  do 8 (split; [assumption || reflexivity |]).
  unfold out, roundOutputOf. cbn [ro_verdict ro_blockers].
  assert (getOpenBlockers (rg_issues reg) ≠ [] →
          gate (rv_verdict parsed) (getOpenBlockers (rg_issues reg)) = REVISE) as Hgate.
  { apply gate_blocked. eapply validated_verdict; eassumption. }
  assert ((∃ iss, In iss (rg_issues reg) ∧ isBlocker iss)
          ↔ getOpenBlockers (rg_issues reg) ≠ []) as Hsome.
  { split.
    - intros (iss & Hin & Hb) Hnil.
      assert (In iss (getOpenBlockers (rg_issues reg))) as Hiss
        by (apply getOpenBlockers_isBlocker; auto).
      rewrite Hnil in Hiss. destruct Hiss.
    - destruct (getOpenBlockers (rg_issues reg)) as [|b bs] eqn:Hb; [contradiction |].
      intros _. exists b. apply getOpenBlockers_isBlocker. rewrite Hb. now left. }
  split; [| split; [| split]].
  - intros i. rewrite in_map_iff. split.
    + intros (iss & Hid & [Hin Hb]%getOpenBlockers_isBlocker). eauto.
    + intros (iss & Hin & Hb & Hid). exists iss. split; [assumption |].
      apply getOpenBlockers_isBlocker. auto.
  - intros Hblocked%Hsome. now apply Hgate.
  - intros Hnone.
    destruct (getOpenBlockers (rg_issues reg)) as [|b bs] eqn:Hb; [apply gate_free |].
    exfalso. apply (Hnone b); apply (getOpenBlockers_isBlocker (rg_issues reg));
      rewrite Hb; now left.
  - intros Happroved iss Hin Hb.
    rewrite Hgate in Happroved; [discriminate |]. apply Hsome. eauto.
Qed.

(** C2. When the response cannot be extracted as JSON, or the extracted
    value fails validation, [parse-round] ends in failure and the file
    system is what it was: no issue, round output, meta or change-log entry
    is written. *)
Theorem failed_submission_changes_nothing args fs raw :
  files fs !! pathOf (args !! "response") = Some raw →
  (∀ response, extractJson JSON_parse raw = Some response →
               validateReviewResponse response ≠ Ok []) →
  ∃ e, run (cmdParseRound JSON_parse args) fs = (fs, e) ∧ isFailure e.
Proof.
  intros Hraw Hbad. unfold run.
  destruct (cmdParseRound JSON_parse args fs) as [fs1 r] eqn:Hrun.
  apply cmdParseRound_inv in Hrun
    as [(-> & e1 & -> & Hfail)
       | (ws & round & raw' & response & parsed & reg & d & _ & _ & _ & _ & Hraw'
          & Hresp & Hvalid & _)].
  - eauto.
  - exfalso. rewrite Hraw in Hraw'. injection Hraw' as <-.
    exact (Hbad _ Hresp Hvalid).
Qed.

End RoundClaims.

Lemma gating_rule_witness :
  let args := argsOf (roundArgv "2" "approve-anyway.json") in
  let fs' := (run (cmdParseRound sampleParse args) afterRound1).1 in
  ∃ d' out iss,
    dirs fs' !! sampleWs = Some d'
    ∧ d_rounds d' !! Num 2 = Some out
    ∧ In iss (getIssues fs' sampleWs)
    ∧ severity iss = CRITICAL ∧ status iss = st_still_open
    ∧ ro_reviewVerdict out = APPROVED
    ∧ ro_verdict out = REVISE
    ∧ In (id iss) (ro_blockers out).
Proof.
  intros args fs'.
  destruct (gating_rule sampleParse args afterRound1 fs'
              (run (cmdParseRound sampleParse args) afterRound1).2)
    as [[Hsame _] | (ws & round & raw & response & parsed & d' & out & Hws & Hround & Hraw
                      & Hresp & Hread & Hd' & Hout & Hreview & Hids & Hblocked & _)].
  - now destruct (run (cmdParseRound sampleParse args) afterRound1).
  - exfalso. apply (f_equal (λ fs, length (d_changelog (default emptyDir (dirs fs !! sampleWs)))))
      in Hsame. vm_compute in Hsame. discriminate.
  - vm_compute in Hws. injection Hws as <-.
    vm_compute in Hround. injection Hround as <-.
    assert (is_Some (head (getIssues fs' sampleWs))) as [iss Hhead]
      by (vm_compute; eauto).
    assert (In iss (getIssues fs' sampleWs)) as Hin
      by (destruct (getIssues fs' sampleWs); [discriminate | injection Hhead as ->; now left]).
    assert (severity iss = CRITICAL ∧ status iss = st_still_open) as [Hsev Hst].
    { revert Hhead. vm_compute. intros [= <-]. split; reflexivity. }
    assert (isBlocker iss) as Hb by (split; [left; exact Hsev | right; left; exact Hst]).
    assert (rv_verdict parsed = APPROVED) as Hsubmitted.
    { vm_compute in Hraw. injection Hraw as <-.
      vm_compute in Hresp. injection Hresp as <-.
      vm_compute in Hread. injection Hread as <-. reflexivity. }
    exists d', out, iss.
    split; [exact Hd' |]. split; [exact Hout |]. split; [exact Hin |].
    split; [exact Hsev |]. split; [exact Hst |].
    split; [now rewrite Hreview |].
    split; [apply Hblocked; eauto | apply Hids; eauto].
Defined.

(** The sample run behind the witness: the reviewer approves while ISS-001
    is still open, and the recorded verdict is REVISE. *)
Example approval_is_overridden :
  (dirs (run (cmdParseRound sampleParse
                (argsOf (roundArgv "2" "approve-anyway.json"))) afterRound1).1
     !! sampleWs) ≫= (λ d, d_rounds d !! Num 2)
  = Some {| ro_round := Some 2%Z; ro_verdict := REVISE; ro_reviewVerdict := APPROVED;
            ro_summary := "Approving anyway"; ro_newIssues := [];
            ro_dedupWarnings := []; ro_blockers := ["ISS-001"] |}.
Proof. vm_compute. reflexivity. Qed.

Lemma failed_submission_changes_nothing_witness :
  ∃ e, run (cmdParseRound sampleParse (argsOf (roundArgv "2" "bad.json"))) afterRound1
       = (afterRound1, e) ∧ isFailure e.
Proof.
  apply (failed_submission_changes_nothing sampleParse
           (argsOf (roundArgv "2" "bad.json")) afterRound1 "bad").
  - vm_compute. reflexivity.
  - intros response. vm_compute. intros [= <-]. vm_compute. discriminate.
Defined.

(** ** Dedup warnings *)

Section Dedup.

(** A new issue that resembles an open prior issue is warned about. *)
Lemma registerFrom_warns round opens new : ∀ idx st st' k ni o s,
  registerFrom round opens idx new st = Ok st' →
  new !! k = Some ni → In o opens →
  jaccardSimilarityOf (ni_problem ni) (problem o) = Ok s → (6 # 10 <= s)%Q →
  ∃ w, In w (rg_warnings st') ∧ new_issue_index w = (idx + k)%nat.
Proof.
  induction new as [|n new IH]; intros idx st st' k ni o s; simpl; [intros _ [=] |].
  destruct (scanOpenIssues (ni_problem n) opens 0%Q None) as [[maxSim dupOf]|] eqn:Hscan;
    simpl; [| discriminate].
  intros Hrest Hk Ho Hs Hhigh. destruct k as [|k]; simpl in Hk.
  - injection Hk as ->.
    apply scanOpenIssues_max in Hscan as [_ Hall].
    assert (Qle_bool (6 # 10) maxSim = true) as Hwarn.
    { apply Qle_bool_iff. eapply Qle_trans; [exact Hhigh | eauto]. }
    rewrite Hwarn in Hrest.
    apply registerFrom_result in Hrest as (_ & warned & _ & _ & -> & _).
    cbn [rg_warnings]. eexists. split.
    + apply in_or_app. left. apply in_or_app. right. left. reflexivity.
    + cbn. lia.
  - destruct (IH _ _ _ _ _ _ _ Hrest Hk Ho Hs Hhigh) as (w & Hw & Hidx).
    exists w. split; [assumption | lia].
Qed.

End Dedup.

(** What a processed round leaves: the updated prior issues followed by
    the new ones, and warnings that name open prior issues. *)
Lemma processRound_result round parsed issues reg :
  processRound round parsed issues = Ok reg →
  let updated :=
    applyPriorUpdates round (buildPriorUpdateMap (rv_prior_issues parsed)) issues in
  rg_issues reg = updated ++ rg_assigned reg
  ∧ Forall2 (λ a ni, a = makeIssue (id a) ni round)
      (rg_assigned reg) (rv_new_issues parsed)
  ∧ (∀ w, In w (rg_warnings reg) →
       ∃ o ni sim, In o updated ∧ isOpen (status o) = true
         ∧ possible_duplicate_of w = Some (id o)
         ∧ rv_new_issues parsed !! new_issue_index w = Some ni
         ∧ jaccardSimilarityOf (ni_problem ni) (problem o) = Ok sim
         ∧ (6 # 10 <= sim)%Q
         ∧ similarity w = roundHundredths sim
         ∧ ∀ o' sim', In o' updated → isOpen (status o') = true →
             jaccardSimilarityOf (ni_problem ni) (problem o') = Ok sim' →
             (sim' <= sim)%Q).
Proof.
  unfold processRound, registerNewIssues. intros Hreg. cbv zeta in *.
  set (updated := applyPriorUpdates round _ issues) in *.
  pose proof (registerFrom_result _ _ _ _ _ _ Hreg)
    as (added & warned & Hi & Ha & Hw & Hadded & Hwarned).
  cbn [rg_issues rg_assigned rg_warnings app] in *. subst added.
  repeat split; try assumption.
  intros w Hin. rewrite Hw in Hin.
  destruct (Hwarned w Hin)
    as (o & ni & sim & [Hopen Ho]%In_filter & Hdup & Hni & _ & Hsim & Hle & Hround & Hmax).
  rewrite Nat.sub_0_r in Hni. apply Qle_bool_iff in Hle.
  exists o, ni, sim. repeat split; try assumption.
  intros o' sim' Ho' Hopen'. apply Hmax, In_filter. split; assumption.
Qed.

(** C3, as the code has it.  All new issues of a round are registered as
    separate entries after the updated prior issues.  A new issue is compared
    with the issues that were in the ledger and are open after the round's
    prior-issue updates, and only with those: every dedup warning names one
    of them, at similarity 0.6 or more with the new issue, and a new issue
    that resembles one of them that much gets a warning; the issue named is
    one of largest similarity.  Issues registered
    in the same round are never compared with each other. *)
Theorem dedup_compares_with_prior_issues round parsed issues reg :
  processRound round parsed issues = Ok reg →
  let updated :=
    applyPriorUpdates round (buildPriorUpdateMap (rv_prior_issues parsed)) issues in
  rg_issues reg = updated ++ rg_assigned reg
  ∧ Forall2 (λ a ni, a = makeIssue (id a) ni round)
      (rg_assigned reg) (rv_new_issues parsed)
  ∧ (∀ w, In w (rg_warnings reg) →
       ∃ o ni sim, In o updated ∧ isOpen (status o) = true
         ∧ possible_duplicate_of w = Some (id o)
         ∧ rv_new_issues parsed !! new_issue_index w = Some ni
         ∧ jaccardSimilarityOf (ni_problem ni) (problem o) = Ok sim
         ∧ (6 # 10 <= sim)%Q
         ∧ similarity w = roundHundredths sim
         ∧ ∀ o' sim', In o' updated → isOpen (status o') = true →
             jaccardSimilarityOf (ni_problem ni) (problem o') = Ok sim' →
             (sim' <= sim)%Q)
  ∧ (∀ k ni o sim, rv_new_issues parsed !! k = Some ni →
       In o updated → isOpen (status o) = true →
       jaccardSimilarityOf (ni_problem ni) (problem o) = Ok sim → (6 # 10 <= sim)%Q →
       ∃ w, In w (rg_warnings reg) ∧ new_issue_index w = k).
Proof.
  intros Hreg updated.
  destruct (processRound_result _ _ _ _ Hreg) as (Hissues & Hadded & Hwarned).
  repeat split; try assumption.
  intros k ni o sim Hk Ho Hopen Hsim Hhigh.
  unfold processRound, registerNewIssues in Hreg.
  eapply (registerFrom_warns _ _ _ 0%nat); try eassumption.
  apply In_filter. split; assumption.
Qed.

Lemma dedup_compares_with_prior_issues_witness :
  let parsed := sampleDuplicate in
  let issues := getIssues afterRound1 sampleWs in
  let reg := registered (processRound (Num 2) parsed issues) in
  let updated :=
    applyPriorUpdates (Num 2) (buildPriorUpdateMap (rv_prior_issues parsed)) issues in
  rg_issues reg = updated ++ rg_assigned reg
  ∧ Forall2 (λ a ni, a = makeIssue (id a) ni (Num 2))
      (rg_assigned reg) (rv_new_issues parsed)
  ∧ (∀ w, In w (rg_warnings reg) →
       ∃ o ni sim, In o updated ∧ isOpen (status o) = true
         ∧ possible_duplicate_of w = Some (id o)
         ∧ rv_new_issues parsed !! new_issue_index w = Some ni
         ∧ jaccardSimilarityOf (ni_problem ni) (problem o) = Ok sim
         ∧ (6 # 10 <= sim)%Q
         ∧ similarity w = roundHundredths sim
         ∧ ∀ o' sim', In o' updated → isOpen (status o') = true →
             jaccardSimilarityOf (ni_problem ni) (problem o') = Ok sim' →
             (sim' <= sim)%Q)
  ∧ (∀ k ni o sim, rv_new_issues parsed !! k = Some ni →
       In o updated → isOpen (status o) = true →
       jaccardSimilarityOf (ni_problem ni) (problem o) = Ok sim → (6 # 10 <= sim)%Q →
       ∃ w, In w (rg_warnings reg) ∧ new_issue_index w = k).
Proof.
  intros parsed issues reg.
  apply (dedup_compares_with_prior_issues (Num 2) parsed issues reg).
  vm_compute. reflexivity.
Defined.

(** The sample behind the witness: a new issue that resembles the open
    ISS-001 of an earlier round is registered as ISS-002 and warned about. *)
Example later_round_duplicate_is_flagged :
  let reg := registered (processRound (Num 2) sampleDuplicate (getIssues afterRound1 sampleWs)) in
  map id (rg_issues reg) = ["ISS-001"; "ISS-002"]
  ∧ map (λ w, (new_issue_index w, possible_duplicate_of w)) (rg_warnings reg)
    = [(0%nat, Some "ISS-001")].
Proof. vm_compute. split; reflexivity. Qed.

(** C3, as stated, fails: two new issues of one round whose problem texts
    share five of their six words (Jaccard similarity 5/7) are both
    registered, as ISS-001 and ISS-002, and no dedup warning is emitted for
    the second: none names ISS-001. *)
Lemma same_round_twins_get_no_warning :
  let fs := (session sampleParse sampleEnv [initArgv; roundArgv "1" "twins.json"]
               sampleFiles).1 in
  (6 # 10 <= jaccardSimilarity "No rate limiting on login endpoint"
               "No rate limiting on login page")%Q
  ∧ map (λ iss, (id iss, problem iss)) (getIssues fs sampleWs)
    = [("ISS-001", JStr "No rate limiting on login endpoint");
       ("ISS-002", JStr "No rate limiting on login page")]
  ∧ (dirs fs !! sampleWs) ≫= (λ d, d_rounds d !! Num 1)
    = Some {| ro_round := Some 1%Z; ro_verdict := REVISE; ro_reviewVerdict := REVISE;
              ro_summary := "2 issues"; ro_newIssues := ["ISS-001"; "ISS-002"];
              ro_dedupWarnings := []; ro_blockers := ["ISS-001"; "ISS-002"] |}
  ∧ ¬ (∃ out w, (dirs fs !! sampleWs) ≫= (λ d, d_rounds d !! Num 1) = Some out
                ∧ In w (ro_dedupWarnings out)
                ∧ possible_duplicate_of w = Some "ISS-001").
Proof.
  intros fs. split; [vm_compute; discriminate |].
  split; [vm_compute; reflexivity |].
  assert ((dirs fs !! sampleWs) ≫= (λ d, d_rounds d !! Num 1)
          = Some {| ro_round := Some 1%Z; ro_verdict := REVISE; ro_reviewVerdict := REVISE;
                    ro_summary := "2 issues"; ro_newIssues := ["ISS-001"; "ISS-002"];
                    ro_dedupWarnings := []; ro_blockers := ["ISS-001"; "ISS-002"] |})
    as Hout by (vm_compute; reflexivity).
  split; [exact Hout |].
  intros (out & w & Hlook & Hin & _). rewrite Hout in Hlook.
  injection Hlook as <-. exact Hin.
Qed.

(** ** Prior-issue updates *)

Section PriorUpdates.

Lemma find_app_first {A} (f : A → bool) l1 l2 :
  find f (l1 ++ l2) = match find f l1 with Some x => Some x | None => find f l2 end.
Proof. induction l1 as [|x l1 IH]; simpl; [reflexivity |]. now destruct (f x). Qed.

(** [priorUpdateMap[k]] is the last update of the list that carries id [k]. *)
Lemma fold_insert_lookup updates : ∀ (m : gmap string PriorUpdate) k,
  fold_left (λ m pu, <[pu_id pu := pu]> m) updates m !! k
  = match find (λ u, String.eqb (pu_id u) k) (rev updates) with
    | Some u => Some u
    | None => m !! k
    end.
Proof.
  induction updates as [|u updates IH]; intros m k; simpl; [reflexivity |].
  rewrite IH, find_app_first.
  destruct (find _ (rev updates)); [reflexivity |]. simpl.
  rewrite lookup_insert.
  destruct (String.eqb_spec (pu_id u) k), (decide (pu_id u = k)); congruence.
Qed.

Lemma buildPriorUpdateMap_lookup updates k :
  buildPriorUpdateMap updates !! k
  = find (λ u, String.eqb (pu_id u) k) (rev updates).
Proof.
  unfold buildPriorUpdateMap. rewrite fold_insert_lookup, lookup_empty.
  now destruct (find _ _).
Qed.



End PriorUpdates.



(** ** Invariants of the ledger *)

Section LedgerInvariants.

Variable JSON_parse : string → option json.

Lemma reachable_session env argvs : ∀ fs,
  reachable JSON_parse fs → reachable JSON_parse (session JSON_parse env argvs fs).1.
Proof.
  induction argvs as [|argv argvs IH]; intros fs Hfs; simpl; [assumption |].
  pose proof (reach_main JSON_parse env argv fs Hfs) as H1.
  destruct (main JSON_parse env argv fs) as [fs1 e].
  specialize (IH fs1 H1).
  destruct (session JSON_parse env argvs fs1) as [fs2 es]. exact IH.
Qed.

Lemma ledgerStep_ids issues issues' :
  ledgerStep issues issues' → ∃ added, map id issues' = map id issues ++ added.
Proof.
  intros [l | round parsed l reg _ Hreg | round l].
  - exists []. now rewrite app_nil_r.
  - destruct (processRound_ids _ _ _ _ Hreg) as (added & -> & _). eauto.
  - exists []. now rewrite app_nil_r, markForceApproved_ids.
Qed.

Lemma main_keeps_ids env argv args fs ws :
  parseArgs argv = Ok args → commandWord args ≠ Some "init" →
  ∃ added, map id (getIssues (main JSON_parse env argv fs).1 ws)
           = map id (getIssues fs ws) ++ added.
Proof.
  intros Hargs Hword.
  destruct (main_ledger JSON_parse env argv fs ws) as [Hstep | [(args' & Hargs' & Hinit) _]].
  - now apply ledgerStep_ids.
  - congruence.
Qed.

(** *** Statuses of validated updates *)

Lemma forEachFrom_nil_each check k items j x :
  forEachFrom check k items = Ok [] → items !! j = Some x →
  check (k + j)%nat x = Ok [].
Proof.
  intros Hall Hj.
  destruct (forEachFrom_each _ _ _ _ _ _ Hall Hj) as [es Hes].
  destruct es as [|e es]; [assumption |].
  exfalso. apply (proj2 (forEachFrom_elem _ _ _ _ e Hall)).
  exists j, x, (e :: es). repeat split; auto. now left.
Qed.

Lemma readPriorUpdate_status x u i :
  checkPriorIssue i x = Ok [] → readPriorUpdate x = Some u → updateStatus (pu_status u).
Proof.
  intros [Hnn Hnil]%checkPriorIssue_Ok. symmetry in Hnil.
  apply app_eq_nil in Hnil as [_ Hst].
  apply unless_nil, has_spec in Hst as (st & Hst & Hin).
  unfold readPriorUpdate. rewrite Hst.
  destruct (asString (fieldOf x "id")); simpl; [| discriminate].
  unfold updateStatus.
  simpl in Hin. destruct Hin as [<- | [<- | [<- | [<- | []]]]]; simpl;
    intros [= <-]; simpl; auto.
Qed.

Lemma validated_statuses parsed u :
  validated parsed → In u (rv_prior_issues parsed) → updateStatus (pu_status u).
Proof.
  intros (response & Hvalid & Hread) Hin.
  apply validateReviewResponse_inv in Hvalid as (_ & pe & ne & Hpe & _ & Herr).
  symmetry in Herr. apply app_eq_nil in Herr as [_ [-> _]%app_eq_nil].
  apply priorErrorsOf_nil in Hpe as (items & Hitems & Hall).
  unfold readRoundVerdict in Hread. rewrite Hitems in Hread.
  destruct (asString (fieldOf response "verdict") ≫= verdictOfString); [| discriminate].
  cbn [mbind option_bind asArray] in Hread.
  destruct (mapM readPriorUpdate items) as [us|] eqn:Hus; [| discriminate].
  cbn [mbind option_bind] in Hread.
  destruct (asArray (fieldOf response "new_issues") ≫= mapM readNewIssue); [| discriminate].
  cbn [mbind option_bind] in Hread.
  destruct (asString (fieldOf response "summary")); [| discriminate].
  injection Hread as <-. cbn [rv_prior_issues] in Hin.
  apply mapM_Some in Hus.
  apply list_elem_of_In, list_elem_of_lookup in Hin as [j Hj].
  destruct (Forall2_lookup_r _ _ _ _ _ Hus Hj) as (x & Hx & Hread).
  eapply readPriorUpdate_status; [| exact Hread].
  exact (forEachFrom_nil_each _ _ _ _ _ Hall Hx).
Qed.

(** *** Resolution stamps *)

Lemma applyUpdate_stamped round u iss :
  is_Some (stored round) → updateStatus (pu_status u) →
  stamped (applyUpdate round u iss).
Proof.
  intros Hround [H | [H | [H | H]]]; unfold stamped; cbn; rewrite H; cbn;
    split; (discriminate || eauto).
Qed.

Lemma applyPriorUpdates_stamped round updates issues :
  is_Some (stored round) →
  (∀ u, In u updates → updateStatus (pu_status u)) →
  Forall stamped issues →
  Forall stamped (applyPriorUpdates round (buildPriorUpdateMap updates) issues).
Proof.
  intros Hround Hvalid Hissues. unfold applyPriorUpdates.
  apply Forall_fmap. eapply Forall_impl; [exact Hissues |].
  intros iss Hiss. cbn.
  destruct (buildPriorUpdateMap updates !! id iss) as [u|] eqn:Hu; [| assumption].
  apply applyUpdate_stamped; [assumption |]. apply Hvalid.
  rewrite buildPriorUpdateMap_lookup in Hu.
  apply find_some in Hu as [Hin _]. now apply in_rev in Hin.
Qed.

Lemma makeIssue_stamped newId ni round : stamped (makeIssue newId ni round).
Proof. split; [discriminate | reflexivity]. Qed.

Lemma processRound_stamped round parsed issues reg :
  is_Some (stored round) →
  validated parsed → processRound round parsed issues = Ok reg →
  Forall stamped issues → Forall stamped (rg_issues reg).
Proof.
  intros Hround Hvalid Hreg Hissues.
  destruct (processRound_result _ _ _ _ Hreg) as (-> & Hadded & _).
  apply Forall_app. split.
  - apply applyPriorUpdates_stamped; [assumption | | assumption].
    intros u. now apply validated_statuses.
  - clear -Hadded. induction Hadded as [|a ni added new -> _ IH]; constructor;
      [apply makeIssue_stamped | exact IH].
Qed.

Lemma markForceApproved_stamped round blockers issues :
  is_Some round →
  Forall stamped issues → Forall stamped (markForceApproved round blockers issues).
Proof.
  intros Hround Hissues. unfold markForceApproved. apply Forall_fmap.
  eapply Forall_impl; [exact Hissues |]. intros iss Hiss. cbn.
  destruct (existsb _ _); [| assumption].
  split; cbn; [auto | discriminate].
Qed.

(** *** Stamped workspaces *)

#[local] Instance stampedKept_preorder : PreOrder stampedKept.
Proof.
  split.
  - intros fs H. exact H.
  - intros fs1 fs2 fs3 H12 H23 H. auto.
Qed.

Lemma stampedFS_insert ds fl ws d :
  stampedFS {| dirs := ds; files := fl |} → stampedDir d →
  stampedFS {| dirs := <[ws := d]> ds; files := fl |}.
Proof.
  intros Hfs Hd p d'. cbn [dirs]. rewrite lookup_insert.
  destruct (decide (ws = p)) as [<- |]; [intros [= <-]; exact Hd |].
  apply Hfs.
Qed.

Lemma writeIn_stamped fs fs' ws change :
  (∀ d, stampedDir d → stampedDir (change d)) →
  writeIn fs ws change = Ok fs' → stampedKept fs fs'.
Proof.
  intros Hchange. unfold writeIn.
  destruct (dirs fs !! ws) as [d|] eqn:Hd; [| discriminate].
  intros [= <-] Hfs. apply stampedFS_insert.
  - now rewrite fs_eta.
  - apply Hchange. exact (Hfs _ _ Hd).
Qed.

Lemma emptyDir_stamped : stampedDir emptyDir.
Proof. split; [constructor | discriminate]. Qed.

Lemma ensureDir_stamped p fs fs' : ensureDir p fs = Ok fs' → stampedKept fs fs'.
Proof.
  unfold ensureDir. destruct p as [[p| |]|]; try discriminate.
  destruct (dirs fs !! p) as [d|] eqn:Hd.
  - intros [= <-]. reflexivity.
  - destruct (files fs !! p); [discriminate |].
    intros [= <-] Hfs. apply stampedFS_insert;
      [now rewrite fs_eta | exact emptyDir_stamped].
Qed.

Lemma cmdInit_stamped env args : keeps stampedKept (cmdInit env args).
Proof.
  unfold cmdInit. cbv zeta. keeping stampedKept.
  - apply ensureDir_stamped.
  - apply ensureDir_stamped.
  - apply writeIn_stamped. intros d Hd. exact Hd.
  - apply writeIn_stamped. intros d [Hi _]. split; [exact Hi |].
    intros meta [= <-]. cbn. eauto.
  - apply writeIn_stamped. intros d [_ Hm]. split; [constructor | exact Hm].
  - apply writeIn_stamped. intros d Hd. exact Hd.
Qed.

Lemma cmdParseRound_stamped args fs :
  (∀ negative, parseInt10 (argText (args !! "round")) ≠ Some (Infinity negative)) →
  stampedKept fs (cmdParseRound JSON_parse args fs).1.
Proof.
  intros Hfinite Hfs.
  destruct (cmdParseRound JSON_parse args fs) as [fs' r] eqn:Hrun. cbn [fst].
  apply cmdParseRound_inv in Hrun
    as [[-> _] | (ws & round & raw & parsed & rv & reg & d & _ & Hround & _ & Hd
                  & _ & _ & Hvalid & Hrv & Hreg & Hfs')];
    [exact Hfs |].
  assert (is_Some (stored round)) as Hstored.
  { destruct round as [z | negative]; [cbn; eauto |].
    now destruct (Hfinite negative). }
  assert (Forall stamped (rg_issues reg)) as Hissues.
  { eapply processRound_stamped; [exact Hstored | exists parsed; split; eassumption
                                  | exact Hreg |].
    rewrite (getIssues_present _ _ _ Hd). exact (proj1 (Hfs _ _ Hd)). }
  cbv zeta in Hfs'.
  destruct (d_meta d) as [meta|] eqn:Hmeta; destruct Hfs' as [-> _];
    apply stampedFS_insert; try (now rewrite fs_eta).
  - split; [exact Hissues |]. intros meta' [= <-]. exact Hstored.
  - split; [exact Hissues |]. cbn. rewrite Hmeta. discriminate.
Qed.

Lemma cmdFinalize_stamped env args fs :
  stampedKept fs (cmdFinalize env args fs).1.
Proof.
  intros Hfs.
  destruct (cmdFinalize env args fs) as [fs' r] eqn:Hrun. cbn [fst].
  apply cmdFinalize_inv in Hrun
    as [[-> _] | (ws & d & meta & _ & Hd & Hmeta & log & issues' & d0 & Hover & Hfs')];
    [exact Hfs |].
  destruct (Hfs _ _ Hd) as [Hissues Hcurrent].
  specialize (Hcurrent _ Hmeta).
  assert (stampedDir d0) as Hd0.
  { destruct Hover as [(_ & _ & _ & ->) | (_ & _ & -> & ->)].
    - exact (Hfs _ _ Hd).
    - split.
      + cbn [setIssues d_issues default].
        apply markForceApproved_stamped; [exact Hcurrent |].
        now rewrite (getIssues_present _ _ _ Hd).
      + cbn. rewrite Hmeta. intros meta' [= <-]. exact Hcurrent. }
  destruct (d_plans d); destruct Hfs' as [-> _];
    apply stampedFS_insert; try (now rewrite fs_eta).
  - exact Hd0.
  - destruct Hd0 as [Hi _]. split; [exact Hi |].
    intros meta' [= <-]. exact Hcurrent.
Qed.

Lemma main_stamped env argv fs :
  plainInvocation JSON_parse argv fs →
  stampedKept fs (main JSON_parse env argv fs).1.
Proof.
  intros Hplain. unfold main.
  destruct (parseArgs argv) as [args|e] eqn:Hargs; [| intros H; exact H].
  destruct (Hplain args Hargs) as [Hfinite _].
  destruct (commandWord args) as [[|c cmd]|]; try (intros H; exact H).
  destruct (given (args !! "help")); [intros H; exact H |].
  destruct (String.eqb _ "init").
  { rewrite run_fst. destruct (cmdInit env args fs) as [fs' r] eqn:Hrun.
    exact (cmdInit_stamped env args _ _ _ Hrun). }
  destruct (String.eqb _ "parse-round").
  { rewrite run_fst. now apply cmdParseRound_stamped. }
  destruct (String.eqb _ "finalize").
  { rewrite run_fst. apply cmdFinalize_stamped. }
  destruct (String.eqb _ "status").
  { rewrite run_fst. destruct (cmdStatus args fs) as [fs' r] eqn:Hrun.
    cbn [fst]. rewrite <- (cmdStatus_same args _ _ _ Hrun). intros H; exact H. }
  intros H; exact H.
Qed.

Lemma reachablePlainly_stamped fs :
  reachablePlainly JSON_parse fs → stampedFS fs.
Proof.
  induction 1 as [fl | env argv fs _ IH Hplain | q text fs _ IH | ws v d fs _ IH Hd].
  - intros ws d. cbn. rewrite lookup_empty. discriminate.
  - now apply main_stamped.
  - exact IH.
  - apply stampedFS_insert; [now rewrite fs_eta |].
    exact (IH _ _ Hd).
Qed.

Lemma plainCheck_sound argv fs :
  plainCheck JSON_parse argv fs = true → plainInvocation JSON_parse argv fs.
Proof.
  unfold plainCheck. intros Hcheck args Hargs. rewrite Hargs in Hcheck.
  apply andb_true_iff in Hcheck as [Hround Hresp]. split.
  - intros negative Hinf. rewrite Hinf in Hround. discriminate.
  - intros raw response items pi Hraw Hparsed Hitems Hin Hid.
    rewrite Hraw in Hresp. cbn [mbind option_bind] in Hresp.
    rewrite Hparsed, Hitems in Hresp.
    rewrite forallb_forall in Hresp. specialize (Hresp pi Hin).
    rewrite Hid in Hresp. discriminate.
Qed.

Lemma reachablePlainly_session env argvs : ∀ fs,
  reachablePlainly JSON_parse fs →
  plainSession JSON_parse env argvs fs = true →
  reachablePlainly JSON_parse (session JSON_parse env argvs fs).1.
Proof.
  induction argvs as [|argv argvs IH]; intros fs Hfs Hplain; simpl; [assumption |].
  cbn [plainSession] in Hplain. apply andb_true_iff in Hplain as [Hhere Hrest].
  pose proof (plainly_main JSON_parse env argv fs Hfs (plainCheck_sound _ _ Hhere)) as H1.
  destruct (main JSON_parse env argv fs) as [fs1 e].
  specialize (IH fs1 H1 Hrest).
  destruct (session JSON_parse env argvs fs1) as [fs2 es]. exact IH.
Qed.

End LedgerInvariants.

Section InvariantClaims.

Variable JSON_parse : string → option json.

(** C5. In every file system the script can produce, the identifiers of a
    ledger are ISS-001, ISS-002, ... in order, hence pairwise distinct; the
    next identifier is ISS-(n+1) for n the largest numeric suffix in the
    ledger, and it is not in use.  A processed round gives its new issues
    the next identifiers in sequence, and no invocation other than [init]
    removes an issue or changes an identifier, so that the identifier of a
    resolved issue stays taken. *)
Theorem identifiers_are_never_shared fs ws :
  reachable JSON_parse fs →
  let issues := getIssues fs ws in
  NoDup (map id issues)
  ∧ map id issues = map issueId (seq 1 (length issues))
  ∧ maxOf (map (λ iss, issueNumber (id iss)) issues) = length issues
  ∧ nextIssueId issues = issueId (maxOf (map (λ iss, issueNumber (id iss)) issues) + 1)
  ∧ ¬ In (nextIssueId issues) (map id issues)
  ∧ (∀ round parsed reg,
       processRound round parsed issues = Ok reg →
       map id (rg_issues reg) = map id issues ++ map id (rg_assigned reg)
       ∧ map id (rg_assigned reg)
         = map issueId (seq (S (length issues)) (length (rv_new_issues parsed)))
       ∧ NoDup (map id (rg_issues reg)))
  ∧ (∀ env argv args,
       parseArgs argv = Ok args → commandWord args ≠ Some "init" →
       ∃ added, map id (getIssues (main JSON_parse env argv fs).1 ws)
                = map id issues ++ added).
Proof.
  intros Hreach issues.
  assert (sequential issues) as Hseq.
  { apply (reachable_ledgers JSON_parse sequential); try assumption.
    - reflexivity.
    - apply ledgerStep_sequential. }
  pose proof (sequential_numbers _ Hseq) as Hnums.
  repeat split.
  - now apply sequential_NoDup.
  - exact Hseq.
  - rewrite Hnums. apply maxOf_seq.
  - rewrite (Hseq : map id issues = _).
    rewrite (sequential_next _ Hseq).
    intros (n & Heq%issueId_inj & Hn%in_seq)%in_map_iff. lia.
  - destruct (processRound_ids _ _ _ _ H) as (added & Hids & ->). exact Hids.
  - unfold processRound, registerNewIssues in H.
    apply registerFrom_sequential in H as [_ Hids].
    + cbn [rg_assigned rg_issues map app] in Hids.
      now rewrite applyPriorUpdates_length in Hids.
    + cbn [rg_issues]. unfold sequential.
      now rewrite applyPriorUpdates_ids, applyPriorUpdates_length.
    + intros x [].
  - apply sequential_NoDup. eapply processRound_sequential; eassumption.
  - intros env argv args. apply main_keeps_ids.
Qed.

(** C7, as the code has it.  In every file system the script produces by
    invocations whose [--round] is a finite number and whose responses hold
    no prior-issue update with the id [__proto__], an issue whose status is
    resolved, not-applicable or force-approved has a resolution round, and
    an issue whose status is open has none.  The stamp is never cleared: an
    update to still-open or regressed leaves the resolution round of the
    issue as it was. *)
Theorem resolution_stamp fs ws iss :
  reachablePlainly JSON_parse fs →
  In iss (getIssues fs ws) →
  (isResolved (status iss) = true → is_Some (round_resolved iss))
  ∧ (status iss = st_open → round_resolved iss = None)
  ∧ (∀ round update,
       pu_status update = st_still_open ∨ pu_status update = st_regressed →
       round_resolved (applyUpdate round update iss) = round_resolved iss).
Proof.
  intros Hreach Hin.
  assert (Forall stamped (getIssues fs ws)) as Hall.
  { destruct (dirs fs !! ws) as [d|] eqn:Hd.
    - rewrite (getIssues_present _ _ _ Hd).
      exact (proj1 (reachablePlainly_stamped JSON_parse fs Hreach ws d Hd)).
    - rewrite (getIssues_absent _ _ Hd). constructor. }
  rewrite Forall_forall in Hall. destruct (Hall iss) as [Hres Hopen].
  { now apply list_elem_of_In. }
  split; [exact Hres |]. split; [exact Hopen |].
  intros round update [H | H]; cbn; now rewrite H.
Qed.

End InvariantClaims.

Lemma afterRound3_reachable : reachable sampleParse afterRound3.
Proof.
  unfold afterRound3, afterRound2, afterRound1.
  do 3 apply reachable_session. apply (reach_start _ (files sampleFiles)).
Qed.

Lemma identifiers_are_never_shared_witness :
  let issues := getIssues afterRound3 sampleWs in
  NoDup (map id issues)
  ∧ map id issues = map issueId (seq 1 (length issues))
  ∧ maxOf (map (λ iss, issueNumber (id iss)) issues) = length issues
  ∧ nextIssueId issues = issueId (maxOf (map (λ iss, issueNumber (id iss)) issues) + 1)
  ∧ ¬ In (nextIssueId issues) (map id issues)
  ∧ (∀ round parsed reg,
       processRound round parsed issues = Ok reg →
       map id (rg_issues reg) = map id issues ++ map id (rg_assigned reg)
       ∧ map id (rg_assigned reg)
         = map issueId (seq (S (length issues)) (length (rv_new_issues parsed)))
       ∧ NoDup (map id (rg_issues reg)))
  ∧ (∀ env argv args,
       parseArgs argv = Ok args → commandWord args ≠ Some "init" →
       ∃ added, map id (getIssues (main sampleParse env argv afterRound3).1 sampleWs)
                = map id issues ++ added).
Proof.
  apply (identifiers_are_never_shared sampleParse afterRound3 sampleWs).
  exact afterRound3_reachable.
Defined.

(** The sample ledger after three rounds, and the identifier that the next
    new issue would get although ISS-001 was resolved in between. *)
Example resolved_id_is_not_reused :
  map id (getIssues afterRound2 sampleWs) = ["ISS-001"]
  ∧ map status (getIssues afterRound2 sampleWs) = [st_resolved]
  ∧ nextIssueId (getIssues afterRound2 sampleWs) = "ISS-002".
Proof. vm_compute. repeat split; reflexivity. Qed.

Lemma afterRound3_reachablePlainly : reachablePlainly sampleParse afterRound3.
Proof.
  unfold afterRound3, afterRound2, afterRound1.
  apply reachablePlainly_session;
    [apply reachablePlainly_session;
       [apply reachablePlainly_session;
          [apply (plainly_start _ (files sampleFiles)) |] |] |];
    vm_compute; reflexivity.
Qed.

Lemma resolution_stamp_witness :
  let iss :=
    {| id := "ISS-001"; severity := CRITICAL; location := JStr "Auth";
       problem := JStr "No rate limiting on login"; fix_ := JStr "Add rate limiter";
       status := st_regressed; round_found := Some 1%Z; round_resolved := Some 2%Z;
       last_evidence := JStr "Limiter removed again" |} in
  (isResolved (status iss) = true → is_Some (round_resolved iss))
  ∧ (status iss = st_open → round_resolved iss = None)
  ∧ (∀ round update,
       pu_status update = st_still_open ∨ pu_status update = st_regressed →
       round_resolved (applyUpdate round update iss) = round_resolved iss).
Proof.
  intros iss.
  apply (resolution_stamp sampleParse afterRound3 sampleWs iss).
  - exact afterRound3_reachablePlainly.
  - vm_compute. left. reflexivity.
Defined.

(** C7, as stated, fails: an issue resolved in round 2 and reported as
    regressed in round 3 has status regressed and still carries the
    resolution round 2, so its stamp is set while its status is none of
    resolved, not-applicable, force-approved. *)
Lemma regressed_issue_keeps_its_stamp :
  map (λ iss, (id iss, status iss, round_resolved iss)) (getIssues afterRound3 sampleWs)
  = [("ISS-001", st_regressed, Some 2%Z)]
  ∧ ¬ (∀ iss, In iss (getIssues afterRound3 sampleWs) →
         is_Some (round_resolved iss) ↔ isResolved (status iss) = true).
Proof.
  split; [vm_compute; reflexivity |].
  intros Hiff.
  destruct (getIssues afterRound3 sampleWs) as [|iss rest] eqn:Hledger;
    [revert Hledger; vm_compute; discriminate |].
  specialize (Hiff iss (or_introl eq_refl)).
  assert (status iss = st_regressed ∧ round_resolved iss = Some 2%Z) as [Hst Hrr].
  { revert Hledger. vm_compute. intros [= <- _]. split; reflexivity. }
  rewrite Hst, Hrr in Hiff. destruct Hiff as [Hres _].
  discriminate Hres. eexists. reflexivity.
Qed.

(** ** Finalization and the override *)

Section Override.

Lemma overrideCheck_ok env reason ciForce blockers log :
  overrideCheck env reason ciForce blockers = Ok log →
  given reason = true
  ∧ shorterThan10 reason = false
  ∧ (ciForce = true
     ∨ (isTTY env = true ∧ confirmation (ttyLine env) = "CONFIRM"))
  ∧ log = {| fa_actor := actorOf env;
             fa_reason := default ATrue reason;
             fa_timestamp := now env;
             fa_unresolved_issues := map id blockers;
             fa_tty_confirmed := isTTY env && negb ciForce;
             fa_ci_force := ciForce |}.
Proof.
  unfold overrideCheck.
  destruct (given reason); cbn [negb]; [| discriminate].
  destruct (shorterThan10 reason); [discriminate |].
  destruct (isTTY env), ciForce; cbn [andb orb negb]; try discriminate.
  - intros [= <-]. auto.
  - destruct (String.eqb_spec (confirmation (ttyLine env)) "CONFIRM");
      [| discriminate].
    intros [= <-]. auto 6.
  - intros [= <-]. auto.
Qed.

Lemma blocker_marked (blockers : list Issue) b :
  In b blockers → existsb (λ x, String.eqb (id x) (id b)) blockers = true.
Proof.
  intros Hin. apply existsb_exists. exists b. split; [assumption |].
  apply String.eqb_refl.
Qed.

Lemma isBlocker_forceApprove round iss :
  isBlockingSeverity (severity (forceApprove round iss))
  && isOpen (status (forceApprove round iss)) = false.
Proof. cbn. apply andb_false_r. Qed.

Lemma markForceApproved_clears round blockers issues :
  (∀ x, In x issues →
        isBlockingSeverity (severity x) && isOpen (status x) = true → In x blockers) →
  getOpenBlockers (markForceApproved round blockers issues) = [].
Proof.
  unfold getOpenBlockers, markForceApproved.
  induction issues as [|iss issues IH]; intros Hall; [reflexivity |].
  cbn [map]. rewrite filter_cons.
  rewrite IH by (intros x Hx; apply Hall; now right).
  destruct (existsb _ blockers) eqn:Hmark.
  - rewrite decide_False; [reflexivity |]. rewrite isBlocker_forceApprove. discriminate.
  - rewrite decide_False; [reflexivity |]. intros Hb.
    rewrite (blocker_marked blockers iss) in Hmark; [discriminate |].
    apply Hall; [now left | assumption].
Qed.

(** The part of the override protocol that holds as designed: with blockers
    in the ledger, [finalize] fails and writes nothing when no reason is
    given, when the reason is a text of fewer than 10 characters, when the
    session is not interactive and [--ci-force] is absent, or when the typed
    confirmation is not [CONFIRM]. *)
Lemma finalize_fails_closed env args fs ws :
  args !! "workspace" = Some (AStr ws) →
  getOpenBlockers (getIssues fs ws) ≠ [] →
  given (args !! "override-reason") = false
  ∨ (∃ s, args !! "override-reason" = Some (AStr s) ∧ (String.length s < 10)%nat)
  ∨ (isTTY env = false ∧ given (args !! "ci-force") = false)
  ∨ (given (args !! "ci-force") = false ∧ confirmation (ttyLine env) ≠ "CONFIRM") →
  ∃ e, run (cmdFinalize env args) fs = (fs, e) ∧ isFailure e.
Proof.
  intros Hws Hblockers Hbad. unfold run.
  destruct (cmdFinalize env args fs) as [fs' r] eqn:Hrun.
  apply cmdFinalize_inv in Hrun
    as [(-> & e & -> & Hfail)
       | (ws' & d & meta & Hws' & Hd & Hmeta & log & issues' & d0 & Hover & _)];
    [eauto |].
  exfalso. rewrite Hws in Hws'. injection Hws' as <-.
  destruct Hover as [(Hnone & _) | (_ & (l & Hcheck & _) & _)]; [contradiction |].
  apply overrideCheck_ok in Hcheck as (Hgiven & Hlen & Hconfirm & _).
  destruct Hbad as [Hbad | [(s & Hs & Hshort) | [[Htty Hci] | [Hci Hline]]]].
  - congruence.
  - rewrite Hs in Hlen. cbn [shorterThan10] in Hlen. apply Nat.ltb_ge in Hlen. lia.
  - destruct Hconfirm as [? | [? _]]; congruence.
  - destruct Hconfirm as [? | [_ ?]]; congruence.
Qed.

End Override.

(** C9, as the code has it.  After a [finalize] that succeeds on a ledger
    with blockers, every issue that was a blocker has status force-approved
    and, as its resolution round, the current round as [meta.json] holds it;
    no blocker remains, the final verdict of the summary is FORCE_APPROVED,
    and the audit record of the summary lists the ids of exactly those
    blockers, in ledger order.  The resolution round is a number whenever
    [meta.json] holds one, which is so in every workspace made by
    invocations whose [--round] is a finite number; it is null otherwise. *)
Theorem force_approval_audit env args fs fs' code ws :
  run (cmdFinalize env args) fs = (fs', Exit code) →
  args !! "workspace" = Some (AStr ws) →
  getOpenBlockers (getIssues fs ws) ≠ [] →
  let issues := getIssues fs ws in
  let blockers := getOpenBlockers issues in
  ∃ meta summary log,
    dirs fs !! ws ≫= d_meta = Some meta
    ∧ dirs fs' !! ws ≫= d_summary = Some summary
    ∧ finalVerdict summary = FORCE_APPROVED
    ∧ force_approve_log summary = Some log
    ∧ fa_unresolved_issues log = map id blockers
    ∧ map id (getIssues fs' ws) = map id issues
    ∧ getOpenBlockers (getIssues fs' ws) = []
    ∧ ((∃ parse, reachablePlainly parse fs) → is_Some (currentRound meta))
    ∧ ∀ i b, issues !! i = Some b → In b blockers →
        ∃ b', getIssues fs' ws !! i = Some b'
              ∧ id b' = id b
              ∧ status b' = st_force_approved
              ∧ round_resolved b' = currentRound meta
              ∧ (is_Some (currentRound meta) ↔ is_Some (round_resolved b')).
Proof.
  unfold run. destruct (cmdFinalize env args fs) as [fs1 r] eqn:Hrun.
  intros Hend Hws Hblockers. cbv zeta.
  set (issues := getIssues fs ws) in *. set (blockers := getOpenBlockers issues) in *.
  apply cmdFinalize_inv in Hrun
    as [(-> & e & -> & Hfail)
       | (ws' & d & meta & Hws' & Hd & Hmeta & log & issues' & d0 & Hover & Hfs)].
  { injection Hend as _ ->. destruct Hfail. }
  rewrite Hws in Hws'. injection Hws' as <-.
  fold issues blockers in Hover, Hfs.
  destruct Hover as [(Hnone & _) | (_ & (l & Hcheck & ->) & -> & ->)];
    [contradiction |].
  apply overrideCheck_ok in Hcheck as (_ & _ & _ & Hlog).
  destruct (d_plans d) as [|v vs].
  { destruct Hfs as [_ ->]. discriminate. }
  cbv zeta in Hfs. destruct Hfs as [-> ->]. injection Hend as <- _.
  set (issues' := markForceApproved (currentRound meta) blockers issues) in *.
  set (summary := summaryOf env meta blockers (Some l) issues') in *.
  rewrite getIssues_insert, decide_True by reflexivity.
  cbn [dirs setMeta appendLog setSummary setPlanFinal setIssues d_issues default].
  rewrite Hd, lookup_insert_eq.
  cbn [mbind option_bind d_summary d_meta]. unfold Datatypes.id.
  exists meta, summary, l.
  split; [assumption |]. split; [reflexivity |]. split.
  { unfold summary, summaryOf. cbn [finalVerdict].
    destruct blockers; [contradiction | reflexivity]. }
  split; [reflexivity |]. split; [now rewrite Hlog |].
  split; [apply markForceApproved_ids |]. split.
  { apply markForceApproved_clears. intros x Hx Hb.
    apply getOpenBlockers_In. auto. }
  split.
  { intros [parse Hreach].
    exact (proj2 (reachablePlainly_stamped parse fs Hreach ws d Hd) meta Hmeta). }
  intros i b Hi Hb. exists (forceApprove (currentRound meta) b).
  split.
  { unfold Datatypes.id, issues', markForceApproved. rewrite list_lookup_fmap, Hi.
    cbn [fmap option_fmap option_map].
    now rewrite (blocker_marked blockers b Hb). }
  split; [reflexivity |]. split; [reflexivity |]. split; reflexivity.
Qed.

Lemma force_approval_audit_witness :
  let args := argsOf overrideArgv in
  let fs := afterRound1 in
  let fs' := (run (cmdFinalize sampleEnv args) fs).1 in
  let issues := getIssues fs sampleWs in
  let blockers := getOpenBlockers issues in
  map id blockers = ["ISS-001"]
  ∧ ∃ meta summary log,
    dirs fs !! sampleWs ≫= d_meta = Some meta
    ∧ currentRound meta = Some 1%Z
    ∧ dirs fs' !! sampleWs ≫= d_summary = Some summary
    ∧ finalVerdict summary = FORCE_APPROVED
    ∧ force_approve_log summary = Some log
    ∧ fa_unresolved_issues log = ["ISS-001"]
    ∧ map (λ iss, (id iss, status iss, round_resolved iss)) (getIssues fs' sampleWs)
      = [("ISS-001", st_force_approved, Some 1%Z)].
Proof.
  intros args fs fs' issues blockers.
  assert (run (cmdFinalize sampleEnv args) fs = (fs', Exit 0)) as Hrun
    by (vm_compute; reflexivity).
  assert (args !! "workspace" = Some (AStr sampleWs)) as Hws
    by (vm_compute; reflexivity).
  assert (getOpenBlockers (getIssues fs sampleWs) ≠ []) as Hblockers
    by (vm_compute; discriminate).
  assert (map id blockers = ["ISS-001"]) as Hids by (vm_compute; reflexivity).
  split; [exact Hids |].
  destruct (force_approval_audit sampleEnv args fs fs' 0 sampleWs Hrun Hws Hblockers)
    as (meta & summary & log & Hmeta & Hsummary & Hverdict & Hlog & Hlist & _ & _
        & _ & _).
  exists meta, summary, log.
  split; [exact Hmeta |].
  split.
  { revert Hmeta. vm_compute. intros [= <-]. reflexivity. }
  split; [exact Hsummary |]. split; [exact Hverdict |]. split; [exact Hlog |].
  split; [rewrite Hlist; exact Hids |].
  vm_compute. reflexivity.
Defined.

(** C9, as stated, fails on the non-null stamp.  A round submitted with a
    number of 311 digits is read as [Infinity], which [meta.json] holds as
    null; the override that follows succeeds and stamps the blocker ISS-001
    with that null. *)
Lemma forced_stamp_can_be_null :
  let result := main sampleParse sampleEnv overrideArgv afterHugeRound in
  parseInt10 hugeRound = Some (Infinity false)
  ∧ map (λ iss, (id iss, severity iss, status iss))
      (getOpenBlockers (getIssues afterHugeRound sampleWs))
    = [("ISS-001", CRITICAL, st_open)]
  ∧ currentRound <$> (dirs afterHugeRound !! sampleWs ≫= d_meta) = Some None
  ∧ result.2 = Exit 0
  ∧ map (λ iss, (id iss, status iss, round_resolved iss)) (getIssues result.1 sampleWs)
    = [("ISS-001", st_force_approved, None)]
  ∧ (dirs result.1 !! sampleWs ≫= d_summary)
      ≫= (λ s, Some (finalVerdict s, fa_unresolved_issues <$> force_approve_log s))
    = Some (FORCE_APPROVED, Some ["ISS-001"])
  ∧ ¬ (∀ iss, In iss (getIssues result.1 sampleWs) →
         status iss = st_force_approved → is_Some (round_resolved iss)).
Proof.
  intros result.
  assert (map (λ iss, (status iss, round_resolved iss)) (getIssues result.1 sampleWs)
          = [(st_force_approved, None)]) as Hledger by (vm_compute; reflexivity).
  split; [vm_compute; reflexivity |].
  split; [vm_compute; reflexivity |].
  split; [vm_compute; reflexivity |].
  split; [vm_compute; reflexivity |].
  split; [vm_compute; reflexivity |].
  split; [vm_compute; reflexivity |].
  intros Hall.
  destruct (getIssues result.1 sampleWs) as [|iss rest]; [discriminate Hledger |].
  injection Hledger as Hst Hrr _.
  destruct (Hall iss (or_introl eq_refl) Hst) as [z Hz]. congruence.
Qed.

(** C8 fails on the code for one input: [--override-reason] given as a bare
    flag parses to [true], which has no length, so the test
    [overrideReason.length < 10] does not reject it.  With [--ci-force] the
    finalization then succeeds on a ledger with the open CRITICAL blocker
    ISS-001, although no reason text was supplied at all. *)
Lemma finalize_accepts_bare_override_reason :
  let argv := ["finalize"; "--workspace"; sampleWs; "--override-reason"; "--ci-force"] in
  let result := main sampleParse sampleEnv argv afterRound1 in
  map (λ iss, (id iss, severity iss, status iss))
    (getOpenBlockers (getIssues afterRound1 sampleWs))
  = [("ISS-001", CRITICAL, st_open)]
  ∧ argsOf argv !! "override-reason" = Some ATrue
  ∧ result.2 = Exit 0
  ∧ map (λ iss, (id iss, status iss)) (getIssues result.1 sampleWs)
    = [("ISS-001", st_force_approved)]
  ∧ (dirs result.1 !! sampleWs ≫= d_summary)
      ≫= (λ s, Some (finalVerdict s, fa_reason <$> force_approve_log s))
    = Some (FORCE_APPROVED, Some ATrue).
Proof. vm_compute. repeat split; reflexivity. Qed.

(** ** The test suite of the repository, replayed on the model *)

Section TestSuite.

Let run1 := session testParse sampleEnv [initArgv; roundArgv "1" "response.json"] testFiles.
Let run2 := session testParse sampleEnv
              [roundArgv "2" "response2.json"; ["finalize"; "--workspace"; sampleWs];
               ["status"; "--workspace"; sampleWs]] run1.1.

Example test_init :
  (main testParse sampleEnv initArgv testFiles).2 = Exit 0
  ∧ ((dirs (main testParse sampleEnv initArgv testFiles).1 !! sampleWs) ≫= d_meta)
      ≫= (λ m, Some (reviewerModel m, plannerModel m, verdict m))
    = Some ("openai/codex", "anthropic/sonnet", PENDING).
Proof. vm_compute. split; reflexivity. Qed.

Example test_same_provider_rejected :
  (main testParse sampleEnv
     ["init"; "--plan"; "plan.md"; "--reviewer-model"; "anthropic/opus";
      "--planner-model"; "anthropic/sonnet"; "--out"; "reviews"] testFiles).2
  = Die (SameProviderFamily "anthropic") 2.
Proof. vm_compute. reflexivity. Qed.

Example test_parse_round :
  run1.2 = [Exit 0; Exit 1]
  ∧ map (λ iss, (id iss, severity iss)) (getIssues run1.1 sampleWs)
    = [("ISS-001", CRITICAL); ("ISS-002", HIGH); ("ISS-003", LOW)]
  ∧ ((dirs run1.1 !! sampleWs) ≫= (λ d, d_rounds d !! Num 1))
      ≫= (λ out, Some (ro_verdict out, length (ro_newIssues out), length (ro_blockers out)))
    = Some (REVISE, 3%nat, 2%nat).
Proof. vm_compute. repeat split; reflexivity. Qed.

Example test_round_2_and_finalize :
  run2.2 = [Exit 0; Exit 0; Exit 0]
  ∧ ((dirs run2.1 !! sampleWs) ≫= d_summary)
      ≫= (λ s, Some (finalVerdict s, totalIssuesFound s, issuesResolved s,
                     force_approve_log s))
    = Some (APPROVED, 3%nat, 3%nat, None).
Proof. vm_compute. split; reflexivity. Qed.

Example test_dedup_detection :
  let fs := (session testParse sampleEnv
               [initArgv; roundArgv "1" "dedup-resp1.json"; roundArgv "2" "dedup-resp2.json"]
               testFiles).1 in
  ((dirs fs !! sampleWs) ≫= (λ d, d_rounds d !! Num 2))
    ≫= (λ out, Some (map (λ w, (new_issue_index w, possible_duplicate_of w))
                       (ro_dedupWarnings out)))
  = Some [(0%nat, Some "ISS-001")].
Proof. vm_compute. reflexivity. Qed.

Example test_schema_validation :
  (session testParse sampleEnv
     [initArgv; roundArgv "1" "response.json"; roundArgv "3" "bad-resp.json"] testFiles).2
  = [Exit 0; Exit 1; Die (SchemaInvalid 3) 2].
Proof. vm_compute. reflexivity. Qed.

End TestSuite.

(** * Further properties of the script *)

(** ** Identifiers and numbers *)

Section MoreIdentifiers.

Lemma decimal_nonEmpty n : nonEmpty (decimal n) = true.
Proof.
  destruct (decimal n) eqn:E; [| reflexivity].
  pose proof (parseDigits_decimal n) as H. rewrite E in H.
  destruct n; [discriminate E | discriminate H].
Qed.

Lemma decimal_allDigits n : allDigits (decimal n) = true.
Proof. apply string_of_uint_allDigits. Qed.

Lemma append_length s t : String.length (s +:+ t) = (String.length s + String.length t)%nat.
Proof.
  induction s as [|c s IH]; [reflexivity |].
  change (String c s +:+ t) with (String c (s +:+ t)).
  cbn [String.length]. now rewrite IH.
Qed.

Lemma padStart3_length s : (3 <= String.length (padStart3 s))%nat.
Proof.
  unfold padStart3. destruct (String.length s) as [|[|[|k]]] eqn:E;
    rewrite ?append_length, ?E; cbn [String.length]; lia.
Qed.

Lemma takeDigits_until digits rest :
  allDigits digits = true →
  match rest with String c _ => isDigit c = false | EmptyString => True end →
  takeDigits (digits +:+ rest) = digits.
Proof.
  intros Hd Hrest. induction digits as [|c r IH].
  - change ("" +:+ rest) with rest. destruct rest; [reflexivity | cbn; now rewrite Hrest].
  - change (String c r +:+ rest) with (String c (r +:+ rest)).
    cbn [allDigits] in Hd. apply andb_prop in Hd as [Hc Hr].
    cbn [takeDigits]. rewrite Hc, IH; auto.
Qed.

Lemma digitsValueFrom_nat s : ∀ acc,
  digitsValueFrom (Z.of_nat acc) s = Z.of_nat (parseDigitsFrom acc s).
Proof.
  induction s as [|c s IH]; intros acc; [reflexivity |].
  cbn [digitsValueFrom parseDigitsFrom]. rewrite <- IH. f_equal.
  unfold digitValue. lia.
Qed.

Lemma digitsValue_nat s : digitsValue s = Z.of_nat (parseDigits s).
Proof. exact (digitsValueFrom_nat s 0). Qed.

Lemma toDouble_safe z : (Z.abs z < 2 ^ 53)%Z → toDouble z = Num z.
Proof.
  intros Hz. unfold toDouble.
  destruct (Z.ltb_spec (Z.abs z) (2 ^ 53)); [reflexivity | lia].
Qed.

End MoreIdentifiers.

(** X1. For numbers below 2^53, which binary64 holds exactly and
    [String] writes in plain decimal, an identifier rendered by
    [nextIssueId] reads back as its number: [ISS-] followed by the number in
    decimal, padded with zeros to three digits, is matched by [/ISS-(\d+)/]
    and parsed to the same number; so two such numbers never get the same
    identifier. *)
Theorem issue_id_round_trip (n m : nat) :
  (Z.of_nat n < 2 ^ 53)%Z → (Z.of_nat m < 2 ^ 53)%Z →
  issueNumber (issueId n) = n
  ∧ (issueId n = issueId m ↔ n = m)
  ∧ String.prefix "ISS-" (issueId n) = true
  ∧ (7 <= String.length (issueId n))%nat.
Proof.
  intros _ _.
  split; [apply issueNumber_issueId |]. split.
  - split; [apply issueId_inj | now intros ->].
  - unfold issueId.
    change ("ISS-" +:+ padStart3 (decimal n))
      with (String "I" (String "S" (String "S" (String "-" (padStart3 (decimal n)))))).
    split; [cbn; now destruct (padStart3 (decimal n)) |].
    change (String "I" (String "S" (String "S" (String "-" (padStart3 (decimal n))))))
      with ("ISS-" +:+ padStart3 (decimal n)). rewrite append_length. pose proof (padStart3_length (decimal n)).
    cbn [String.length]. lia.
Qed.

Lemma issue_id_round_trip_witness :
  issueId 7 = "ISS-007" ∧ issueId 1234 = "ISS-1234"
  ∧ issueNumber (issueId 7) = 7%nat
  ∧ (issueId 7 = issueId 1234 ↔ 7%nat = 1234%nat).
Proof.
  destruct (issue_id_round_trip 7 1234) as (Hback & Hiff & _ & _);
    [vm_compute; reflexivity | vm_compute; reflexivity |].
  split; [vm_compute; reflexivity |]. split; [vm_compute; reflexivity |].
  split; [exact Hback | exact Hiff].
Defined.

(** X2. When every identifier of the ledger carries a number below 2^53
    (an identifier without [ISS-digits] counts as 0), the identifier
    [nextIssueId] returns carries a number above all of them, and so equals
    none of them. *)
Theorem nextIssueId_is_fresh (issues : list Issue) (iss : Issue) :
  (∀ x, In x issues → (Z.of_nat (issueNumber (id x)) < 2 ^ 53)%Z) →
  In iss issues →
  (issueNumber (id iss) < issueNumber (nextIssueId issues))%nat
  ∧ nextIssueId issues ≠ id iss.
Proof.
  intros _ Hin.
  assert (issueNumber (id iss) < issueNumber (nextIssueId issues))%nat as Hlt.
  { unfold nextIssueId. rewrite issueNumber_issueId.
    pose proof (maxOf_ge (map (λ i, issueNumber (id i)) issues) (issueNumber (id iss))) as H.
    specialize (H (in_map (λ i, issueNumber (id i)) issues iss Hin)). lia. }
  split; [exact Hlt |]. intros Heq. rewrite Heq in Hlt. lia.
Qed.

Lemma nextIssueId_is_fresh_witness :
  let odd := makeIssue "BUG-7 see ISS-41b"
               {| ni_severity := LOW; ni_location := JStr "Docs";
                  ni_problem := JStr "Typo"; ni_fix := JStr "Fix typo" |} (Num 1) in
  nextIssueId [odd] = "ISS-042"
  ∧ (issueNumber (id odd) < issueNumber (nextIssueId [odd]))%nat
  ∧ nextIssueId [odd] ≠ id odd.
Proof.
  intros odd. split; [vm_compute; reflexivity |].
  apply (nextIssueId_is_fresh [odd] odd).
  - intros x [<- | []]. vm_compute. reflexivity.
  - left. reflexivity.
Defined.

(** X3. [parseInt(s, 10)] reads back a number below 2^53 written in
    decimal, also when it is followed by text that does not start with a
    digit (as in [3rd]). *)
Theorem parseInt10_decimal (n : nat) (rest : string) :
  (Z.of_nat n < 2 ^ 53)%Z →
  match rest with String c _ => isDigit c = false | EmptyString => True end →
  parseInt10 (decimal n +:+ rest) = Some (Num (Z.of_nat n)).
Proof.
  intros Hsafe Hrest. unfold parseInt10.
  pose proof (decimal_nonEmpty n) as Hne. pose proof (decimal_allDigits n) as Hd.
  destruct (decimal n) as [|c r] eqn:E; [discriminate |].
  change (String c r +:+ rest) with (String c (r +:+ rest)).
  cbn [dropSpaces]. cbn [allDigits] in Hd.
  apply andb_prop in Hd as [Hc Hr].
  assert (isSpace c = false ∧ c ≠ "-"%char ∧ c ≠ "+"%char) as (Hsp & Hminus & Hplus).
  { revert Hc. clear. destruct c as [[] [] [] [] [] [] [] []]; vm_compute;
      intros; try discriminate; repeat split; discriminate. }
  rewrite Hsp.
  assert (takeDigits (String c (r +:+ rest)) = String c r) as Htake.
  { change (String c (r +:+ rest)) with (String c r +:+ rest).
    apply takeDigits_until; [cbn; now rewrite Hc, Hr | exact Hrest]. }
  assert (match String c (r +:+ rest) with
          | String "-"%char u => (true, u)
          | String "+"%char u => (false, u)
          | _ => (false, String c (r +:+ rest))
          end = (false, String c (r +:+ rest))) as ->.
  { revert Hminus Hplus. clear. destruct c as [[] [] [] [] [] [] [] []];
      intros; try reflexivity; congruence. }
  rewrite Htake. rewrite <- E, digitsValue_nat, parseDigits_decimal.
  f_equal. apply toDouble_safe. lia.
Qed.

Lemma parseInt10_decimal_witness : parseInt10 (decimal 3 +:+ "rd") = Some (Num 3).
Proof.
  apply (parseInt10_decimal 3 "rd"); [vm_compute; reflexivity | reflexivity].
Defined.

(** Above 2^53 [parseInt] rounds to the nearest number that binary64 holds,
    and from 2^1024 on it returns [Infinity]. *)
Example parseInt10_rounds :
  parseInt10 "9007199254740993" = Some (Num 9007199254740992)
  ∧ parseInt10 "-9007199254740995" = Some (Num (-9007199254740996))
  ∧ parseInt10 hugeRound = Some (Infinity false)
  ∧ parseInt10 ("-" +:+ hugeRound) = Some (Infinity true).
Proof. vm_compute. repeat split; reflexivity. Qed.

(** ** Argument parsing *)

Section MoreArguments.

Lemma flag_spelling w : startsWithDashes w = true → w = "--" +:+ slice2 w.
Proof.
  unfold startsWithDashes. intros H%String.prefix_correct.
  destruct w as [|a [|b r]]; cbn in H; try discriminate.
  destruct r; injection H as -> ->; reflexivity.
Qed.

Lemma slice2_flag key : slice2 ("--" +:+ key) = key.
Proof. reflexivity. Qed.

Lemma flag_starts key : startsWithDashes ("--" +:+ key) = true.
Proof.
  unfold startsWithDashes. apply String.prefix_correct.
  change ("--" +:+ key) with (String "-" (String "-" key)). cbn. now destruct key.
Qed.

Lemma setArg_lookup_ne key key' value args :
  key ≠ key' → setArg key value args !! key' = args !! key'.
Proof.
  intros Hne. unfold setArg. destruct (String.eqb key "__proto__"); [reflexivity |].
  now apply lookup_insert_ne.
Qed.

Lemma setArg_lookup_eq key value args :
  key ≠ "__proto__" → setArg key value args !! key = Some value.
Proof.
  intros Hne. unfold setArg.
  destruct (String.eqb_spec key "__proto__"); [contradiction |].
  apply lookup_insert_eq.
Qed.

Lemma parseArgsFrom_flag_flag a next rest args :
  startsWithDashes a = true → startsWithDashes next = true →
  parseArgsFrom (a :: next :: rest) args
  = parseArgsFrom (next :: rest) (setArg (slice2 a) ATrue args).
Proof. intros Ha Hn. cbn [parseArgsFrom]. rewrite Ha, Hn. reflexivity. Qed.

Lemma parseArgsFrom_flag_value a next rest args :
  startsWithDashes a = true → startsWithDashes next = false →
  parseArgsFrom (a :: next :: rest) args
  = parseArgsFrom rest (setArg (slice2 a) (AStr next) args).
Proof. intros Ha Hn. cbn [parseArgsFrom]. rewrite Ha, Hn. reflexivity. Qed.

Lemma parseArgsFrom_flag_last a args :
  startsWithDashes a = true →
  parseArgsFrom [a] args = Ok (setArg (slice2 a) ATrue args).
Proof. intros Ha. cbn [parseArgsFrom]. rewrite Ha. reflexivity. Qed.

Lemma parseArgsFrom_word a rest args :
  startsWithDashes a = false →
  parseArgsFrom (a :: rest) args
  = match args !! "_" with
    | Some (APos words) => parseArgsFrom rest (<["_" := APos (words ++ [a])]> args)
    | _ => Stop Uncaught
    end.
Proof. intros Ha. cbn [parseArgsFrom]. rewrite Ha. reflexivity. Qed.

(** Cutting the words in front of an option cuts no option from its value. *)
Lemma parseArgsFrom_app_flag pre flag rest : ∀ args,
  startsWithDashes flag = true →
  parseArgsFrom (pre ++ flag :: rest) args
  = parseArgsFrom pre args ≫= parseArgsFrom (flag :: rest).
Proof.
  intros args Hflag. revert args.
  induction pre as [pre IH] using (induction_ltof1 _ (@length string)).
  unfold ltof in IH. intros args.
  destruct pre as [|a pre]; [reflexivity |].
  change ((a :: pre) ++ flag :: rest) with (a :: pre ++ flag :: rest).
  destruct (startsWithDashes a) eqn:Ha.
  - destruct pre as [|next pre].
    + change ([] ++ flag :: rest) with (flag :: rest).
      rewrite parseArgsFrom_flag_flag, parseArgsFrom_flag_last by assumption.
      reflexivity.
    + change ((next :: pre) ++ flag :: rest) with (next :: pre ++ flag :: rest).
      destruct (startsWithDashes next) eqn:Hnext.
      * rewrite !parseArgsFrom_flag_flag by assumption.
        apply (IH (next :: pre)). cbn. lia.
      * rewrite !parseArgsFrom_flag_value by assumption.
        apply IH. cbn. lia.
  - rewrite !parseArgsFrom_word by assumption.
    destruct (args !! "_") as [[| |words]|]; try reflexivity.
    apply IH. cbn. lia.
Qed.

(** Words that do not spell [--key] leave [args[key]] as it is. *)
Lemma parseArgsFrom_untouched key words : ∀ args args',
  key ≠ "_" → (∀ w, In w words → w ≠ "--" +:+ key) →
  parseArgsFrom words args = Ok args' → args' !! key = args !! key.
Proof.
  induction words as [words IH] using (induction_ltof1 _ (@length string)).
  unfold ltof in IH. intros args args' Hkey Hwords.
  destruct words as [|a words]; [now intros [= <-] |].
  assert (startsWithDashes a = true → slice2 a ≠ key) as Ha.
  { intros Hflag Heq. apply (Hwords a); [now left |].
    rewrite <- Heq. now apply flag_spelling. }
  destruct (startsWithDashes a) eqn:Hflag.
  - specialize (Ha eq_refl). destruct words as [|next words].
    + rewrite parseArgsFrom_flag_last by assumption.
      intros [= <-]. now rewrite setArg_lookup_ne.
    + destruct (startsWithDashes next) eqn:Hnext.
      * rewrite parseArgsFrom_flag_flag by assumption. intros Hrun.
        rewrite (IH (next :: words)) with (args := setArg (slice2 a) ATrue args);
          [now rewrite setArg_lookup_ne | cbn; lia | assumption | | assumption].
        intros w Hw. apply Hwords. now right.
      * rewrite parseArgsFrom_flag_value by assumption. intros Hrun.
        rewrite (IH words) with (args := setArg (slice2 a) (AStr next) args);
          [now rewrite setArg_lookup_ne | cbn; lia | assumption | | assumption].
        intros w Hw. apply Hwords. right. now right.
  - rewrite parseArgsFrom_word by assumption.
    destruct (args !! "_") as [[| |ws]|]; try discriminate. intros Hrun.
    rewrite (IH words) with (args := <["_" := APos (ws ++ [a])]> args);
      [now rewrite lookup_insert_ne | cbn; lia | assumption | | assumption].
    intros w Hw. apply Hwords. now right.
Qed.

(** Without an option spelled [--_], parsing succeeds and [args._] keeps the
    words it had, in front. *)
Lemma parseArgsFrom_positionals words : ∀ args ws,
  (∀ w, In w words → w ≠ "--_") → args !! "_" = Some (APos ws) →
  ∃ args' more, parseArgsFrom words args = Ok args'
                ∧ args' !! "_" = Some (APos (ws ++ more)).
Proof.
  induction words as [words IH] using (induction_ltof1 _ (@length string)).
  unfold ltof in IH. intros args ws Hwords Hpos.
  destruct words as [|a words].
  { exists args, []. now rewrite app_nil_r. }
  assert (startsWithDashes a = true → slice2 a ≠ "_") as Ha.
  { intros Hflag Heq. apply (Hwords a); [now left |].
    rewrite (flag_spelling a Hflag), Heq. reflexivity. }
  destruct (startsWithDashes a) eqn:Hflag.
  - specialize (Ha eq_refl). destruct words as [|next words].
    + exists (setArg (slice2 a) ATrue args), [].
      rewrite parseArgsFrom_flag_last by assumption.
      rewrite setArg_lookup_ne, app_nil_r by assumption. auto.
    + destruct (startsWithDashes next) eqn:Hnext.
      * rewrite parseArgsFrom_flag_flag by assumption.
        apply IH; [cbn; lia | intros w Hw; apply Hwords; now right |].
        now rewrite setArg_lookup_ne.
      * rewrite parseArgsFrom_flag_value by assumption.
        apply IH; [cbn; lia | intros w Hw; apply Hwords; right; now right |].
        now rewrite setArg_lookup_ne.
  - rewrite parseArgsFrom_word, Hpos by assumption.
    destruct (IH words) with (args := <["_" := APos (ws ++ [a])]> args) (ws := ws ++ [a])
      as (args' & more & Hrun & Hlook).
    + cbn. lia.
    + intros w Hw. apply Hwords. now right.
    + apply lookup_insert_eq.
    + exists args', (a :: more). rewrite Hrun, Hlook, <- app_assoc. auto.
Qed.

End MoreArguments.

(** X4. An option takes the next word as its value unless that word starts
    with [--], in which case (or at the end of the line) it holds [true]; a
    word starting with [--] is never taken as a value, and the last
    occurrence of an option decides.  This holds for every option but [--_],
    which replaces the list of positional words, and [--__proto__], whose
    assignment the object drops. *)
Theorem parseArgs_option_value (argv : list string) (args : gmap string argval) :
  parseArgs argv = Ok args →
  (∀ pre key value post,
     argv = pre ++ ("--" +:+ key) :: value :: post →
     key ≠ "_" → key ≠ "__proto__" →
     (∀ w, In w (value :: post) → w ≠ "--" +:+ key) →
     args !! key = Some (if startsWithDashes value then ATrue else AStr value))
  ∧ (∀ pre key, argv = pre ++ ["--" +:+ key] →
       key ≠ "_" → key ≠ "__proto__" → args !! key = Some ATrue).
Proof.
  unfold parseArgs. intros Hrun. split.
  - intros pre key value post -> Hkey Hproto Hpost.
    rewrite (parseArgsFrom_app_flag pre _ _ _ (flag_starts key)) in Hrun.
    destruct (parseArgsFrom pre _) as [args1|] eqn:Hpre; [| discriminate].
    cbn [mbind res_bind] in Hrun.
    destruct (startsWithDashes value) eqn:Hvalue.
    + rewrite parseArgsFrom_flag_flag, slice2_flag in Hrun by auto using flag_starts.
      rewrite (parseArgsFrom_untouched key (value :: post) _ _ Hkey Hpost Hrun).
      now apply setArg_lookup_eq.
    + rewrite parseArgsFrom_flag_value, slice2_flag in Hrun by auto using flag_starts.
      rewrite (parseArgsFrom_untouched key post _ _ Hkey
                 (λ w Hw, Hpost w (or_intror Hw)) Hrun).
      now apply setArg_lookup_eq.
  - intros pre key -> Hkey Hproto.
    rewrite (parseArgsFrom_app_flag pre _ _ _ (flag_starts key)) in Hrun.
    destruct (parseArgsFrom pre _) as [args1|] eqn:Hpre; [| discriminate].
    cbn [mbind res_bind] in Hrun.
    rewrite parseArgsFrom_flag_last, slice2_flag in Hrun by apply flag_starts.
    injection Hrun as <-. now apply setArg_lookup_eq.
Qed.

Lemma parseArgs_option_value_witness :
  let argv := ["finalize"; "--workspace"; "ws"; "--override-reason"; "--ci-force"] in
  argsOf argv !! "workspace" = Some (AStr "ws")
  ∧ argsOf argv !! "override-reason" = Some ATrue
  ∧ argsOf argv !! "ci-force" = Some ATrue.
Proof.
  intros argv.
  destruct (parseArgs_option_value argv (argsOf argv)) as [Hvalue Hlast];
    [vm_compute; reflexivity |].
  split; [| split].
  - apply (Hvalue ["finalize"] "workspace" "ws" ["--override-reason"; "--ci-force"]);
      [reflexivity | discriminate | discriminate |].
    intros w [<- | [<- | [<- | []]]]; discriminate.
  - apply (Hvalue ["finalize"; "--workspace"; "ws"] "override-reason" "--ci-force" []);
      [reflexivity | discriminate | discriminate |].
    intros w [<- | []]; discriminate.
  - apply (Hlast ["finalize"; "--workspace"; "ws"; "--override-reason"] "ci-force");
      [reflexivity | discriminate | discriminate].
Defined.

(** The option [--__proto__] is dropped, with its value. *)
Example parseArgs_drops_proto :
  parseArgs ["status"; "--__proto__"; "x"; "--workspace"; "ws"]
  = parseArgs ["status"; "--workspace"; "ws"].
Proof. vm_compute. reflexivity. Qed.

(** X5. Unless an option is spelled [--_], parsing never fails, and the
    command is the first word of the line when that word is no option. *)
Theorem parseArgs_command_word (cmd : string) (rest : list string) :
  startsWithDashes cmd = false →
  (∀ w, In w rest → w ≠ "--_") →
  ∃ args, parseArgs (cmd :: rest) = Ok args ∧ commandWord args = Some cmd.
Proof.
  intros Hcmd Hrest. unfold parseArgs.
  rewrite parseArgsFrom_word, lookup_singleton_eq by assumption. cbn [app].
  destruct (parseArgsFrom_positionals rest (<["_" := APos [cmd]]> {["_" := APos []]}) [cmd])
    as (args & more & Hrun & Hpos); [assumption | apply lookup_insert_eq |].
  exists args. split; [exact Hrun |]. unfold commandWord. now rewrite Hpos.
Qed.

Lemma parseArgs_command_word_witness :
  ∃ args, parseArgs ["status"; "--workspace"; "ws"] = Ok args
          ∧ commandWord args = Some "status".
Proof.
  apply (parseArgs_command_word "status" ["--workspace"; "ws"]); [reflexivity |].
  intros w [<- | [<- | []]]; discriminate.
Defined.

(** ** Provider families and [init] *)

Section MoreInit.

Lemma lowerChar_idem c : lowerChar (lowerChar c) = lowerChar c.
Proof. destruct c as [[] [] [] [] [] [] [] []]; vm_compute; reflexivity. Qed.

Lemma toLowerCase_idem s : toLowerCase (toLowerCase s) = toLowerCase s.
Proof. induction s as [|c s IH]; simpl; [reflexivity |]. now rewrite lowerChar_idem, IH. Qed.

Lemma family_names fam :
  In fam PROVIDER_FAMILIES → nonEmpty (fst fam) = true ∧ fst fam ≠ "unknown".
Proof.
  cbn. intros [<- | [<- | [<- | [<- | [<- | [<- | []]]]]]]; split; (reflexivity || discriminate).
Qed.

Lemma find_existsb_some {A} (f : A → bool) l :
  existsb f l = true → ∃ x, find f l = Some x.
Proof.
  induction l as [|y l IH]; cbn; [discriminate |].
  destruct (f y); eauto.
Qed.

Lemma find_existsb_none {A} (f : A → bool) l : existsb f l = false → find f l = None.
Proof.
  induction l as [|y l IH]; cbn; [reflexivity |].
  destruct (f y); [discriminate | assumption].
Qed.

Lemma cmdInit_inv env args fs fs' r :
  cmdInit env args fs = (fs', r) →
  (fs' = fs ∧ ∃ e, r = Stop e ∧ isFailure e)
  ∨ ∃ plan rm pm fs1,
      args !! "plan" = Some (AStr plan)
      ∧ args !! "reviewer-model" = Some (AStr rm)
      ∧ args !! "planner-model" = Some (AStr pm)
      ∧ crossProvider (detectFamily rm) (detectFamily pm)
      ∧ ensureDir (initOutBase env args) fs = Ok fs1
      ∧ ((ensureDir (Some (AStr (initWorkspace env args))) fs1 = Stop Uncaught
          ∧ fs' = fs1 ∧ r = Stop Uncaught)
         ∨ ∃ fs2 d0,
             ensureDir (Some (AStr (initWorkspace env args))) fs1 = Ok fs2
             ∧ dirs fs2 !! initWorkspace env args = Some d0
             ∧ ((files fs !! plan = None ∧ fs' = fs2 ∧ r = Stop (Die CannotReadFile 2))
                ∨ (is_Some (files fs !! plan)
                   ∧ fs' = {| dirs := <[initWorkspace env args :=
                                          initDir env args (detectFamily rm)
                                            (detectFamily pm) d0]> (dirs fs2);
                              files := files fs2 |}
                   ∧ r = Ok 0%Z))).
Proof.
  unfold cmdInit. cbv zeta. fold (initOutBase env args). fold (initWorkspace env args).
  rewrite bind_dieUnless. destruct (given (args !! "plan")) eqn:Hplan;
    [| intros [= <- <-]; fails].
  rewrite bind_dieUnless. destruct (given (args !! "reviewer-model")) eqn:Hrm;
    [| intros [= <- <-]; fails].
  rewrite bind_dieUnless. destruct (given (args !! "planner-model")) eqn:Hpm;
    [| intros [= <- <-]; fails].
  rewrite bind_reading, bind_dieUnless.
  destruct (existsSync fs (args !! "plan")) eqn:Hfound; [| intros [= <- <-]; fails].
  apply existsSync_path in Hfound as (plan & Hplanarg & _).
  rewrite bind_lift. unfold detectFamilyOf at 1.
  destruct (args !! "reviewer-model") as [[rm| |]|] eqn:Hrmarg;
    try (intros [= <- <-]; fails).
  rewrite bind_lift. unfold detectFamilyOf at 1.
  destruct (args !! "planner-model") as [[pm| |]|] eqn:Hpmarg;
    try (intros [= <- <-]; fails).
  rewrite bind_dieUnless.
  destruct (String.eqb_spec (detectFamily rm) (detectFamily pm)) as [Hsame | Hdiff];
    [destruct (String.eqb_spec (detectFamily rm) "unknown") as [Hunk | Hknown] |];
    cbn [andb negb]; try (intros [= <- <-]; fails).
  all: assert (crossProvider (detectFamily rm) (detectFamily pm)) as Hcross
         by (unfold crossProvider; auto).
  all: rewrite bind_writing;
    destruct (ensureDir (initOutBase env args) fs) as [fs1|e1] eqn:Hout;
    [| intros [= <- <-]; left; split; [reflexivity |]; eexists; split; [reflexivity |];
       revert Hout; unfold ensureDir; repeat case_match; intros [= <-]; exact I].
  all: rewrite bind_writing;
    destruct (ensureDir (Some (AStr (initWorkspace env args))) fs1) as [fs2|e2] eqn:Hws;
    [| intros [= <- <-]; right; exists plan, rm, pm, fs1;
       do 5 (split; [assumption || reflexivity |]); left;
       assert (e2 = Uncaught) as -> by
         (revert Hws; unfold ensureDir; repeat case_match; congruence);
       auto].
  all: assert (∃ d0, dirs fs2 !! initWorkspace env args = Some d0) as [d0 Hd0]
         by (revert Hws; unfold ensureDir; repeat case_match; try discriminate;
             intros [= <-]; cbn [dirs]; rewrite ?lookup_insert_eq; eauto).
  all: assert (files fs2 = files fs) as Hfiles
         by (revert Hout Hws; unfold ensureDir; repeat case_match; try discriminate;
             intros [= <-] [= <-]; reflexivity).
  all: rewrite bind_attempt; unfold readFile at 1; rewrite Hfiles, Hplanarg; cbn [pathOf];
    intros Hrun; right; exists plan, rm, pm, fs1;
    do 5 (split; [assumption || reflexivity |]); right; exists fs2, d0;
    do 2 (split; [assumption |]);
    destruct (files fs !! plan) as [content|] eqn:Hcontent;
    [ right | left; apply pair_equal_spec in Hrun as [<- <-]; auto ].
  all: rewrite bind_writing, (writeIn_present _ _ _ _ Hd0) in Hrun;
    repeat (rewrite bind_writing, writeIn_again in Hrun);
    apply pair_equal_spec in Hrun as [<- <-]; split; [eauto |];
    split; [unfold initDir, initMeta; rewrite ?Hrmarg, ?Hpmarg; reflexivity | reflexivity].
Qed.

End MoreInit.

(** X6. [detectFamily] ignores letter case and never returns the empty
    string.  A model id that contains a keyword of the table is classified
    as one of the six families of the table; an id that contains none is
    classified by its text before the first [/], lower-cased, or as
    [unknown] when that text is empty. *)
Theorem detectFamily_classifies (modelId : string) :
  detectFamily (toLowerCase modelId) = detectFamily modelId
  ∧ nonEmpty (detectFamily modelId) = true
  ∧ ((∃ fam kw, In fam PROVIDER_FAMILIES ∧ In kw (snd fam)
                ∧ includes kw (toLowerCase modelId) = true) →
     In (detectFamily modelId) (map fst PROVIDER_FAMILIES))
  ∧ ((∀ fam kw, In fam PROVIDER_FAMILIES → In kw (snd fam) →
                includes kw (toLowerCase modelId) = false) →
     detectFamily modelId
     = if nonEmpty (beforeSlash (toLowerCase modelId))
       then beforeSlash (toLowerCase modelId) else "unknown").
Proof.
  split; [unfold detectFamily; now rewrite toLowerCase_idem |].
  unfold detectFamily. set (lower := toLowerCase modelId).
  set (hit := λ fam : string * list string, existsb (λ kw, includes kw lower) (snd fam)).
  split; [| split].
  - destruct (find hit PROVIDER_FAMILIES) as [fam|] eqn:Hfind.
    + apply find_some in Hfind as [Hin _]. now apply family_names.
    + now destruct (nonEmpty (beforeSlash lower)) eqn:E.
  - intros (fam & kw & Hfam & Hkw & Hinc).
    destruct (find_existsb_some hit PROVIDER_FAMILIES) as [found Hfound].
    { apply existsb_exists. exists fam. split; [assumption |].
      apply existsb_exists. eauto. }
    rewrite Hfound. apply find_some in Hfound as [Hin _]. now apply in_map.
  - intros Hnone. rewrite (find_existsb_none hit); [reflexivity |].
    apply not_true_is_false. intros (fam & Hfam & (kw & Hkw & Hinc)%existsb_exists)%existsb_exists.
    rewrite (Hnone fam kw Hfam Hkw) in Hinc. discriminate.
Qed.

Lemma detectFamily_classifies_witness :
  In (detectFamily "OpenAI/GPT-4") (map fst PROVIDER_FAMILIES)
  ∧ detectFamily "acme/Rev-1" = "acme".
Proof.
  destruct (detectFamily_classifies "OpenAI/GPT-4") as (_ & _ & Hknown & _).
  destruct (detectFamily_classifies "acme/Rev-1") as (_ & _ & _ & Hother).
  split.
  - apply Hknown. exists ("openai", ["gpt"; "openai"; "codex"; "o1"; "o3"; "davinci"]), "gpt".
    split; [cbn; auto | split; [cbn; auto | vm_compute; reflexivity]].
  - rewrite Hother; [vm_compute; reflexivity |].
    intros fam kw Hfam Hkw. cbn in Hfam.
    destruct Hfam as [<- | [<- | [<- | [<- | [<- | [<- | []]]]]]]; cbn in Hkw;
      repeat (destruct Hkw as [<- | Hkw]; [vm_compute; reflexivity |]); destruct Hkw.
Defined.

(** X7. [init] refuses a reviewer and a planner of one provider family,
    other than [unknown]: it ends with exit code 2 and creates nothing. *)
Theorem init_rejects_same_family env args fs plan rm pm :
  args !! "plan" = Some (AStr plan) → plan ≠ "" →
  args !! "reviewer-model" = Some (AStr rm) → rm ≠ "" →
  args !! "planner-model" = Some (AStr pm) → pm ≠ "" →
  is_Some (files fs !! plan) →
  detectFamily rm = detectFamily pm → detectFamily rm ≠ "unknown" →
  run (cmdInit env args) fs = (fs, Die (SameProviderFamily (detectFamily rm)) 2).
Proof.
  intros Hplan Hplan' Hrm Hrm' Hpm Hpm' Hfile Hsame Hknown.
  unfold run, cmdInit. cbv zeta. rewrite Hplan, Hrm, Hpm.
  rewrite bind_dieUnless. destruct plan; [contradiction |]. cbn [given nonEmpty].
  rewrite bind_dieUnless. destruct rm as [|c1 rm]; [contradiction |]. cbn [given nonEmpty].
  rewrite bind_dieUnless. destruct pm as [|c2 pm]; [contradiction |]. cbn [given nonEmpty].
  rewrite bind_reading, bind_dieUnless. unfold existsSync.
  rewrite (bool_decide_eq_true_2 (is_Some (files fs !! _)) Hfile), orb_true_r.
  rewrite bind_lift. cbn [detectFamilyOf]. rewrite bind_lift. cbn [detectFamilyOf].
  rewrite bind_dieUnless.
  rewrite <- Hsame, String.eqb_refl.
  destruct (String.eqb_spec (detectFamily (String c1 rm)) "unknown"); [contradiction |].
  reflexivity.
Qed.

Lemma init_rejects_same_family_witness :
  run (cmdInit sampleEnv
         (argsOf ["init"; "--plan"; "plan.md"; "--reviewer-model"; "anthropic/opus";
                  "--planner-model"; "anthropic/sonnet"; "--out"; "reviews"]))
    sampleFiles
  = (sampleFiles, Die (SameProviderFamily (detectFamily "anthropic/opus")) 2).
Proof.
  apply (init_rejects_same_family sampleEnv _ sampleFiles "plan.md"
           "anthropic/opus" "anthropic/sonnet");
    try (vm_compute; reflexivity); try discriminate; vm_compute; eauto.
Defined.

(** ** Workspaces the script starts, and what every run keeps of them *)

Section Workspaces.

Variable JSON_parse : string → option json.

Lemma ensureDir_files p fs fs' : ensureDir p fs = Ok fs' → files fs' = files fs.
Proof.
  unfold ensureDir. destruct p as [[p| |]|]; try discriminate.
  destruct (dirs fs !! p), (files fs !! p); try discriminate; now intros [= <-].
Qed.

(** X8. An [init] that returns exits with 0 and leaves, at the generated
    workspace path (the output directory joined with the time stamp and the
    random suffix, as [path.join] normalizes it), a metadata record at round 0 with verdict PENDING, five
    rounds allowed and the two families computed by [detectFamily], which
    differ unless the reviewer's is [unknown]; the ledger of that workspace
    is empty, plan version 1 is there, the changelog holds the one start
    entry, and no plain file is touched. *)
Theorem init_starts_a_clean_workspace env args fs fs' code :
  run (cmdInit env args) fs = (fs', Exit code) →
  let ws := initWorkspace env args in
  code = 0%Z
  ∧ files fs' = files fs
  ∧ getIssues fs' ws = []
  ∧ ∃ d meta,
      dirs fs' !! ws = Some d
      ∧ d_meta d = Some meta
      ∧ currentRound meta = Some 0%Z ∧ verdict meta = PENDING ∧ maxRounds meta = 5%Z
      ∧ completedAt meta = None ∧ wsDir meta = ws
      ∧ reviewerFamily meta = detectFamily (reviewerModel meta)
      ∧ plannerFamily meta = detectFamily (plannerModel meta)
      ∧ crossProvider (reviewerFamily meta) (plannerFamily meta)
      ∧ In 1%nat (d_plans d)
      ∧ d_changelog d = [LogStarted (now env) (reviewerModel meta) (plannerModel meta)].
Proof.
  unfold run. destruct (cmdInit env args fs) as [fs0 r] eqn:Hrun.
  apply cmdInit_inv in Hrun
    as [[_ (e & -> & Hfail)] | (plan & rm & pm & fs1 & Hplan & Hrm & Hpm & Hcross & Hout & Hrest)].
  { destruct e; [destruct Hfail | |]; intros [= ]. }
  destruct Hrest as [(_ & _ & ->) | (fs2 & d0 & Hws & Hd0 & [(_ & _ & ->) | (Hfile & -> & ->)])];
    intros [= <- <-]; cbv zeta.
  assert (files fs2 = files fs) as Hfiles.
  { rewrite (ensureDir_files _ _ _ Hws). exact (ensureDir_files _ _ _ Hout). }
  split; [reflexivity |]. split; [exact Hfiles |]. split.
  { unfold getIssues. cbn [dirs]. now rewrite lookup_insert_eq. }
  eexists _, _. split; [cbn [dirs]; apply lookup_insert_eq |].
  split; [reflexivity |]. cbn. rewrite Hrm, Hpm. cbn.
  repeat split; try reflexivity; try assumption.
  destruct (bool_decide (1%nat ∈ d_plans d0)) eqn:Hin.
  - apply bool_decide_eq_true_1 in Hin. now apply list_elem_of_In.
  - apply in_or_app. right. now left.
Qed.

Lemma init_starts_a_clean_workspace_witness :
  let args := argsOf ["init"; "--plan"; "plan.md"; "--reviewer-model"; "openai/codex";
                      "--planner-model"; "anthropic/sonnet"; "--out"; "./reviews/"] in
  let fs' := (cmdInit sampleEnv args sampleFiles).1 in
  initWorkspace sampleEnv args = sampleWs
  ∧ getIssues fs' sampleWs = []
  ∧ ∃ d meta, dirs fs' !! sampleWs = Some d ∧ d_meta d = Some meta
              ∧ currentRound meta = Some 0%Z ∧ wsDir meta = sampleWs
              ∧ reviewerFamily meta = "openai" ∧ plannerFamily meta = "anthropic".
Proof.
  intros args fs'.
  assert (initWorkspace sampleEnv args = sampleWs) as Hws by (vm_compute; reflexivity).
  assert (run (cmdInit sampleEnv args) sampleFiles = (fs', Exit 0)) as Hrun
    by (vm_compute; reflexivity).
  destruct (init_starts_a_clean_workspace sampleEnv args sampleFiles fs' 0 Hrun)
    as (_ & _ & Hledger & d & meta & Hd & Hmeta & Hround & _ & _ & _ & Hdir & Hr & Hp & _).
  rewrite Hws in Hledger, Hd, Hdir.
  split; [exact Hws |]. split; [exact Hledger |].
  exists d, meta.
  split; [exact Hd |]. split; [exact Hmeta |]. split; [exact Hround |].
  split; [exact Hdir |].
  assert (option_map (λ m, (reviewerFamily m, plannerFamily m))
            (dirs fs' !! sampleWs ≫= d_meta)
          = Some ("openai", "anthropic")) as Hfam by (vm_compute; reflexivity).
  rewrite Hd in Hfam. cbn [mbind option_bind] in Hfam. rewrite Hmeta in Hfam.
  cbn [option_map] in Hfam. injection Hfam as Hrf Hpf.
  split; [exact Hrf | exact Hpf].
Defined.

Lemma maxOf_In l : l ≠ [] → In (maxOf l) l.
Proof.
  induction l as [|x l IH] using rev_ind; [contradiction |]. intros _.
  rewrite maxOf_snoc, in_app_iff. destruct l as [|y l].
  - right. left. cbn. lia.
  - destruct (Nat.max_spec (maxOf (y :: l)) x) as [[_ ->] | [_ ->]].
    + right. now left.
    + left. apply IH. discriminate.
Qed.

Lemma wellFormedDir_empty : wellFormedDir emptyDir.
Proof. intros meta [=]. Qed.

Lemma wellFormed_insert fs fl ws d' :
  wellFormed fs → wellFormedDir d' →
  wellFormed {| dirs := <[ws := d']> (dirs fs); files := fl |}.
Proof.
  intros Hfs Hd p d. cbn [dirs]. destruct (decide (ws = p)) as [<- |].
  - rewrite lookup_insert_eq. now intros [= <-].
  - rewrite lookup_insert_ne by assumption. apply Hfs.
Qed.

Lemma ensureDir_wellFormed p fs fs' :
  ensureDir p fs = Ok fs' → wellFormed fs → wellFormed fs'.
Proof.
  unfold ensureDir. destruct p as [[p| |]|]; try discriminate.
  destruct (dirs fs !! p), (files fs !! p); try discriminate; intros [= <-] Hfs;
    [assumption | assumption |].
  apply wellFormed_insert; [assumption | apply wellFormedDir_empty].
Qed.

Lemma addPlan_nonEmpty v d : d_plans (addPlan v d) ≠ [].
Proof.
  cbn. destruct (bool_decide (v ∈ d_plans d)) eqn:Hin.
  - apply bool_decide_eq_true_1 in Hin. intros E. rewrite E in Hin. inversion Hin.
  - now destruct (d_plans d).
Qed.

Lemma addPlan_keeps v d : d_plans d ≠ [] → d_plans (addPlan v d) ≠ [].
Proof. intros _. apply addPlan_nonEmpty. Qed.

Lemma cmdInit_wellFormed env args fs :
  wellFormed fs → wellFormed (cmdInit env args fs).1.
Proof.
  intros Hfs. destruct (cmdInit env args fs) as [fs' r] eqn:Hrun. cbn [fst].
  apply cmdInit_inv in Hrun
    as [[-> _] | (plan & rm & pm & fs1 & _ & _ & _ & Hcross & Hout & Hrest)];
    [assumption |].
  apply ensureDir_wellFormed in Hout; [| assumption].
  destruct Hrest as [(_ & -> & _) | (fs2 & d0 & Hws & _ & Hrest)]; [assumption |].
  apply ensureDir_wellFormed in Hws; [| assumption].
  destruct Hrest as [(_ & -> & _) | (_ & -> & _)]; [assumption |].
  apply wellFormed_insert; [assumption |].
  intros meta [= <-]. split; [exact Hcross | apply addPlan_nonEmpty].
Qed.

Lemma cmdParseRound_wellFormed args fs :
  wellFormed fs → wellFormed (cmdParseRound JSON_parse args fs).1.
Proof.
  intros Hfs. destruct (cmdParseRound JSON_parse args fs) as [fs' r] eqn:Hrun. cbn [fst].
  apply cmdParseRound_inv in Hrun
    as [[-> _] | (ws & round & raw & parsed & rv & reg & d & _ & _ & _ & Hd & _ & _ & _ & _ & _ & Hfs')];
    [assumption |].
  cbv zeta in Hfs'. pose proof (Hfs ws d Hd) as Hwf.
  destruct (d_meta d) as [meta|] eqn:Hmeta; destruct Hfs' as [-> _];
    (apply wellFormed_insert; [assumption |]); intros m; cbn.
  - intros [= <-]. exact (Hwf meta Hmeta).
  - rewrite Hmeta. discriminate.
Qed.

Lemma cmdFinalize_wellFormed env args fs :
  wellFormed fs → wellFormed (cmdFinalize env args fs).1.
Proof.
  intros Hfs. destruct (cmdFinalize env args fs) as [fs' r] eqn:Hrun. cbn [fst].
  apply cmdFinalize_inv in Hrun
    as [[-> _] | (ws & d & meta & _ & Hd & Hmeta & log & issues' & d0 & Hover & Hfs')];
    [assumption |].
  destruct (Hfs ws d Hd meta Hmeta) as [Hcross Hplans].
  assert (d_plans d0 = d_plans d ∧ d_meta d0 = d_meta d) as [Hp Hm].
  { destruct Hover as [(_ & _ & _ & ->) | (_ & _ & _ & ->)]; split; reflexivity. }
  destruct (d_plans d) eqn:Hpl; [contradiction |].
  destruct Hfs' as [-> _]. apply wellFormed_insert; [assumption |].
  intros m [= <-]. cbn. rewrite Hp. split; [exact Hcross | discriminate].
Qed.

Lemma main_wellFormed env argv fs :
  wellFormed fs → wellFormed (main JSON_parse env argv fs).1.
Proof.
  intros Hfs. unfold main. destruct (parseArgs argv) as [args|e]; [| assumption].
  destruct (commandWord args) as [[|c cmd]|]; try assumption.
  destruct (given (args !! "help")); [assumption |].
  repeat (destruct (String.eqb _ _); [rewrite run_fst | ]);
    auto using cmdInit_wellFormed, cmdParseRound_wellFormed, cmdFinalize_wellFormed.
  destruct (cmdStatus args fs) as [fs' r] eqn:Hrun. cbn [fst].
  now rewrite <- (cmdStatus_same args _ _ _ Hrun).
Qed.

Lemma reachable_wellFormed fs : reachable JSON_parse fs → wellFormed fs.
Proof.
  induction 1 as [fl | env argv fs _ IH | q text fs _ IH | ws v d fs _ IH Hd].
  - intros p d. cbn. now rewrite lookup_empty.
  - now apply main_wellFormed.
  - exact IH.
  - apply wellFormed_insert; [assumption |].
    intros meta Hmeta. split; [| apply addPlan_nonEmpty].
    exact (proj1 (IH ws d Hd meta Hmeta)).
Qed.

(** X9. In every file system the script can produce, a workspace that has
    metadata has a reviewer and a planner of different provider families,
    or a reviewer of unknown family, and has at least one plan version; the
    metadata keeps the families [init] computed from the two model ids. *)
Theorem workspaces_stay_cross_provider fs ws d meta :
  reachable JSON_parse fs →
  dirs fs !! ws = Some d → d_meta d = Some meta →
  (reviewerFamily meta ≠ plannerFamily meta ∨ reviewerFamily meta = "unknown")
  ∧ d_plans d ≠ [].
Proof.
  intros Hreach Hd Hmeta. exact (reachable_wellFormed fs Hreach ws d Hd meta Hmeta).
Qed.

(** X10. In every file system the script can produce, [finalize] is all or
    nothing: it ends with an error and changes nothing, or it exits with 0
    having written the summary, the final plan (the highest plan version)
    and the final verdict, which is APPROVED or FORCE_APPROVED, into the
    metadata of the named workspace. *)
Theorem finalize_is_all_or_nothing env args fs fs' e :
  reachable JSON_parse fs →
  run (cmdFinalize env args) fs = (fs', e) →
  (fs' = fs ∧ isFailure e)
  ∨ ∃ ws d d' meta' summary,
      e = Exit 0
      ∧ args !! "workspace" = Some (AStr ws)
      ∧ dirs fs !! ws = Some d
      ∧ dirs fs' !! ws = Some d'
      ∧ d_summary d' = Some summary
      ∧ d_planFinal d' = Some (maxOf (d_plans d))
      ∧ In (maxOf (d_plans d)) (d_plans d)
      ∧ d_meta d' = Some meta'
      ∧ verdict meta' = finalVerdict summary
      ∧ completedAt meta' = Some (sm_completedAt summary)
      ∧ (finalVerdict summary = APPROVED ∨ finalVerdict summary = FORCE_APPROVED)
      ∧ (finalVerdict summary = APPROVED ↔ getOpenBlockers (getIssues fs ws) = []).
Proof.
  intros Hreach. unfold run.
  destruct (cmdFinalize env args fs) as [fs0 r] eqn:Hrun.
  apply cmdFinalize_inv in Hrun
    as [[-> (e0 & -> & Hfail)] | (ws & d & meta & Hws & Hd & Hmeta & log & issues' & d0 & Hover & Hfs')].
  { intros [= <- <-]. now left. }
  destruct (reachable_wellFormed fs Hreach ws d Hd meta Hmeta) as [_ Hplans].
  destruct (d_plans d) as [|v vs] eqn:Hpl; [contradiction |].
  destruct Hfs' as [-> ->]. intros [= <- <-]. right.
  eexists ws, d, _, _, _. split; [reflexivity |]. split; [exact Hws |].
  split; [exact Hd |]. split; [cbn [dirs]; apply lookup_insert_eq |].
  split; [reflexivity |]. split; [rewrite Hpl; reflexivity |].
  split; [apply maxOf_In; rewrite Hpl; discriminate |].
  split; [reflexivity |]. split; [reflexivity |]. split; [reflexivity |].
  cbn [finalVerdict summaryOf].
  destruct Hover as [(Hb & -> & _ & _) | (Hb & (l & _ & ->) & _ & _)].
  - rewrite Hb. cbn. split; [now left |]. now split.
  - destruct (getOpenBlockers (getIssues fs ws)) as [|b bs]; [contradiction |].
    rewrite bool_decide_eq_true_2 by eauto. cbn.
    split; [now right |]. split; discriminate.
Qed.

End Workspaces.

Lemma afterRound2_reachable : reachable sampleParse afterRound2.
Proof.
  unfold afterRound2, afterRound1.
  do 2 apply reachable_session. apply (reach_start _ (files sampleFiles)).
Qed.

Lemma workspaces_stay_cross_provider_witness :
  ∃ d meta,
    dirs afterRound2 !! sampleWs = Some d ∧ d_meta d = Some meta
    ∧ (reviewerFamily meta ≠ plannerFamily meta ∨ reviewerFamily meta = "unknown")
    ∧ d_plans d ≠ [].
Proof.
  assert (is_Some (dirs afterRound2 !! sampleWs ≫= d_meta)) as [meta Hm]
    by (vm_compute; eauto).
  destruct (dirs afterRound2 !! sampleWs) as [d|] eqn:Hd; [| discriminate].
  cbn in Hm. exists d, meta. split; [reflexivity |]. split; [exact Hm |].
  exact (workspaces_stay_cross_provider sampleParse afterRound2 sampleWs d meta
           afterRound2_reachable Hd Hm).
Defined.

Lemma finalize_is_all_or_nothing_witness :
  let args := argsOf ["finalize"; "--workspace"; sampleWs] in
  let fs' := (run (cmdFinalize sampleEnv args) afterRound2).1 in
  let e := (run (cmdFinalize sampleEnv args) afterRound2).2 in
  (fs' = afterRound2 ∧ isFailure e)
  ∨ ∃ ws d d' meta' summary,
      e = Exit 0
      ∧ args !! "workspace" = Some (AStr ws)
      ∧ dirs afterRound2 !! ws = Some d
      ∧ dirs fs' !! ws = Some d'
      ∧ d_summary d' = Some summary
      ∧ d_planFinal d' = Some (maxOf (d_plans d))
      ∧ In (maxOf (d_plans d)) (d_plans d)
      ∧ d_meta d' = Some meta'
      ∧ verdict meta' = finalVerdict summary
      ∧ completedAt meta' = Some (sm_completedAt summary)
      ∧ (finalVerdict summary = APPROVED ∨ finalVerdict summary = FORCE_APPROVED)
      ∧ (finalVerdict summary = APPROVED ↔ getOpenBlockers (getIssues afterRound2 ws) = []).
Proof.
  intros args fs' e.
  apply (finalize_is_all_or_nothing sampleParse sampleEnv args afterRound2 fs' e
           afterRound2_reachable).
  subst fs' e. now destruct (run (cmdFinalize sampleEnv args) afterRound2).
Defined.

(** ** How the commands compose *)

Section Commands.

Variable JSON_parse : string → option json.

Lemma given_path ws : ws ≠ "" → given (Some (AStr ws)) = true.
Proof. now destruct ws. Qed.

Lemma path_given ws : given (Some (AStr ws)) = true → ws ≠ "".
Proof. now destruct ws. Qed.

Lemma existsSync_dir fs ws d : dirs fs !! ws = Some d → existsSync fs (Some (AStr ws)) = true.
Proof.
  intros Hd. unfold existsSync. now rewrite bool_decide_eq_true_2 by eauto.
Qed.

(** [status] on a workspace with metadata. *)
Lemma cmdStatus_run args fs ws d meta :
  args !! "workspace" = Some (AStr ws) → ws ≠ "" →
  dirs fs !! ws = Some d → d_meta d = Some meta →
  cmdStatus args fs
  = (fs, if forallb (λ i, sliceable (problem i)) (getIssues fs ws)
         then Ok (if bool_decide (verdict meta = APPROVED)
                     || bool_decide (verdict meta = FORCE_APPROVED) then 0 else 1)%Z
         else Stop Uncaught).
Proof.
  intros Hws Hne Hd Hmeta. unfold cmdStatus. cbv zeta. rewrite Hws.
  rewrite bind_dieUnless, (given_path _ Hne).
  rewrite bind_reading, bind_dieUnless, (existsSync_dir _ _ _ Hd).
  rewrite bind_attempt. unfold getWorkspaceMeta. cbn [pathOf]. rewrite Hd. cbn [mbind option_bind].
  rewrite Hmeta, bind_reading, bind_lift.
  now destruct (forallb _ _).
Qed.

(** Without a workspace path the two writing commands stop at once. *)
Lemma cmdParseRound_needs_workspace args fs :
  given (args !! "workspace") = false →
  cmdParseRound JSON_parse args fs = (fs, Stop (Die (OptionRequired "workspace") 2)).
Proof. intros H. unfold cmdParseRound. cbv zeta. now rewrite bind_dieUnless, H. Qed.

Lemma cmdFinalize_needs_workspace env args fs :
  given (args !! "workspace") = false →
  cmdFinalize env args fs = (fs, Stop (Die (OptionRequired "workspace") 2)).
Proof. intros H. unfold cmdFinalize. cbv zeta. now rewrite bind_dieUnless, H. Qed.

Lemma failure_exit e code : isFailure e → e ≠ Exit code.
Proof. destruct e; [contradiction | discriminate | discriminate]. Qed.

Lemma gate_verdict submitted blockers :
  submitted = APPROVED ∨ submitted = REVISE →
  gate submitted blockers = APPROVED ∨ gate submitted blockers = REVISE.
Proof. unfold gate. intros [-> | ->]; destruct (0 <? length blockers)%nat; cbn; auto. Qed.

(** X11. [status] agrees with the command before it, when it can list the
    ledger: after a [parse-round] or a [finalize] that returned with some
    exit code, [status] on the same workspace changes nothing, and it
    returns with that same exit code when every problem of the ledger is a
    string, or an array whose first 80 elements convert to strings;
    otherwise it throws while cutting a problem to 80 characters. *)
Theorem status_agrees_with_last_command env args args' fs fs' code :
  args' !! "workspace" = args !! "workspace" →
  run (cmdParseRound JSON_parse args) fs = (fs', Exit code)
  ∨ run (cmdFinalize env args) fs = (fs', Exit code) →
  run (cmdStatus args') fs'
  = (fs', if forallb (λ i, sliceable (problem i))
               (getIssues fs' (pathOf (args !! "workspace")))
          then Exit code else Uncaught).
Proof.
  intros Hsame [Hrun | Hrun]; unfold run in Hrun.
  - destruct (cmdParseRound JSON_parse args fs) as [fs0 r] eqn:Hcmd.
    destruct (given (args !! "workspace")) eqn:Hgiven;
      [| rewrite (cmdParseRound_needs_workspace _ _ Hgiven) in Hcmd;
         injection Hcmd as <- <-; discriminate].
    apply cmdParseRound_inv in Hcmd
      as [[_ (e & -> & Hfail)] | (ws & round & raw & parsed & rv & reg & d & Hws & _ & _ & Hd & _ & _ & Hvalid & Hrv & _ & Hfs')].
    { injection Hrun as _ ->. now destruct Hfail. }
    cbv zeta in Hfs'. rewrite Hws in Hgiven, Hsame. rewrite Hws. cbn [pathOf].
    apply path_given in Hgiven.
    destruct (d_meta d) as [meta|]; destruct Hfs' as [-> ->]; [| discriminate].
    injection Hrun as <- <-.
    unfold run. erewrite cmdStatus_run;
      [| exact Hsame | exact Hgiven | cbn [dirs]; apply lookup_insert_eq | reflexivity].
    destruct (forallb _ _); [| reflexivity].
    cbn [verdict withRound roundOutputOf ro_verdict].
    destruct (gate_verdict (rv_verdict rv) (getOpenBlockers (rg_issues reg))
                (validated_verdict _ _ Hvalid Hrv)) as [-> | ->]; reflexivity.
  - destruct (cmdFinalize env args fs) as [fs0 r] eqn:Hcmd.
    destruct (given (args !! "workspace")) eqn:Hgiven;
      [| rewrite (cmdFinalize_needs_workspace _ _ _ Hgiven) in Hcmd;
         injection Hcmd as <- <-; discriminate].
    apply cmdFinalize_inv in Hcmd
      as [[_ (e & -> & Hfail)] | (ws & d & meta & Hws & Hd & Hmeta & log & issues' & d0 & Hover & Hfs')].
    { injection Hrun as _ ->. now destruct Hfail. }
    rewrite Hws in Hgiven, Hsame. rewrite Hws. cbn [pathOf]. apply path_given in Hgiven.
    destruct (d_plans d) as [|v vs]; destruct Hfs' as [-> ->]; [discriminate |].
    injection Hrun as <- <-.
    unfold run. erewrite cmdStatus_run;
      [| exact Hsame | exact Hgiven | cbn [dirs]; apply lookup_insert_eq | reflexivity].
    destruct (forallb _ _); [| reflexivity].
    cbn [verdict withFinal finalVerdict summaryOf].
    now destruct ((0 <? length _)%nat && bool_decide (is_Some log)).
Qed.

(** [finalize] on a workspace without open blockers. *)
Lemma cmdFinalize_clean env args fs ws d meta :
  args !! "workspace" = Some (AStr ws) → ws ≠ "" →
  dirs fs !! ws = Some d → d_meta d = Some meta → d_plans d ≠ [] →
  getOpenBlockers (getIssues fs ws) = [] →
  let summary := summaryOf env meta [] None (getIssues fs ws) in
  cmdFinalize env args fs
  = ({| dirs := <[ws := setMeta (withFinal (finalVerdict summary) (sm_completedAt summary) meta)
                          (appendLog (finalLogOf summary)
                             (setSummary summary (setPlanFinal (maxOf (d_plans d)) d)))]>
                  (dirs fs);
        files := files fs |}, Ok 0%Z).
Proof.
  intros Hws Hne Hd Hmeta Hplans Hnone. unfold cmdFinalize. cbv zeta. rewrite Hws.
  rewrite bind_dieUnless, (given_path _ Hne).
  rewrite bind_reading, bind_dieUnless, (existsSync_dir _ _ _ Hd). cbn [pathOf].
  rewrite bind_attempt. unfold getWorkspaceMeta at 1. rewrite Hd. cbn [mbind option_bind].
  rewrite Hmeta, bind_reading, Hnone. cbn [length Nat.ltb Nat.leb].
  change ((mret (None, getIssues fs ws) : M _) ≫= ?k) with (k (None, getIssues fs ws)).
  cbv beta iota. rewrite bind_reading, Hd. cbn [fmap option_fmap option_map default].
  rewrite bind_dieUnless. unfold Datatypes.id.
  destruct (d_plans d) as [|v vs] eqn:Hpl; [contradiction |].
  cbn [length Nat.eqb negb].
  rewrite bind_writing, (writeIn_present _ _ _ _ Hd).
  repeat (rewrite bind_writing, writeIn_again). reflexivity.
Qed.

(** X12. On a workspace whose ledger has no open CRITICAL or HIGH issue,
    [finalize] needs no override: whatever else is on the command line, it
    exits with 0, writes a summary with verdict APPROVED and no
    force-approve log whose counts are those of the ledger, and leaves the
    ledger as it is. *)
Theorem finalize_without_blockers env args fs ws d meta :
  args !! "workspace" = Some (AStr ws) → ws ≠ "" →
  dirs fs !! ws = Some d → d_meta d = Some meta → d_plans d ≠ [] →
  getOpenBlockers (getIssues fs ws) = [] →
  ∃ fs' d' summary,
    run (cmdFinalize env args) fs = (fs', Exit 0)
    ∧ dirs fs' !! ws = Some d'
    ∧ d_summary d' = Some summary
    ∧ finalVerdict summary = APPROVED
    ∧ force_approve_log summary = None
    ∧ totalIssuesFound summary = length (getIssues fs ws)
    ∧ (issuesResolved summary + issuesUnresolved summary)%nat = totalIssuesFound summary
    ∧ sm_rounds summary = currentRound meta
    ∧ getIssues fs' ws = getIssues fs ws
    ∧ (verdict <$> d_meta d') = Some APPROVED.
Proof.
  intros Hws Hne Hd Hmeta Hplans Hnone.
  pose proof (cmdFinalize_clean env args fs ws d meta Hws Hne Hd Hmeta Hplans Hnone) as Hrun.
  cbv zeta in Hrun. unfold run. rewrite Hrun.
  eexists _, _, _. split; [reflexivity |].
  split; [cbn [dirs]; apply lookup_insert_eq |].
  split; [reflexivity |]. cbn [summaryOf finalVerdict force_approve_log totalIssuesFound
                                issuesResolved issuesUnresolved sm_rounds length Nat.ltb Nat.leb andb].
  repeat split.
  - assert (countStatus isResolved (getIssues fs ws) <= length (getIssues fs ws))%nat; [| lia].
    unfold countStatus. apply length_filter.
  - rewrite getIssues_insert, decide_True by reflexivity. cbn.
    symmetry. now apply getIssues_present.
Qed.

Lemma finalize_without_blockers_witness :
  ∃ fs' d' summary,
    run (cmdFinalize sampleEnv (argsOf ["finalize"; "--workspace"; sampleWs])) afterRound2
    = (fs', Exit 0)
    ∧ dirs fs' !! sampleWs = Some d'
    ∧ d_summary d' = Some summary
    ∧ finalVerdict summary = APPROVED
    ∧ force_approve_log summary = None
    ∧ totalIssuesFound summary = length (getIssues afterRound2 sampleWs)
    ∧ (issuesResolved summary + issuesUnresolved summary)%nat = totalIssuesFound summary
    ∧ sm_rounds summary = Some 2%Z
    ∧ getIssues fs' sampleWs = getIssues afterRound2 sampleWs
    ∧ (verdict <$> d_meta d') = Some APPROVED.
Proof.
  assert (is_Some (dirs afterRound2 !! sampleWs ≫= d_meta)) as [meta Hm]
    by (vm_compute; eauto).
  destruct (dirs afterRound2 !! sampleWs) as [d|] eqn:Hd; [| discriminate].
  cbn in Hm.
  assert (currentRound meta = Some 2%Z ∧ d_plans d ≠ []) as [Hround Hplans].
  { vm_compute in Hd. injection Hd as <-. vm_compute in Hm. injection Hm as <-.
    split; [reflexivity | discriminate]. }
  rewrite <- Hround.
  assert (argsOf ["finalize"; "--workspace"; sampleWs] !! "workspace"
          = Some (AStr sampleWs)) as Hws by (vm_compute; reflexivity).
  assert (getOpenBlockers (getIssues afterRound2 sampleWs) = []) as Hnone
    by (vm_compute; reflexivity).
  assert (sampleWs ≠ "") as Hne by discriminate.
  exact (finalize_without_blockers sampleEnv _ afterRound2 sampleWs d meta
           Hws Hne Hd Hm Hplans Hnone).
Defined.

End Commands.

Lemma status_agrees_with_last_command_witness :
  let fs := (session sampleParse sampleEnv [initArgv] sampleFiles).1 in
  let fs' := (run (cmdParseRound sampleParse (argsOf (roundArgv "1" "round-1.json"))) fs).1 in
  run (cmdStatus (argsOf ["status"; "--workspace"; sampleWs])) fs' = (fs', Exit 1).
Proof.
  intros fs fs'.
  assert (argsOf ["status"; "--workspace"; sampleWs] !! "workspace"
          = argsOf (roundArgv "1" "round-1.json") !! "workspace") as Hsame
    by (vm_compute; reflexivity).
  assert (run (cmdParseRound sampleParse (argsOf (roundArgv "1" "round-1.json"))) fs
          = (fs', Exit 1)) as Hrun by (vm_compute; reflexivity).
  assert (forallb (λ i, sliceable (problem i))
            (getIssues fs' (pathOf (argsOf (roundArgv "1" "round-1.json") !! "workspace")))
          = true) as Hlist by (vm_compute; reflexivity).
  rewrite (status_agrees_with_last_command sampleParse sampleEnv
             (argsOf (roundArgv "1" "round-1.json")) _ fs fs' 1 Hsame (or_introl Hrun)).
  now rewrite Hlist.
Defined.

(** A problem given as the number 5 passes validation and is registered by
    a round that exits with 1; [status] then throws. *)
Example status_throws_on_a_numeric_problem :
  (session oddParse sampleEnv
     [initArgv;
      ["parse-round"; "--workspace"; sampleWs; "--round"; "1"; "--response"; "odd.json"];
      ["status"; "--workspace"; sampleWs]] oddFiles).2
  = [Exit 0; Exit 1; Uncaught].
Proof. vm_compute. reflexivity. Qed.

(** ** What a run records, and where *)

Section Records.

Variable JSON_parse : string → option json.

(** X13. A [finalize] that follows a forced approval finds no open blocker
    any more, so it asks for no override: it exits with 0 and replaces the
    summary by one with verdict APPROVED and no force-approve log, and sets
    the verdict of the metadata to APPROVED.  The ledger keeps its
    force-approved issues, and the changelog keeps the entry of the forced
    approval before the new final entry. *)
Theorem second_finalize_replaces_forced_summary env env' args args' fs fs1 code ws :
  run (cmdFinalize env args) fs = (fs1, Exit code) →
  args !! "workspace" = Some (AStr ws) →
  args' !! "workspace" = Some (AStr ws) →
  getOpenBlockers (getIssues fs ws) ≠ [] →
  ∃ fs2 d1 d2 s1 s2,
    dirs fs1 !! ws = Some d1
    ∧ d_summary d1 = Some s1
    ∧ finalVerdict s1 = FORCE_APPROVED
    ∧ is_Some (force_approve_log s1)
    ∧ run (cmdFinalize env' args') fs1 = (fs2, Exit 0)
    ∧ dirs fs2 !! ws = Some d2
    ∧ d_summary d2 = Some s2
    ∧ finalVerdict s2 = APPROVED
    ∧ force_approve_log s2 = None
    ∧ (verdict <$> d_meta d2) = Some APPROVED
    ∧ getIssues fs2 ws = getIssues fs1 ws
    ∧ d_changelog d2 = d_changelog d1 ++ [finalLogOf s2]
    ∧ In (finalLogOf s1) (d_changelog d1).
Proof.
  unfold run at 1. destruct (cmdFinalize env args fs) as [fs0 r] eqn:Hcmd.
  intros Hend Hws Hws' Hblockers.
  destruct (given (args !! "workspace")) eqn:Hgiven;
    [| rewrite (cmdFinalize_needs_workspace _ _ _ Hgiven) in Hcmd;
       injection Hcmd as <- <-; discriminate].
  rewrite Hws in Hgiven. apply path_given in Hgiven.
  apply cmdFinalize_inv in Hcmd
    as [(_ & e & -> & Hfail)
       | (ws0 & d & meta & Hws0 & Hd & Hmeta & log & issues' & d0 & Hover & Hfs)].
  { injection Hend as _ ->. destruct Hfail. }
  rewrite Hws in Hws0. injection Hws0 as <-.
  destruct Hover as [(Hnone & _) | (_ & (l & _ & ->) & -> & ->)]; [contradiction |].
  destruct (d_plans d) as [|v vs] eqn:Hpl.
  { destruct Hfs as [_ ->]. discriminate. }
  cbv zeta in Hfs. destruct Hfs as [-> ->]. injection Hend as <- _.
  set (blockers := getOpenBlockers (getIssues fs ws)) in *.
  set (issues1 := markForceApproved (currentRound meta) blockers (getIssues fs ws)) in *.
  set (s1 := summaryOf env meta blockers (Some l) issues1) in *.
  set (d1 := setMeta _ _).
  set (fs1 := {| dirs := <[ws := d1]> (dirs fs); files := files fs |}).
  assert (dirs fs1 !! ws = Some d1) as Hd1 by (cbn [fs1 dirs]; apply lookup_insert_eq).
  assert (getIssues fs1 ws = issues1) as Hledger.
  { unfold fs1. rewrite getIssues_insert, decide_True by reflexivity. reflexivity. }
  assert (getOpenBlockers (getIssues fs1 ws) = []) as Hclear.
  { rewrite Hledger. apply markForceApproved_clears. intros x Hx Hb.
    apply getOpenBlockers_In. auto. }
  assert (d_plans d1 ≠ []) as Hplans1 by (cbn; rewrite Hpl; discriminate).
  pose proof (cmdFinalize_clean env' args' fs1 ws d1 _ Hws' Hgiven Hd1 eq_refl Hplans1 Hclear)
    as Hrun.
  cbv zeta in Hrun.
  eexists _, d1, _, s1, _.
  split; [exact Hd1 |]. split; [reflexivity |]. split.
  { unfold s1, summaryOf. cbn [finalVerdict].
    destruct blockers; [contradiction | reflexivity]. }
  split; [cbn; eauto |].
  split; [unfold run; rewrite Hrun; reflexivity |].
  split; [cbn [dirs]; apply lookup_insert_eq |].
  split; [reflexivity |]. split; [reflexivity |]. split; [reflexivity |].
  split; [reflexivity |]. split.
  { rewrite getIssues_insert, decide_True by reflexivity. cbn. now rewrite Hledger. }
  split; [reflexivity |].
  cbn. apply in_or_app. right. now left.
Qed.


End Records.

Lemma second_finalize_replaces_forced_summary_witness :
  let args := argsOf ["finalize"; "--workspace"; sampleWs; "--override-reason";
                      "Deadline constraint, will fix post-launch"; "--ci-force"] in
  let args' := argsOf ["finalize"; "--workspace"; sampleWs] in
  let fs1 := (run (cmdFinalize sampleEnv args) afterRound1).1 in
  ∃ fs2 d1 d2 s1 s2,
    dirs fs1 !! sampleWs = Some d1
    ∧ d_summary d1 = Some s1
    ∧ finalVerdict s1 = FORCE_APPROVED
    ∧ is_Some (force_approve_log s1)
    ∧ run (cmdFinalize sampleEnv args') fs1 = (fs2, Exit 0)
    ∧ dirs fs2 !! sampleWs = Some d2
    ∧ d_summary d2 = Some s2
    ∧ finalVerdict s2 = APPROVED
    ∧ force_approve_log s2 = None
    ∧ (verdict <$> d_meta d2) = Some APPROVED
    ∧ getIssues fs2 sampleWs = getIssues fs1 sampleWs
    ∧ d_changelog d2 = d_changelog d1 ++ [finalLogOf s2]
    ∧ In (finalLogOf s1) (d_changelog d1).
Proof.
  intros args args' fs1.
  apply (second_finalize_replaces_forced_summary sampleEnv sampleEnv args args'
           afterRound1 fs1 0 sampleWs).
  - vm_compute. reflexivity.
  - vm_compute. reflexivity.
  - vm_compute. reflexivity.
  - vm_compute. discriminate.
Defined.


(** A round given with 311 digits is recorded under [Infinity], and the
    files hold null as its number. *)
Example infinite_round_is_recorded :
  ((dirs afterHugeRound !! sampleWs) ≫= (λ d, d_rounds d !! Infinity false))
    ≫= (λ out, Some (ro_round out, ro_verdict out))
  = Some (None, REVISE)
  ∧ map (λ iss, (id iss, round_found iss)) (getIssues afterHugeRound sampleWs)
    = [("ISS-001", None)].
Proof. vm_compute. split; reflexivity. Qed.

(** ** The validator as a whole *)

Section WholeValidator.

Lemma forEachFrom_accepts check (P : json → Prop) :
  (∀ i x, check i x = Ok [] ↔ P x) →
  ∀ items k, forEachFrom check k items = Ok [] ↔ Forall P items.
Proof.
  intros Hcheck. induction items as [|x items IH]; intros k; cbn [forEachFrom].
  - split; [constructor | reflexivity].
  - rewrite Forall_cons_iff, <- (IH (S k)), <- (Hcheck k x).
    destruct (check k x) as [here|]; cbn; [| split; [discriminate | intros [[=] _]]].
    destruct (forEachFrom check (S k) items) as [later|]; cbn;
      [| split; [discriminate | intros [_ [=]]]].
    split.
    + intros [= [-> ->]%app_eq_nil]. auto.
    + intros [[= ->] [= ->]]. reflexivity.
Qed.

Lemma forEachFrom_throws check (bad : json → bool) :
  (∀ i x, bad x = true → check i x = Stop Uncaught) →
  (∀ i x, bad x = false → ∃ es, check i x = Ok es) →
  ∀ items k e, forEachFrom check k items = Stop e
               ↔ e = Uncaught ∧ ∃ x, In x items ∧ bad x = true.
Proof.
  intros Hbad Hother. induction items as [|x items IH]; intros k e; cbn [forEachFrom].
  - split; [discriminate | intros [_ (x & [] & _)]].
  - destruct (bad x) eqn:Hx.
    + rewrite (Hbad k x Hx). cbn.
      split; [intros [= <-]; split; [reflexivity |]; exists x; split; [now left | exact Hx]
             | intros [-> _]; reflexivity].
    + destruct (Hother k x Hx) as [es ->]. cbn.
      specialize (IH (S k) e).
      destruct (forEachFrom check (S k) items) as [later|]; cbn.
      * split; [discriminate |]. intros [He (y & [<- | Hin] & Hy)]; [congruence |].
        assert (e = Uncaught ∧ ∃ x, In x items ∧ bad x = true) as Hfalse by eauto.
        discriminate (proj2 IH Hfalse).
      * rewrite IH. split; intros [He (y & Hin & Hy)]; (split; [exact He |]).
        -- exists y. split; [now right | exact Hy].
        -- destruct Hin as [<- | Hin]; [congruence |]. eauto.
Qed.

Lemma shown_false_has set v : shown v = false → has set v = false.
Proof. destruct v as [[]|]; cbn; congruence. Qed.

Lemma complain_throws ok v e :
  complain ok v e = Stop Uncaught ↔ ok = false ∧ shown v = false.
Proof.
  unfold complain. destruct ok; [split; [discriminate | intros [[=] _]] |].
  destruct (shown v); [split; [discriminate | intros [_ [=]]] | split; auto].
Qed.

Lemma complain_returns ok v e : shown v = true → ∃ es, complain ok v e = Ok es.
Proof. unfold complain. intros ->. destruct ok; eauto. Qed.

Lemma throwsOn_spec key x :
  throwsOn key x = true ↔ x = JNull ∨ shown (fieldOf x key) = false.
Proof.
  unfold throwsOn. destruct x; cbn [fieldOf shown];
    rewrite ?negb_true_iff; split; auto; intros [[=] | H]; auto; discriminate.
Qed.

Lemma checkPriorIssue_accepts i pi : checkPriorIssue i pi = Ok [] ↔ acceptedPrior pi.
Proof.
  unfold acceptedPrior, acceptedId, acceptedStatus.
  destruct (null_or_not pi) as [-> | Hnn].
  { split; [discriminate | intros [[] _]; reflexivity]. }
  split.
  - intros [_ Hnil]%checkPriorIssue_Ok. symmetry in Hnil.
    apply app_eq_nil in Hnil as [Hid Hst].
    apply unless_nil, idOk_spec in Hid. apply unless_nil, has_spec in Hst. auto.
  - intros (_ & Hid & Hst). apply idOk_spec in Hid. apply (has_spec VALID_STATUSES) in Hst.
    rewrite checkPriorIssue_unfold by assumption.
    rewrite (complain_accepts _ _ _ Hst). cbn [mbind res_bind]. now rewrite Hid.
Qed.

Lemma checkNewIssue_accepts i ni : checkNewIssue i ni = Ok [] ↔ acceptedNew ni.
Proof.
  unfold acceptedNew.
  destruct (null_or_not ni) as [-> | Hnn].
  { split; [discriminate | intros [[] _]; reflexivity]. }
  split.
  - intros [_ Hnil]%checkNewIssue_Ok. symmetry in Hnil.
    apply app_eq_nil in Hnil as [Hsev [Hloc [Hprob Hfix]%app_eq_nil]%app_eq_nil].
    apply unless_nil, has_spec in Hsev. apply unless_nil in Hloc, Hprob, Hfix. auto.
  - intros (_ & Hsev & Hloc & Hprob & Hfix). apply (has_spec VALID_SEVERITIES) in Hsev.
    rewrite checkNewIssue_unfold by assumption.
    rewrite (complain_accepts _ _ _ Hsev). cbn [mbind res_bind].
    now rewrite Hloc, Hprob, Hfix.
Qed.

Lemma checkPriorIssue_throws i x :
  throwsOn "status" x = true → checkPriorIssue i x = Stop Uncaught.
Proof.
  intros [-> | Hs]%throwsOn_spec; [reflexivity |].
  destruct (null_or_not x) as [-> | Hnn]; [reflexivity |].
  rewrite checkPriorIssue_unfold by assumption.
  now rewrite (proj2 (complain_throws _ _ _) (conj (shown_false_has _ _ Hs) Hs)).
Qed.

Lemma checkPriorIssue_total i x :
  throwsOn "status" x = false → ∃ es, checkPriorIssue i x = Ok es.
Proof.
  intros Hx. destruct (null_or_not x) as [-> | Hnn]; [discriminate |].
  assert (shown (fieldOf x "status") = true) as Hs.
  { destruct (shown (fieldOf x "status")) eqn:E; [reflexivity |].
    rewrite (proj2 (throwsOn_spec "status" x) (or_intror E)) in Hx. discriminate. }
  rewrite checkPriorIssue_unfold by assumption.
  destruct (complain_returns (has VALID_STATUSES (fieldOf x "status")) _
              (PriorStatusInvalid i) Hs) as [es ->].
  cbn [mbind res_bind]. eauto.
Qed.

Lemma checkNewIssue_throws i x :
  throwsOn "severity" x = true → checkNewIssue i x = Stop Uncaught.
Proof.
  intros [-> | Hs]%throwsOn_spec; [reflexivity |].
  destruct (null_or_not x) as [-> | Hnn]; [reflexivity |].
  rewrite checkNewIssue_unfold by assumption.
  now rewrite (proj2 (complain_throws _ _ _) (conj (shown_false_has _ _ Hs) Hs)).
Qed.

Lemma checkNewIssue_total i x :
  throwsOn "severity" x = false → ∃ es, checkNewIssue i x = Ok es.
Proof.
  intros Hx. destruct (null_or_not x) as [-> | Hnn]; [discriminate |].
  assert (shown (fieldOf x "severity") = true) as Hs.
  { destruct (shown (fieldOf x "severity")) eqn:E; [reflexivity |].
    rewrite (proj2 (throwsOn_spec "severity" x) (or_intror E)) in Hx. discriminate. }
  rewrite checkNewIssue_unfold by assumption.
  destruct (complain_returns (has VALID_SEVERITIES (fieldOf x "severity")) _
              (NewSeverityInvalid i) Hs) as [es ->].
  cbn [mbind res_bind]. eauto.
Qed.

Lemma validateReviewResponse_unfold parsed :
  parsed ≠ JNull →
  validateReviewResponse parsed
  = (ve ← complain (has VALID_VERDICTS (fieldOf parsed "verdict"))
            (fieldOf parsed "verdict") VerdictInvalid;
     pe ← priorErrorsOf parsed;
     ne ← newErrorsOf parsed;
     Ok (ve ++ pe ++ ne
         ++ unless (isString (fieldOf parsed "summary")) SummaryNotString)).
Proof.
  intros Hnn. unfold validateReviewResponse. rewrite !prop_fieldOf by assumption.
  reflexivity.
Qed.

(** X16. The validator returns no error exactly for the responses that are
    not [null], carry the verdict APPROVED or REVISE, a text as summary, an
    array [prior_issues] whose elements have a non-empty text as id and one
    of the four update statuses, and an array [new_issues] whose elements
    have one of the four severities and a truthy location, problem and fix. *)
Theorem validator_accepts_exactly (parsed : json) :
  validateReviewResponse parsed = Ok [] ↔ acceptedResponse parsed.
Proof.
  unfold acceptedResponse.
  destruct (null_or_not parsed) as [-> | Hnn].
  { split; [discriminate | intros [[] _]; reflexivity]. }
  split.
  - intros Hok. split; [assumption |].
    apply validateReviewResponse_inv in Hok as (_ & pe & ne & Hpe & Hne & Herr).
    symmetry in Herr.
    apply app_eq_nil in Herr as [Hv [-> [-> Hs]%app_eq_nil]%app_eq_nil].
    apply priorErrorsOf_nil in Hpe as (prior & Hprior & Hpe).
    apply newErrorsOf_nil in Hne as (new & Hnew & Hne).
    apply unless_nil, has_spec in Hv as (v & Hv & Hin).
    apply unless_nil in Hs.
    split; [cbn in Hin; destruct Hin as [<- | [<- | []]]; auto |].
    split; [exists prior; split; [exact Hprior |];
            now apply (forEachFrom_accepts _ _ checkPriorIssue_accepts prior 0) |].
    split; [exists new; split; [exact Hnew |];
            now apply (forEachFrom_accepts _ _ checkNewIssue_accepts new 0) |].
    destruct (fieldOf parsed "summary") as [[]|]; try discriminate. eauto.
  - intros (_ & Hv & (prior & Hp & Hprior) & (new & Hn & Hnew) & (s & Hs)).
    apply (forEachFrom_accepts _ _ checkPriorIssue_accepts prior 0) in Hprior.
    apply (forEachFrom_accepts _ _ checkNewIssue_accepts new 0) in Hnew.
    rewrite validateReviewResponse_unfold by assumption.
    unfold priorErrorsOf, newErrorsOf. rewrite Hp, Hn, Hprior, Hnew, Hs.
    destruct Hv as [-> | ->]; reflexivity.
Qed.

Lemma priorErrorsOf_throws parsed e :
  priorErrorsOf parsed = Stop e
  ↔ e = Uncaught
    ∧ ∃ items, fieldOf parsed "prior_issues" = Some (JArr items)
               ∧ (In JNull items
                  ∨ ∃ pi, In pi items ∧ shown (fieldOf pi "status") = false).
Proof.
  unfold priorErrorsOf.
  destruct (fieldOf parsed "prior_issues") as [[| | | |items|]|];
    try (split; [discriminate | intros [_ (l & [=] & _)]]).
  rewrite (forEachFrom_throws checkPriorIssue (throwsOn "status")
             checkPriorIssue_throws checkPriorIssue_total).
  split.
  - intros [-> (x & Hin & [-> | Hs]%throwsOn_spec)]; (split; [reflexivity |]);
      exists items; (split; [reflexivity |]); eauto.
  - intros [-> (l & [= <-] & [Hin | (pi & Hin & Hs)])]; (split; [reflexivity |]).
    + exists JNull. split; [exact Hin | reflexivity].
    + exists pi. split; [exact Hin |]. apply throwsOn_spec. now right.
Qed.

Lemma newErrorsOf_throws parsed e :
  newErrorsOf parsed = Stop e
  ↔ e = Uncaught
    ∧ ∃ items, fieldOf parsed "new_issues" = Some (JArr items)
               ∧ (In JNull items
                  ∨ ∃ ni, In ni items ∧ shown (fieldOf ni "severity") = false).
Proof.
  unfold newErrorsOf.
  destruct (fieldOf parsed "new_issues") as [[| | | |items|]|];
    try (split; [discriminate | intros [_ (l & [=] & _)]]).
  rewrite (forEachFrom_throws checkNewIssue (throwsOn "severity")
             checkNewIssue_throws checkNewIssue_total).
  split.
  - intros [-> (x & Hin & [-> | Hs]%throwsOn_spec)]; (split; [reflexivity |]);
      exists items; (split; [reflexivity |]); eauto.
  - intros [-> (l & [= <-] & [Hin | (ni & Hin & Hs)])]; (split; [reflexivity |]).
    + exists JNull. split; [exact Hin | reflexivity].
    + exists ni. split; [exact Hin |]. apply throwsOn_spec. now right.
Qed.

Lemma validator_throws_iff parsed e :
  validateReviewResponse parsed = Stop e
  ↔ e = Uncaught ∧ (holdsNull parsed ∨ holdsUnshowable parsed).
Proof.
  unfold holdsNull, holdsUnshowable.
  destruct (null_or_not parsed) as [-> | Hnn].
  { cbn. split; [intros [= <-]; auto | intros [-> _]; reflexivity]. }
  rewrite validateReviewResponse_unfold by assumption.
  destruct (complain _ _ VerdictInvalid) as [ve|e0] eqn:Hve.
  2:{ pose proof (complain_stop _ _ _ _ Hve) as ->.
      apply complain_throws in Hve as [_ Hs]. cbn [mbind res_bind].
      split; [intros [= <-]; auto | intros [-> _]; reflexivity]. }
  assert (shown (fieldOf parsed "verdict") = false → False) as Hshown.
  { intros Hs.
    rewrite (proj2 (complain_throws _ _ VerdictInvalid)
               (conj (shown_false_has _ _ Hs) Hs)) in Hve. discriminate. }
  cbn [mbind res_bind].
  destruct (priorErrorsOf parsed) as [pe|e1] eqn:Hp.
  - destruct (newErrorsOf parsed) as [ne|e2] eqn:Hn; cbn.
    + split; [discriminate |].
      intros [He [[H | [(items & Hi & Hin) | (items & Hi & Hin)]]
                 | [H | [(items & pi & Hi & Hin & Hs) | (items & ni & Hi & Hin & Hs)]]]].
      * contradiction.
      * assert (priorErrorsOf parsed = Stop e) as Hcontra
          by (apply priorErrorsOf_throws; eauto 6). congruence.
      * assert (newErrorsOf parsed = Stop e) as Hcontra
          by (apply newErrorsOf_throws; eauto 6). congruence.
      * destruct (Hshown H).
      * assert (priorErrorsOf parsed = Stop e) as Hcontra
          by (apply priorErrorsOf_throws; eauto 8). congruence.
      * assert (newErrorsOf parsed = Stop e) as Hcontra
          by (apply newErrorsOf_throws; eauto 8). congruence.
    + apply newErrorsOf_throws in Hn as [-> (items & Hi & [Hin | (ni & Hin & Hs)])];
        (split; [intros [= <-]; split; [reflexivity |] | intros [-> _]; reflexivity]).
      * left. right. right. eauto.
      * right. right. right. eauto.
  - cbn. apply priorErrorsOf_throws in Hp as [-> (items & Hi & [Hin | (pi & Hin & Hs)])];
      (split; [intros [= <-]; split; [reflexivity |] | intros [-> _]; reflexivity]).
    + left. right. left. eauto.
    + right. right. left. eauto.
Qed.

(** X17. The validator throws, instead of returning errors, exactly when
    the response is [null], when one of its two arrays holds a [null]
    element, or when the verdict, the status of an update or the severity
    of a new issue is a value that cannot be converted to a string for the
    error message (an object with a property [toString], or an array that
    holds one); what it throws is then an uncaught exception.  For every
    other response it returns a list of errors. *)
Theorem validator_throws_on_null (parsed : json) :
  (∀ e, validateReviewResponse parsed = Stop e
        ↔ e = Uncaught ∧ (holdsNull parsed ∨ holdsUnshowable parsed))
  ∧ (¬ holdsNull parsed → ¬ holdsUnshowable parsed →
     ∃ errors, validateReviewResponse parsed = Ok errors).
Proof.
  split; [intros e; apply validator_throws_iff |].
  intros Hnone Hshown.
  destruct (validateReviewResponse parsed) as [errors|e] eqn:Hrun; [eauto |].
  destruct (proj1 (validator_throws_iff parsed e) Hrun) as [_ [H | H]]; contradiction.
Qed.

End WholeValidator.

Lemma validator_throws_on_null_witness :
  validateReviewResponse
    (JObj [("verdict", JStr "MAYBE"); ("prior_issues", JArr []); ("summary", JNum 1)])
  = Ok [VerdictInvalid; NewIssuesNotArray; SummaryNotString].
Proof.
  destruct (validator_throws_on_null
              (JObj [("verdict", JStr "MAYBE"); ("prior_issues", JArr []);
                     ("summary", JNum 1)])) as [_ Hreturns].
  destruct Hreturns as [errors Herrors].
  - unfold holdsNull. cbn. intros [[=] | [(items & [= <-] & []) | (items & [=] & _)]].
  - unfold holdsUnshowable. cbn.
    intros [[=] | [(items & pi & [= <-] & [] & _) | (items & ni & [=] & _)]].
  - rewrite Herrors. revert Herrors. vm_compute. intros [= <-]. reflexivity.
Defined.

(** A verdict given as an object with a property [toString] makes the
    validator throw while it builds the error message, and so does such a
    status behind a valid verdict. *)
Example validator_throws_on_unshowable_verdict :
  validateReviewResponse
    (JObj [("verdict", JObj [("toString", JNum 1)]); ("prior_issues", JArr []);
           ("new_issues", JArr []); ("summary", JStr "s")])
  = Stop Uncaught
  ∧ validateReviewResponse
      (JObj [("verdict", JStr "REVISE");
             ("prior_issues",
              JArr [JObj [("id", JStr "ISS-001");
                          ("status", JArr [JObj [("toString", JNull)]])]]);
             ("new_issues", JArr []); ("summary", JStr "s")])
    = Stop Uncaught
  ∧ validateReviewResponse
      (JObj [("verdict", JObj [("valueOf", JNum 1)]); ("prior_issues", JArr []);
             ("new_issues", JArr []); ("summary", JStr "s")])
    = Ok [VerdictInvalid].
Proof. vm_compute. repeat split; reflexivity. Qed.

(** ** What a token is, and what the similarity measures *)

Section Tokens.

Implicit Types A B : gset string.

Lemma blanked_char c :
  let l := lowerChar c in
  let k := if isWord l || isSpace l then l else " "%char in
  isTokenChar k || isSpace k = true.
Proof. destruct c as [[] [] [] [] [] [] [] []]; vm_compute; reflexivity. Qed.

Lemma blankPunctuation_chars text :
  allChars (λ c, isTokenChar c || isSpace c) (blankPunctuation (toLowerCase text)) = true.
Proof.
  induction text as [|c text IH]; [reflexivity |].
  cbn [toLowerCase blankPunctuation allChars].
  rewrite IH, andb_true_r. apply blanked_char.
Qed.

Lemma collapseSpaces_chars s :
  allChars (λ c, isTokenChar c || isSpace c) s = true →
  allChars (λ c, isTokenChar c || (code c =? 32)%N) (collapseSpaces s) = true.
Proof.
  induction s as [|c s IH]; [reflexivity |].
  cbn [allChars]. intros [Hc Hs]%andb_prop. specialize (IH Hs).
  cbn [collapseSpaces]. destruct (isSpace c) eqn:Hsp.
  - destruct s as [|d s]; [reflexivity |].
    destruct (isSpace d); [exact IH |].
    cbn [allChars]. rewrite IH. reflexivity.
  - cbn [allChars]. rewrite IH, andb_true_r.
    rewrite orb_false_r in Hc. now rewrite Hc.
Qed.

Lemma dropSpaces_chars p s : allChars p s = true → allChars p (dropSpaces s) = true.
Proof.
  induction s as [|c s IH]; [reflexivity |]. cbn [dropSpaces].
  destruct (isSpace c); [| trivial]. cbn [allChars]. intros [_ Hs]%andb_prop. auto.
Qed.

Lemma trimEnd_chars p s : allChars p s = true → allChars p (trimEnd s) = true.
Proof.
  induction s as [|c s IH]; [reflexivity |]. cbn [trimEnd].
  destruct (allSpaces (String c s)); [reflexivity |].
  cbn [allChars]. intros [-> Hs]%andb_prop. auto.
Qed.

Lemma normalizeText_chars text :
  allChars (λ c, isTokenChar c || (code c =? 32)%N) (normalizeText text) = true.
Proof.
  unfold normalizeText, trim.
  apply trimEnd_chars, dropSpaces_chars, collapseSpaces_chars, blankPunctuation_chars.
Qed.

Lemma splitSpace_pieces s :
  allChars (λ c, isTokenChar c || (code c =? 32)%N) s = true →
  Forall (λ w, allChars isTokenChar w = true) (splitSpace s).
Proof.
  induction s as [|c s IH]; cbn [splitSpace allChars].
  - intros _. repeat constructor.
  - intros [Hc Hs]%andb_prop. specialize (IH Hs).
    destruct (code c =? 32)%N eqn:Hsp.
    + constructor; [reflexivity | assumption].
    + rewrite orb_false_r in Hc.
      destruct (splitSpace s) as [|w ws]; [repeat constructor; cbn; now rewrite Hc |].
      apply Forall_cons_iff in IH as [Hw Hws]. constructor; [| assumption].
      cbn [allChars]. now rewrite Hc, Hw.
Qed.

Lemma tokenize_elem text w :
  w ∈ tokenize text ↔ w ≠ "" ∧ In w (splitSpace (normalizeText text)).
Proof.
  unfold tokenize. rewrite elem_of_list_to_set, list_elem_of_filter, list_elem_of_In.
  destruct w; cbn; intuition congruence.
Qed.

Lemma jaccardOfSets_one A B : (jaccardOfSets A B == 1)%Q ↔ A = B.
Proof.
  split; [| intros ->; apply jaccardOfSets_same].
  unfold jaccardOfSets.
  destruct (Nat.eqb_spec (size A) 0) as [HA | HA];
    [destruct (Nat.eqb_spec (size B) 0) as [HB | HB] |]; cbn [andb].
  - intros _. apply size_empty_iff, leibniz_equiv in HA, HB. congruence.
  - pose proof (countShared_le_l A B) as Hle.
    replace (countShared A B) with 0%nat by lia.
    destruct (_ =? _)%nat; intros [=].
  - pose proof (countShared_le_l A B) as Hl. pose proof (countShared_le_r A B) as Hr.
    destruct (Nat.eqb_spec (size A + size B - countShared A B) 0) as [| Hu]; [intros [=] |].
    unfold Qeq; cbn [Qnum Qden]. rewrite pos_of_nat_Z by assumption. intros Heq.
    rewrite countShared_inter in *.
    assert (size (A ∩ B) = size A ∧ size (A ∩ B) = size B) as [Ha Hb] by lia.
    assert (A ∩ B = A) as Hia
      by (apply set_subseteq_size_eq; [apply intersection_subseteq_l | lia]).
    assert (A ∩ B = B) as Hib
      by (apply set_subseteq_size_eq; [apply intersection_subseteq_r | lia]).
    congruence.
Qed.

Lemma jaccardOfSets_zero A B :
  (jaccardOfSets A B == 0)%Q ↔ A ∩ B = ∅ ∧ A ∪ B ≠ ∅.
Proof.
  unfold jaccardOfSets. rewrite countShared_inter.
  pose proof (subseteq_size (A ∩ B) A (intersection_subseteq_l A B)) as Hl.
  pose proof (subseteq_size (A ∩ B) B (intersection_subseteq_r A B)) as Hr.
  assert (size A = 0%nat ∧ size B = 0%nat ↔ A ∪ B = ∅) as Hempty.
  { rewrite !size_empty_iff. split.
    - intros [HA HB]. apply leibniz_equiv. set_solver.
    - intros H. split; set_solver. }
  assert (size (A ∩ B) = 0%nat ↔ A ∩ B = ∅) as Hinter.
  { rewrite size_empty_iff. split; [apply leibniz_equiv | now intros ->]. }
  destruct (Nat.eqb_spec (size A) 0) as [HA | HA];
    [destruct (Nat.eqb_spec (size B) 0) as [HB | HB] |]; cbn [andb].
  - split; [intros [=] |]. intros [_ Hne]. destruct Hne. now apply Hempty.
  - assert (size (A ∩ B) = 0%nat) as Hz by lia. rewrite Hz.
    split; [| destruct (_ =? _)%nat; reflexivity].
    intros _. split; [now apply Hinter |]. intros H%Hempty. lia.
  - destruct (Nat.eqb_spec (size A + size B - size (A ∩ B)) 0) as [| Hu]; [lia |].
    unfold Qeq; cbn [Qnum Qden]. split.
    + intros Hz. split; [apply Hinter; lia |]. intros H%Hempty. lia.
    + intros [Hz%Hinter _]. rewrite Hz. reflexivity.
Qed.

End Tokens.

(** X18. Every token of a text is a non-empty word over [[a-z0-9_]]: upper
    case letters are lowered and every other character separates tokens.
    Tokenizing a text and tokenizing its lower-case form give the same set. *)
Theorem tokens_are_lowercase_words (text w : string) :
  (w ∈ tokenize text → w ≠ "" ∧ allChars isTokenChar w = true)
  ∧ tokenize (toLowerCase text) = tokenize text.
Proof.
  split.
  - intros [Hne Hin]%tokenize_elem. split; [assumption |].
    pose proof (splitSpace_pieces _ (normalizeText_chars text)) as Hall.
    rewrite Forall_forall in Hall. apply Hall. now apply list_elem_of_In.
  - unfold tokenize, normalizeText. now rewrite toLowerCase_idem.
Qed.

Lemma tokens_are_lowercase_words_witness :
  "rate" ≠ "" ∧ allChars isTokenChar "rate" = true.
Proof.
  apply (tokens_are_lowercase_words "No RATE-limiting on /login!" "rate").
  vm_compute. reflexivity.
Defined.

(** X19. The similarity of two texts is 1 exactly when they have the same
    token set, whatever the order, the repetitions, the letter case and the
    punctuation; it is 0 exactly when they share no token and are not both
    without tokens; and it does not change when a text is lower-cased. *)
Theorem similarity_one_and_zero (a b : string) :
  ((jaccardSimilarity a b == 1)%Q ↔ tokenize a = tokenize b)
  ∧ ((jaccardSimilarity a b == 0)%Q
     ↔ tokenize a ∩ tokenize b = ∅ ∧ tokenize a ∪ tokenize b ≠ ∅)
  ∧ jaccardSimilarity (toLowerCase a) b = jaccardSimilarity a b.
Proof.
  unfold jaccardSimilarity. split; [apply jaccardOfSets_one |].
  split; [apply jaccardOfSets_zero |].
  unfold tokenize, normalizeText. now rewrite toLowerCase_idem.
Qed.

(** ** Where [extractJson] finds the response *)

Section Extraction.

Variable JSON_parse : string → option json.

Lemma append_cons c s t : String c s +:+ t = String c (s +:+ t).
Proof. reflexivity. Qed.

Lemma append_nil t : "" +:+ t = t.
Proof. reflexivity. Qed.

Lemma substring_all s : String.substring 0 (String.length s) s = s.
Proof. induction s as [|c s IH]; cbn; [reflexivity | now rewrite IH]. Qed.

Lemma prefix_head a s c r : a ≠ c → String.prefix (String a s) (String c r) = false.
Proof.
  intros Hne. destruct (String.prefix (String a s) (String c r)) eqn:E; [| reflexivity].
  apply String.prefix_correct in E. cbn in E. injection E as E _. congruence.
Qed.

Lemma prefix_append p s : String.prefix p (p +:+ s) = true.
Proof.
  induction p as [|a p IH]; [now destruct s |].
  rewrite append_cons. cbn -[ascii_dec].
  destruct (ascii_dec a a); [exact IH | contradiction].
Qed.

Lemma code_neq n c a : negb (code c =? n)%N = true → code a = n → a ≠ c.
Proof.
  intros Hc Ha ->. rewrite Ha, N.eqb_refl in Hc. discriminate.
Qed.

Lemma dropSpaces_idem s : dropSpaces (dropSpaces s) = dropSpaces s.
Proof.
  induction s as [|c s IH]; [reflexivity |]. cbn [dropSpaces].
  destruct (isSpace c) eqn:E; [assumption |]. cbn [dropSpaces]. now rewrite E.
Qed.

Lemma trim_dropSpaces s : trim (dropSpaces s) = trim s.
Proof. unfold trim. now rewrite dropSpaces_idem. Qed.

Lemma dropSpaces_append s c t :
  isSpace c = false → dropSpaces (s +:+ String c t) = dropSpaces s +:+ String c t.
Proof.
  intros Hc. induction s as [|d s IH].
  - rewrite append_nil. cbn [dropSpaces]. now rewrite Hc.
  - rewrite append_cons. cbn [dropSpaces]. destruct (isSpace d); [assumption | reflexivity].
Qed.

Lemma dropSpaces_lacks n s : lacks n s = true → lacks n (dropSpaces s) = true.
Proof. apply dropSpaces_chars. Qed.

Lemma afterFence_append pre rest :
  lacks 96 pre = true → afterFence (pre +:+ "```" +:+ rest) = Some rest.
Proof.
  induction pre as [|c pre IH].
  - intros _. rewrite append_nil, !append_cons, append_nil.
    cbn [afterFence]. change (String "`" (String "`" (String "`" rest))) with ("```" +:+ rest).
    rewrite prefix_append. rewrite !append_cons, append_nil.
    cbn [String.length Nat.sub String.substring]. now rewrite Nat.sub_0_r, substring_all.
  - cbn [lacks allChars]. intros [Hc Hpre]%andb_prop. rewrite append_cons.
    cbn [afterFence]. rewrite prefix_head by (eapply code_neq; [exact Hc | reflexivity]).
    now apply IH.
Qed.

Lemma beforeFence_append body rest :
  lacks 96 body = true → beforeFence (body +:+ "```" +:+ rest) = Some body.
Proof.
  induction body as [|c body IH].
  - intros _. rewrite append_nil, !append_cons, append_nil.
    cbn [beforeFence]. change (String "`" (String "`" (String "`" rest))) with ("```" +:+ rest).
    now rewrite prefix_append.
  - cbn [lacks allChars]. intros [Hc Hbody]%andb_prop. rewrite append_cons.
    cbn [beforeFence]. rewrite prefix_head by (eapply code_neq; [exact Hc | reflexivity]).
    fold (lacks 96 body) in Hbody. now rewrite (IH Hbody).
Qed.

Lemma fenceMatch_tagged pre body post :
  lacks 96 pre = true → lacks 96 body = true →
  fenceMatch (pre +:+ "```json" +:+ body +:+ "```" +:+ post) = Some (dropSpaces body).
Proof.
  intros Hpre Hbody. unfold fenceMatch.
  change ("```json" +:+ body +:+ "```" +:+ post)
    with ("```" +:+ "json" +:+ body +:+ "```" +:+ post).
  rewrite (afterFence_append pre _ Hpre). cbn [mbind option_bind].
  rewrite prefix_append. rewrite !append_cons, append_nil.
  cbn [String.length Nat.sub String.substring]. rewrite Nat.sub_0_r, substring_all.
  change ("```" +:+ post) with (String "`" ("``" +:+ post)).
  rewrite dropSpaces_append by reflexivity.
  change (String "`" ("``" +:+ post)) with ("```" +:+ post).
  apply beforeFence_append. now apply dropSpaces_lacks.
Qed.

Lemma fromOpenBrace_append pre rest :
  lacks 123 pre = true → fromOpenBrace (pre +:+ "{" +:+ rest) = Some ("{" +:+ rest).
Proof.
  induction pre as [|c pre IH]; [reflexivity |].
  cbn [lacks allChars]. intros [Hc Hpre]%andb_prop. rewrite append_cons.
  cbn [fromOpenBrace]. apply negb_true_iff in Hc. rewrite Hc. now apply IH.
Qed.

Lemma uptoCloseBrace_none post : lacks 125 post = true → uptoCloseBrace post = None.
Proof.
  induction post as [|c post IH]; [reflexivity |].
  cbn [lacks allChars]. intros [Hc Hpost]%andb_prop. cbn [uptoCloseBrace].
  rewrite (IH Hpost). apply negb_true_iff in Hc. now rewrite Hc.
Qed.

Lemma uptoCloseBrace_append s post :
  lacks 125 post = true → uptoCloseBrace (s +:+ "}" +:+ post) = Some (s +:+ "}").
Proof.
  intros Hpost. induction s as [|c s IH].
  - rewrite !append_nil, append_cons, append_nil. cbn [uptoCloseBrace].
    now rewrite (uptoCloseBrace_none _ Hpost).
  - rewrite (append_cons c s ("}" +:+ post)), (append_cons c s "}").
    cbn [uptoCloseBrace]. now rewrite IH.
Qed.

(** X20. A response that wraps its JSON in a fence opened by three
    backticks and [json], with no backtick before the fence nor inside it,
    is read from inside the fence: when the whole text does not parse, the
    result is the parse of the trimmed text between the fences, whatever
    follows the closing fence. *)
Theorem extractJson_reads_fenced_block pre body post v :
  lacks 96 pre = true → lacks 96 body = true →
  let raw := pre +:+ "```json" +:+ body +:+ "```" +:+ post in
  JSON_parse (trim raw) = None →
  JSON_parse (trim body) = Some v →
  fenceMatch raw = Some (dropSpaces body) ∧ extractJson JSON_parse raw = Some v.
Proof.
  intros Hpre Hbody raw Hdirect Hinner.
  pose proof (fenceMatch_tagged pre body post Hpre Hbody) as Hfence. fold raw in Hfence.
  split; [exact Hfence |].
  unfold extractJson. rewrite Hdirect, Hfence. cbn [orElse mbind option_bind].
  now rewrite trim_dropSpaces, Hinner.
Qed.

(** X21. When neither the whole text nor a fenced block parses, the result
    is the parse of the text from the first opening brace to the last
    closing brace; a text without a closing brace after its first opening
    brace has no such block. *)
Theorem extractJson_reads_brace_block pre mid post :
  lacks 123 pre = true → lacks 125 post = true →
  let raw := pre +:+ "{" +:+ mid +:+ "}" +:+ post in
  JSON_parse (trim raw) = None →
  (fenceMatch raw ≫= λ inner, JSON_parse (trim inner)) = None →
  braceBlock raw = Some ("{" +:+ mid +:+ "}")
  ∧ extractJson JSON_parse raw = JSON_parse ("{" +:+ mid +:+ "}")
  ∧ (lacks 125 mid = true → braceBlock (pre +:+ "{" +:+ mid) = None).
Proof.
  intros Hpre Hpost raw Hdirect Hfence.
  assert (braceBlock raw = Some ("{" +:+ mid +:+ "}")) as Hblock.
  { unfold braceBlock, raw. rewrite (fromOpenBrace_append pre _ Hpre).
    cbn [mbind option_bind].
    exact (uptoCloseBrace_append ("{" +:+ mid) post Hpost). }
  split; [exact Hblock |]. split.
  - unfold extractJson. rewrite Hdirect, Hfence, Hblock. reflexivity.
  - intros Hmid. unfold braceBlock.
    rewrite (fromOpenBrace_append pre _ Hpre). cbn [mbind option_bind].
    apply uptoCloseBrace_none. exact Hmid.
Qed.

End Extraction.

Lemma extractJson_reads_fenced_block_witness :
  extractJson sampleParse ("Here is my review: ```json round-1 ``` Thanks!")
  = sampleParse "round-1".
Proof.
  destruct (sampleParse "round-1") as [v|] eqn:Hv; [| vm_compute in Hv; discriminate].
  apply (extractJson_reads_fenced_block sampleParse "Here is my review: "
           " round-1 " " Thanks!" v).
  - vm_compute. reflexivity.
  - vm_compute. reflexivity.
  - vm_compute. reflexivity.
  - rewrite <- Hv. vm_compute. reflexivity.
Defined.

Lemma extractJson_reads_brace_block_witness :
  braceBlock "Verdict follows. {round-1} Regards" = Some "{round-1}".
Proof.
  apply (extractJson_reads_brace_block sampleParse "Verdict follows. " "round-1" " Regards").
  - vm_compute. reflexivity.
  - vm_compute. reflexivity.
  - vm_compute. reflexivity.
  - vm_compute. reflexivity.
Defined.

(** ** What a round may change in the ledger *)

Section RoundEdits.

Lemma applyPriorUpdates_lookup round m issues i iss :
  issues !! i = Some iss →
  applyPriorUpdates round m issues !! i
  = Some (match m !! id iss with
          | Some update => applyUpdate round update iss
          | None => iss
          end).
Proof.
  intros Hi. unfold applyPriorUpdates, Datatypes.id.
  rewrite list_lookup_fmap, Hi. reflexivity.
Qed.

Lemma buildPriorUpdateMap_unmentioned updates k :
  (∀ u, In u updates → pu_id u ≠ k) → buildPriorUpdateMap updates !! k = None.
Proof.
  intros Hnone. rewrite buildPriorUpdateMap_lookup.
  destruct (find _ (rev updates)) as [u|] eqn:Hfind; [| reflexivity].
  apply find_some in Hfind as [Hin Heq%String.eqb_eq].
  apply in_rev in Hin. now destruct (Hnone u Hin).
Qed.

Lemma applyPriorUpdates_problems round m issues o :
  In o (applyPriorUpdates round m issues) → ∃ o', In o' issues ∧ problem o = problem o'.
Proof.
  unfold applyPriorUpdates. intros (o' & <- & Hin)%in_map_iff.
  exists o'. split; [assumption |]. now destruct (m !! id o').
Qed.

Lemma scanOpenIssues_text s opens : ∀ maxSim dupOf,
  (∀ o, In o opens → textual (problem o)) →
  ∃ r, scanOpenIssues (JStr s) opens maxSim dupOf = Ok r.
Proof.
  induction opens as [|o opens IH]; intros maxSim dupOf Hall; cbn [scanOpenIssues].
  - eauto.
  - destruct (Hall o (or_introl eq_refl)) as [t ->]. cbn.
    destruct (Qlt_bool maxSim _); apply IH; intros o' Ho'; apply Hall; now right.
Qed.

Lemma registerFrom_text round opens new : ∀ idx st,
  (∀ ni, In ni new → textual (ni_problem ni)) →
  (∀ o, In o opens → textual (problem o)) →
  ∃ reg, registerFrom round opens idx new st = Ok reg.
Proof.
  induction new as [|ni new IH]; intros idx st Hnew Hopens; cbn [registerFrom].
  - eauto.
  - destruct (Hnew ni (or_introl eq_refl)) as [s ->].
    destruct (scanOpenIssues_text s opens 0%Q None Hopens) as [[m d] ->]. cbn.
    apply IH; [| assumption]. intros ni' Hni'. apply Hnew. now right.
Qed.

Lemma registerFrom_alone round new : ∀ idx st,
  ∃ reg, registerFrom round [] idx new st = Ok reg.
Proof.
  induction new as [|ni new IH]; intros idx st; cbn [registerFrom scanOpenIssues]; eauto.
Qed.

Lemma filter_none {A} (P : A → Prop) `{!∀ x, Decision (P x)} (l : list A) :
  (∀ x, In x l → ¬ P x) → filter P l = [].
Proof.
  induction l as [|x l IH]; intros Hnone; [reflexivity |].
  rewrite filter_cons, decide_False by (apply Hnone; now left).
  apply IH. intros y Hy. apply Hnone. now right.
Qed.

End RoundEdits.

(** X22. Prior-issue updates edit the ledger in place, when no update
    carries the id [__proto__] and every id of the ledger starts with
    [ISS-], as the ids that the script assigns do: the ledger keeps its
    length and its order, an updated issue keeps its id, severity, location,
    problem, fix and the round it was found in, an issue no update names is
    left as it is, and an update that names no issue of the ledger changes
    nothing. *)
Theorem prior_updates_edit_in_place round updates issues :
  (∀ u, In u updates → pu_id u ≠ "__proto__") →
  (∀ iss, In iss issues → String.prefix "ISS-" (id iss) = true) →
  let updated := applyPriorUpdates round (buildPriorUpdateMap updates) issues in
  length updated = length issues
  ∧ (∀ i iss, issues !! i = Some iss →
       ∃ iss', updated !! i = Some iss'
         ∧ id iss' = id iss ∧ severity iss' = severity iss
         ∧ location iss' = location iss ∧ problem iss' = problem iss
         ∧ fix_ iss' = fix_ iss ∧ round_found iss' = round_found iss
         ∧ ((∀ u, In u updates → pu_id u ≠ id iss) → iss' = iss))
  ∧ ((∀ u iss, In u updates → In iss issues → pu_id u ≠ id iss) → updated = issues).
Proof.
  intros _ _. cbv zeta. split; [apply applyPriorUpdates_length |]. split.
  - intros i iss Hi. rewrite (applyPriorUpdates_lookup _ _ _ _ _ Hi).
    eexists. split; [reflexivity |].
    destruct (buildPriorUpdateMap updates !! id iss) as [u|] eqn:Hu.
    + repeat split; try reflexivity. intros Hnone.
      rewrite (buildPriorUpdateMap_unmentioned _ _ Hnone) in Hu. discriminate.
    + repeat split; reflexivity.
  - intros Hnone. unfold applyPriorUpdates.
    rewrite <- (map_id issues) at 2. apply map_ext_in. intros iss Hin.
    rewrite buildPriorUpdateMap_unmentioned; [reflexivity |].
    intros u Hu. now apply Hnone.
Qed.

Lemma prior_updates_edit_in_place_witness :
  let updates := [{| pu_id := "ISS-001"; pu_status := st_resolved;
                     pu_evidence := Some (JStr "Rate limiter added") |};
                  {| pu_id := "ISS-404"; pu_status := st_regressed;
                     pu_evidence := None |}] in
  let issues := getIssues afterRound1 sampleWs in
  let updated := applyPriorUpdates (Num 2) (buildPriorUpdateMap updates) issues in
  length updated = 1%nat
  ∧ map (λ iss, (id iss, severity iss, status iss, problem iss)) updated
    = [("ISS-001", CRITICAL, st_resolved, JStr "No rate limiting on login")].
Proof.
  intros updates issues updated.
  assert (length issues = 1%nat) as Hone by (vm_compute; reflexivity).
  destruct (prior_updates_edit_in_place (Num 2) updates issues) as (Hlen & _ & _).
  - intros u [<- | [<- | []]]; discriminate.
  - intros iss Hin. apply (in_map id) in Hin.
    assert (map id issues = ["ISS-001"]) as Hids by (vm_compute; reflexivity).
    rewrite Hids in Hin. destruct Hin as [<- | []]. reflexivity.
  - split; [exact (eq_trans Hlen Hone) |]. vm_compute. reflexivity.
Defined.

(** X23. Registering the new issues of a round succeeds whenever every
    problem, of the new issues and of the ledger, is a text, and whenever no
    issue is open after the updates.  It ends by an uncaught exception when
    the first new issue has a problem that is not a text, which validation
    lets through if it is truthy, and an issue is open after the updates. *)
Theorem registration_needs_text round rv issues :
  let updated :=
    applyPriorUpdates round (buildPriorUpdateMap (rv_prior_issues rv)) issues in
  (((∀ ni, In ni (rv_new_issues rv) → textual (ni_problem ni))
    ∧ (∀ o, In o issues → textual (problem o)))
   ∨ (∀ o, In o updated → isOpen (status o) = false) →
   ∃ reg, processRound round rv issues = Ok reg)
  ∧ (∀ ni rest o,
       rv_new_issues rv = ni :: rest → ¬ textual (ni_problem ni) →
       In o updated → isOpen (status o) = true →
       processRound round rv issues = Stop Uncaught).
Proof.
  cbv zeta. unfold processRound, registerNewIssues. split.
  - intros [[Hnew Hold] | Hclosed].
    + apply registerFrom_text; [assumption |].
      intros o [_ Ho]%In_filter.
      apply applyPriorUpdates_problems in Ho as (o' & Ho' & ->). now apply Hold.
    + rewrite filter_none; [apply registerFrom_alone |].
      intros o Ho. rewrite (Hclosed o Ho). discriminate.
  - intros ni rest o -> Hni Ho Hopen.
    assert (In o (filter (λ i, isOpen (status i) = true)
                    (applyPriorUpdates round (buildPriorUpdateMap (rv_prior_issues rv))
                       issues))) as Hin by (apply In_filter; auto).
    destruct (filter _ _) as [|o1 opens]; [destruct Hin |].
    cbn [registerFrom scanOpenIssues].
    replace (jaccardSimilarityOf (ni_problem ni) (problem o1)) with (@Stop Q Uncaught);
      [reflexivity |].
    unfold jaccardSimilarityOf.
    destruct (ni_problem ni) as [| | |s| |]; try now destruct (problem o1).
    destruct Hni. now exists s.
Qed.

Lemma registration_needs_text_witness :
  let rv := {| rv_verdict := REVISE; rv_prior_issues := [];
               rv_new_issues := [{| ni_severity := LOW; ni_location := JStr "Auth";
                                    ni_problem := JNum 5; ni_fix := JStr "Rewrite" |}];
               rv_summary := "One more" |} in
  processRound (Num 2) rv (getIssues afterRound1 sampleWs) = Stop Uncaught.
Proof.
  intros rv.
  assert (is_Some (head (getIssues afterRound1 sampleWs))) as [o Ho]
    by (vm_compute; eauto).
  destruct (registration_needs_text (Num 2) rv (getIssues afterRound1 sampleWs))
    as [_ Hstop].
  apply (Hstop _ [] o eq_refl).
  - intros [s [=]].
  - destruct (getIssues afterRound1 sampleWs) as [|o1 rest] eqn:E; [discriminate |].
    injection Ho as ->. cbn. now left.
  - destruct (getIssues afterRound1 sampleWs) as [|o1 rest] eqn:E; [discriminate |].
    injection Ho as ->. vm_compute in E. injection E as <- _. reflexivity.
Defined.

(** ** Exit codes *)

Section Endings.

Variable P : ending → Prop.

Lemma ends_bind {A B} (m : M A) (k : A → M B) :
  ends P m → (∀ a, ends P (k a)) → ends P (m ≫= k).
Proof.
  intros Hm Hk fs fs' e. unfold mbind, M_bind.
  destruct (m fs) as [fs1 [a|e1]] eqn:Hrun.
  - apply Hk.
  - intros [= <- <-]. eapply Hm; eassumption.
Qed.

Lemma ends_ret {A} (a : A) : ends P (mret a).
Proof. intros fs fs' e [=]. Qed.

Lemma ends_reading {A} (f : FS → A) : ends P (reading f).
Proof. intros fs fs' e [=]. Qed.

Lemma ends_lift {A} (r : res A) : (∀ e, r = Stop e → P e) → ends P (lift r).
Proof. intros Hr fs fs' e [= _ ->]. now apply Hr. Qed.

Lemma ends_dieUnless ok why : P (Die why 2) → ends P (dieUnless ok why).
Proof. intros Hp. apply ends_lift. destruct ok; [discriminate | now intros e [= <-]]. Qed.

Lemma ends_attempt {A} (f : FS → res A) :
  (∀ fs e, f fs = Stop e → P e) → ends P (attempt f).
Proof. intros Hf fs fs' e [= _ He]. eapply Hf; eassumption. Qed.

Lemma ends_writing (f : FS → res FS) :
  (∀ fs e, f fs = Stop e → P e) → ends P (writing f).
Proof.
  intros Hf fs fs' e. unfold writing. destruct (f fs) as [fs1|e1] eqn:Hw; [discriminate |].
  intros [= _ <-]. eapply Hf; eassumption.
Qed.

End Endings.

(** Decomposes a command into the steps that can stop it. *)
Ltac ending P :=
  repeat first
    [ apply (ends_ret P)
    | apply (ends_reading P)
    | apply (ends_dieUnless P)
    | apply (ends_lift P); intros ?
    | apply (ends_attempt P); intros ? ?
    | apply (ends_writing P); intros ? ?
    | apply (ends_bind P); [| intros ?]
    | match goal with
      | |- ends _ (let '(_, _) := ?x in _) => destruct x
      | |- ends _ (if ?b then _ else _) => destruct b
      end ].

Section ExitCodes.

Variable JSON_parse : string → option json.

Lemma reported_die why : reported (Die why 2).
Proof. right. left. eauto. Qed.

Lemma reported_uncaught : reported Uncaught.
Proof. now left. Qed.

Lemma writeIn_stop fs ws change e : writeIn fs ws change = Stop e → reported e.
Proof. unfold writeIn. destruct (dirs fs !! ws); [discriminate |]. intros [= <-]. now left. Qed.

Lemma saveIssues_stop fs ws issues e : saveIssues fs ws issues = Stop e → reported e.
Proof. apply writeIn_stop. Qed.

Lemma ensureDir_stop p fs e : ensureDir p fs = Stop e → reported e.
Proof.
  unfold ensureDir. destruct p as [[p| |]|]; try (intros [= <-]; now left).
  destruct (dirs fs !! p), (files fs !! p); try discriminate. intros [= <-]. now left.
Qed.

Lemma detectFamilyOf_stop v e : detectFamilyOf v = Stop e → reported e.
Proof. destruct v as [[]|]; try discriminate; intros [= <-]; apply reported_uncaught. Qed.

Lemma readFile_stop fs p e : readFile fs p = Stop e → reported e.
Proof.
  unfold readFile. destruct (files fs !! p); [discriminate |].
  intros [= <-]. apply reported_die.
Qed.

Lemma getWorkspaceMeta_stop fs ws e : getWorkspaceMeta fs ws = Stop e → reported e.
Proof.
  unfold getWorkspaceMeta. destruct (_ ≫= _); [discriminate |].
  intros [= <-]. apply reported_die.
Qed.

Lemma overrideCheck_reported env reason ciForce blockers e :
  overrideCheck env reason ciForce blockers = Stop e → reported e.
Proof.
  unfold overrideCheck.
  destruct (negb (given reason)); [intros [= <-]; apply reported_die |].
  destruct (shorterThan10 reason); [intros [= <-]; apply reported_die |].
  destruct (isTTY env && negb ciForce)%bool.
  - destruct (String.eqb _ _); [discriminate | intros [= <-]; right; now right].
  - destruct (negb (isTTY env) || ciForce)%bool; [| discriminate].
    destruct (negb ciForce); [intros [= <-]; apply reported_die | discriminate].
Qed.

Lemma validateReviewResponse_reported parsed e :
  validateReviewResponse parsed = Stop e → reported e.
Proof. intros ->%validateReviewResponse_stop. apply reported_uncaught. Qed.

Lemma processRound_reported round parsed issues e :
  processRound round parsed issues = Stop e → reported e.
Proof. intros ->%processRound_stop. apply reported_uncaught. Qed.

Ltac stopped :=
  first
    [ apply writeIn_stop | apply saveIssues_stop | apply ensureDir_stop
    | apply detectFamilyOf_stop | apply readFile_stop | apply getWorkspaceMeta_stop
    | apply overrideCheck_reported | apply validateReviewResponse_reported
    | apply processRound_reported
    | match goal with
      | |- match ?x with _ => _ end = Stop _ → _ =>
          destruct x; try discriminate;
          try (intros [= <-]; first [apply reported_die | apply reported_uncaught])
      end ].

Lemma cmdInit_ends env args : ends reported (cmdInit env args).
Proof.
  unfold cmdInit. cbv zeta. ending reported; try apply reported_die; stopped.
Qed.

Lemma cmdParseRound_ends args : ends reported (cmdParseRound JSON_parse args).
Proof.
  unfold cmdParseRound. cbv zeta. ending reported; try apply reported_die; try stopped.
  all: match goal with
       | n : number |- _ =>
           destruct n as [[| |] |];
             first [discriminate | intros [= <-]; apply reported_die]
       end.
Qed.

Lemma cmdFinalize_ends env args : ends reported (cmdFinalize env args).
Proof.
  unfold cmdFinalize. cbv zeta. ending reported; try apply reported_die; stopped.
Qed.

Lemma cmdStatus_ends args : ends reported (cmdStatus args).
Proof.
  unfold cmdStatus. cbv zeta. ending reported; try apply reported_die; stopped.
Qed.

Lemma parseArgsFrom_stop argv : ∀ args e, parseArgsFrom argv args = Stop e → e = Uncaught.
Proof.
  induction argv as [argv IH] using (induction_ltof1 _ (@length string)).
  destruct argv as [|a rest]; intros args e; cbn [parseArgsFrom]; [discriminate |].
  destruct (startsWithDashes a).
  - destruct rest as [|next rest']; [discriminate |].
    destruct (negb (startsWithDashes next)); apply IH; unfold ltof; cbn; lia.
  - destruct (args !! "_") as [[| |words]|]; try (intros [= <-]; reflexivity).
    apply IH. unfold ltof. cbn. lia.
Qed.

Lemma run_cases (cmd : M Z) fs fs' e :
  run cmd fs = (fs', e) →
  (∃ c, cmd fs = (fs', Ok c) ∧ e = Exit c) ∨ cmd fs = (fs', Stop e).
Proof.
  unfold run. destruct (cmd fs) as [fs1 [c|e1]]; intros [= <- <-]; eauto.
Qed.

Lemma cmdStatus_code args fs fs' c :
  cmdStatus args fs = (fs', Ok c) → c = 0%Z ∨ c = 1%Z.
Proof.
  unfold cmdStatus. cbv zeta.
  rewrite bind_dieUnless. destruct (given (args !! "workspace")); [| discriminate].
  rewrite bind_reading, bind_dieUnless.
  destruct (existsSync fs (args !! "workspace")); [| discriminate].
  rewrite bind_attempt. destruct (getWorkspaceMeta fs _) as [meta|]; [| discriminate].
  rewrite bind_reading, bind_lift.
  destruct (forallb _ _); [| discriminate].
  intros [= _ <-]. destruct (_ || _); auto.
Qed.

Lemma cmdInit_code env args fs fs' c : cmdInit env args fs = (fs', Ok c) → c = 0%Z.
Proof.
  intros Hrun. apply cmdInit_inv in Hrun
    as [[_ (e & [=] & _)] | (plan & rm & pm & fs1 & _ & _ & _ & _ & _ & Hrest)].
  destruct Hrest as [(_ & _ & [=]) | (fs2 & d0 & _ & _ & [(_ & _ & [=]) | (_ & _ & [= ->])])].
  reflexivity.
Qed.

Lemma cmdParseRound_code args fs fs' c :
  cmdParseRound JSON_parse args fs = (fs', Ok c) → c = 0%Z ∨ c = 1%Z.
Proof.
  intros Hrun. apply cmdParseRound_inv in Hrun
    as [[_ (e & [=] & _)] | (ws & round & raw & parsed & rv & reg & d & _ & _ & _ & _ & _ & _ & _ & _ & _ & Hfs)].
  cbv zeta in Hfs. destruct (d_meta d); destruct Hfs as [_ [= ->]].
  destruct (bool_decide _); auto.
Qed.

Lemma cmdFinalize_code env args fs fs' c : cmdFinalize env args fs = (fs', Ok c) → c = 0%Z.
Proof.
  intros Hrun. apply cmdFinalize_inv in Hrun
    as [[_ (e & [=] & _)] | (ws & d & meta & _ & _ & _ & log & issues' & d0 & _ & Hfs)].
  destruct (d_plans d); destruct Hfs as [_ [= ->]]. reflexivity.
Qed.

(** X24. Every invocation ends by an uncaught exception or with exit code
    0, 1 or 2.  An error the script reports has code 2, except the refused
    confirmation of a forced approval, which has code 1; a run that returns
    without error has code 0, or code 1 from [parse-round] and [status]
    only. *)
Theorem main_exit_codes env argv fs fs' e :
  main JSON_parse env argv fs = (fs', e) →
  (e = Uncaught ∨ exitCode e = Some 0%Z ∨ exitCode e = Some 1%Z ∨ exitCode e = Some 2%Z)
  ∧ (∀ why c, e = Die why c → c = 2%Z ∨ (why = ConfirmAborted ∧ c = 1%Z))
  ∧ (e = Exit 1 →
     ∃ args, parseArgs argv = Ok args
             ∧ (commandWord args = Some "parse-round" ∨ commandWord args = Some "status")).
Proof.
  intros Hmain.
  assert (e = Exit 0 ∨ reported e
          ∨ (e = Exit 1 ∧ ∃ args, parseArgs argv = Ok args
                ∧ (commandWord args = Some "parse-round"
                   ∨ commandWord args = Some "status"))) as Hcases.
  { unfold main in Hmain.
    destruct (parseArgs argv) as [args|e0] eqn:Hargs.
    2: { injection Hmain as <- <-. right. left. left.
         exact (parseArgsFrom_stop _ _ _ Hargs). }
    destruct (commandWord args) as [[|c cmd]|] eqn:Hword;
      try (injection Hmain as <- <-; now left).
    destruct (given (args !! "help")); [injection Hmain as <- <-; now left |].
    destruct (String.eqb_spec (String c cmd) "init") as [Hinit |].
    { apply run_cases in Hmain as [(k & Hrun & ->) | Hrun].
      - left. now rewrite (cmdInit_code _ _ _ _ _ Hrun).
      - right. left. exact (cmdInit_ends env args _ _ _ Hrun). }
    destruct (String.eqb_spec (String c cmd) "parse-round") as [Hround |].
    { apply run_cases in Hmain as [(k & Hrun & ->) | Hrun].
      - destruct (cmdParseRound_code _ _ _ _ Hrun) as [-> | ->]; [now left |].
        right. right. split; [reflexivity |]. exists args. rewrite <- Hround. auto.
      - right. left. exact (cmdParseRound_ends args _ _ _ Hrun). }
    destruct (String.eqb_spec (String c cmd) "finalize") as [Hfinal |].
    { apply run_cases in Hmain as [(k & Hrun & ->) | Hrun].
      - left. now rewrite (cmdFinalize_code _ _ _ _ _ Hrun).
      - right. left. exact (cmdFinalize_ends env args _ _ _ Hrun). }
    destruct (String.eqb_spec (String c cmd) "status") as [Hstatus |].
    { apply run_cases in Hmain as [(k & Hrun & ->) | Hrun].
      - destruct (cmdStatus_code _ _ _ _ Hrun) as [-> | ->]; [now left |].
        right. right. split; [reflexivity |]. exists args. rewrite <- Hstatus. auto.
      - right. left. exact (cmdStatus_ends args _ _ _ Hrun). }
    injection Hmain as <- <-. right. left. apply reported_die. }
  destruct Hcases as [-> | [[-> | [[why ->] | ->]] | [-> Hcmd]]].
  - split; [cbn; auto |]. split; [intros why c [=] | intros [=]].
  - split; [auto |]. split; [intros why c [=] | intros [=]].
  - split; [cbn; auto |]. split; [intros w c [= <- <-]; auto | intros [=]].
  - split; [cbn; auto |]. split; [intros w c [= <- <-]; auto | intros [=]].
  - split; [cbn; auto |]. split; [intros why c [=] | intros _; exact Hcmd].
Qed.

(** X25. Only [init], [parse-round] and [finalize] write: an invocation
    that changes anything on disk parsed its arguments, was not asked for
    help, and names one of these three commands.  In particular [status],
    [--help], a missing and an unknown command leave every file as it is. *)
Theorem only_three_commands_write env argv fs :
  (main JSON_parse env argv fs).1 ≠ fs →
  ∃ args, parseArgs argv = Ok args
          ∧ given (args !! "help") = false
          ∧ (commandWord args = Some "init"
             ∨ commandWord args = Some "parse-round"
             ∨ commandWord args = Some "finalize").
Proof.
  unfold main. destruct (parseArgs argv) as [args|e0]; [| now intros []].
  destruct (commandWord args) as [[|c cmd]|] eqn:Hword; try now intros [].
  destruct (given (args !! "help")) eqn:Hhelp; [now intros [] |].
  destruct (String.eqb_spec (String c cmd) "init") as [Heq |];
    [rewrite Heq in Hword; intros _; exists args; repeat split; auto |].
  destruct (String.eqb_spec (String c cmd) "parse-round") as [Heq |];
    [rewrite Heq in Hword; intros _; exists args; repeat split; auto |].
  destruct (String.eqb_spec (String c cmd) "finalize") as [Heq |];
    [rewrite Heq in Hword; intros _; exists args; repeat split; auto |].
  destruct (String.eqb_spec (String c cmd) "status") as [Heq |]; [| now intros []].
  rewrite run_fst. destruct (cmdStatus args fs) as [fs1 r] eqn:Hrun. cbn [fst].
  rewrite <- (cmdStatus_same args _ _ _ Hrun). now intros [].
Qed.

End ExitCodes.

Lemma only_three_commands_write_witness :
  ∃ args, parseArgs initArgv = Ok args
          ∧ given (args !! "help") = false
          ∧ (commandWord args = Some "init"
             ∨ commandWord args = Some "parse-round"
             ∨ commandWord args = Some "finalize").
Proof.
  apply (only_three_commands_write sampleParse sampleEnv initArgv sampleFiles).
  intros Hsame. apply (f_equal (λ fs, size (dirs fs))) in Hsame.
  vm_compute in Hsame. discriminate.
Defined.

Lemma main_exit_codes_witness :
  exitCode (main sampleParse sampleEnv (roundArgv "1" "round-1.json")
              (session sampleParse sampleEnv [initArgv] sampleFiles).1).2 = Some 1%Z
  ∧ ∃ args, parseArgs (roundArgv "1" "round-1.json") = Ok args
            ∧ (commandWord args = Some "parse-round" ∨ commandWord args = Some "status").
Proof.
  set (fs := (session sampleParse sampleEnv [initArgv] sampleFiles).1).
  destruct (main_exit_codes sampleParse sampleEnv (roundArgv "1" "round-1.json") fs
              (main sampleParse sampleEnv (roundArgv "1" "round-1.json") fs).1
              (main sampleParse sampleEnv (roundArgv "1" "round-1.json") fs).2)
    as (_ & _ & Hone).
  - now destruct (main sampleParse sampleEnv (roundArgv "1" "round-1.json") fs).
  - split; [vm_compute; reflexivity |]. apply Hone. vm_compute. reflexivity.
Defined.

(** ** The summary of a finalized review *)

Section SummaryCounts.

Lemma countSeverity_total issues :
  (countSeverity CRITICAL issues + countSeverity HIGH issues
   + countSeverity MEDIUM issues + countSeverity LOW issues)%nat = length issues.
Proof.
  unfold countSeverity. induction issues as [|iss issues IH]; [reflexivity |].
  rewrite !filter_cons. cbn [length]. rewrite <- IH.
  destruct (severity iss);
    repeat first [rewrite decide_True by reflexivity | rewrite decide_False by discriminate];
    cbn [length]; lia.
Qed.

Lemma countStatus_le keep issues : (countStatus keep issues <= length issues)%nat.
Proof. unfold countStatus. apply length_filter. Qed.

Lemma countStatus_split keep issues :
  (countStatus keep issues + countStatus (λ s, negb (keep s)) issues)%nat = length issues.
Proof.
  unfold countStatus. induction issues as [|iss issues IH]; [reflexivity |].
  rewrite !filter_cons. cbn [length]. rewrite <- IH.
  destruct (keep (status iss)); cbn [negb];
    repeat first [rewrite decide_True by reflexivity | rewrite decide_False by discriminate];
    cbn [length]; lia.
Qed.

End SummaryCounts.

(** X26. The summary of a [finalize] that exits describes the ledger it
    leaves: the total is the number of issues, the four severity counts add
    up to it, resolved and unresolved add up to it, the unresolved count is
    the number of issues that are neither resolved, not-applicable nor
    force-approved, and no CRITICAL or HIGH issue of that ledger is open. *)
Theorem summary_describes_final_ledger env args fs fs' code ws d' s :
  run (cmdFinalize env args) fs = (fs', Exit code) →
  args !! "workspace" = Some (AStr ws) →
  dirs fs' !! ws = Some d' → d_summary d' = Some s →
  let issues := getIssues fs' ws in
  totalIssuesFound s = length issues
  ∧ (critical (issuesBySeverity s) + high (issuesBySeverity s)
     + medium (issuesBySeverity s) + low (issuesBySeverity s))%nat = length issues
  ∧ issuesResolved s = countStatus isResolved issues
  ∧ issuesUnresolved s = countStatus (λ st, negb (isResolved st)) issues
  ∧ (issuesResolved s + issuesUnresolved s)%nat = length issues
  ∧ getOpenBlockers issues = [].
Proof.
  unfold run. destruct (cmdFinalize env args fs) as [fs0 r] eqn:Hcmd.
  intros Hend Hws Hd' Hs. cbv zeta.
  apply cmdFinalize_inv in Hcmd
    as [(_ & e & -> & Hfail)
       | (ws0 & d & meta & Hws0 & Hd & Hmeta & log & issues' & d0 & Hover & Hfs)].
  { injection Hend as _ ->. destruct Hfail. }
  rewrite Hws in Hws0. injection Hws0 as <-.
  destruct (d_plans d) as [|v vs].
  { destruct Hfs as [_ ->]. discriminate. }
  cbv zeta in Hfs. destruct Hfs as [-> ->]. injection Hend as <- _.
  cbn [dirs] in Hd'. rewrite lookup_insert_eq in Hd'. injection Hd' as <-.
  cbn [d_summary setMeta appendLog setSummary] in Hs. injection Hs as <-.
  rewrite getIssues_insert, decide_True by reflexivity.
  cbn [setMeta appendLog setSummary setPlanFinal d_issues].
  assert (default [] (d_issues d0) = issues' ∧ getOpenBlockers issues' = []) as [-> Hclear].
  { destruct Hover as [(Hnone & _ & -> & ->) | (_ & _ & -> & ->)].
    - split; [symmetry; now apply getIssues_present | exact Hnone].
    - split; [reflexivity |]. apply markForceApproved_clears. intros x Hx Hb.
      apply getOpenBlockers_In. auto. }
  cbn [summaryOf totalIssuesFound issuesBySeverity issuesResolved issuesUnresolved
       critical high medium low].
  pose proof (countStatus_le isResolved issues') as Hle.
  pose proof (countStatus_split isResolved issues') as Hsplit.
  split; [reflexivity |]. split; [apply countSeverity_total |].
  split; [reflexivity |]. split; [lia |]. split; [lia | exact Hclear].
Qed.

Lemma summary_describes_final_ledger_witness :
  let args := argsOf ["finalize"; "--workspace"; sampleWs; "--override-reason";
                      "Deadline constraint, will fix post-launch"; "--ci-force"] in
  let fs' := (run (cmdFinalize sampleEnv args) afterRound1).1 in
  ∃ s, (dirs fs' !! sampleWs ≫= d_summary) = Some s
       ∧ totalIssuesFound s = length (getIssues fs' sampleWs)
       ∧ issuesUnresolved s = 0%nat
       ∧ getOpenBlockers (getIssues fs' sampleWs) = [].
Proof.
  intros args fs'.
  assert (is_Some (dirs fs' !! sampleWs ≫= d_summary)) as [s Hs] by (vm_compute; eauto).
  destruct (dirs fs' !! sampleWs) as [d'|] eqn:Hd'; [| discriminate]. cbn in Hs.
  destruct (summary_describes_final_ledger sampleEnv args afterRound1 fs' 0 sampleWs d' s)
    as (Htotal & _ & _ & Hun & _ & Hclear); try assumption.
  - vm_compute. reflexivity.
  - vm_compute. reflexivity.
  - exists s. cbn. split; [exact Hs |]. split; [exact Htotal |].
    split; [| exact Hclear]. rewrite Hun. vm_compute. reflexivity.
Defined.
